(** * OBBPD: the plugin crash-isolation engine of [OBBPD.py]

    A shallow embedding of the parts of [src/OBBPD.py] that decide how
    plugins are partitioned, tried and booked into the Safe / Failed /
    Tested lists:

    - [PyStr]: the string operations the script uses ([str.strip],
      [str.lower], [str.split(",")], [str.startswith], list membership);
    - [Config]: [parse_plugin_list] and the [REQUIRED_PLUGINS] /
      [OPTIONAL_PATCHES] defaults;
    - [Oracle]: [wait_and_check_crash], over an explicit stream of
      observations (clock readings, process polls, key presses);
    - [Engine]: [get_batch_size], the load-order construction and
      [run_batch];
    - [Turbo]: [turbo_batch_mode] with its mega batch and the
      re-verification pass;
    - [Files]: [read_plugins], [get_total_plugins], [write_plugins],
      [write_plugins_exact], [enforce_exact_load_order] and the order
      file turbo mode writes;
    - [Selection]: [filter_plugins], [get_patch_plugins] and the
      candidates [isolate_esps] derives;
    - [Driver]: [chunk] and the batches of normal mode.

    Python strings are modelled as [string] whose characters are the code
    points below 256; Python lists as [list]; a Python [int] as [Z].  The
    external world (the game, the file system, the operator) is a
    deterministic function of the history of trials, so every theorem that
    quantifies over it covers noisy and history-dependent oracles. *)

From Stdlib Require Import List Bool Arith ZArith QArith Lia Ascii String Permutation.
Import ListNotations.

(* ================================================================== *)
(** ** Python string and list primitives                               *)
(* ================================================================== *)

Module PyStr.

Local Open Scope string_scope.
Local Open Scope nat_scope.

(** [x in l] for a list of strings. *)
Definition mem (x : string) (l : list string) : bool :=
  existsb (String.eqb x) l.

(** [str.isspace] on one character, for code points below 256:
    TAB..CR, FS..US, SPACE, NEL (0x85) and NBSP (0xA0). *)
Definition is_space (c : ascii) : bool :=
  let n := nat_of_ascii c in
  ((9 <=? n) && (n <=? 13)) || ((28 <=? n) && (n <=? 32))
  || (n =? 133) || (n =? 160).

(** [str.lower] on one character, for code points below 256: [A-Z] and
    the Latin-1 capitals 0xC0..0xDE (except the multiplication sign 0xD7)
    move up by 32. *)
Definition lower_char (c : ascii) : ascii :=
  let n := nat_of_ascii c in
  if ((65 <=? n) && (n <=? 90))
     || ((192 <=? n) && (n <=? 222) && negb (n =? 215))
  then ascii_of_nat (n + 32) else c.

Fixpoint lower (s : string) : string :=
  match s with
  | EmptyString => EmptyString
  | String c s' => String (lower_char c) (lower s')
  end.

Fixpoint lstrip (s : string) : string :=
  match s with
  | EmptyString => EmptyString
  | String c s' => if is_space c then lstrip s' else s
  end.

Fixpoint rstrip (s : string) : string :=
  match s with
  | EmptyString => EmptyString
  | String c s' =>
      match rstrip s' with
      | EmptyString => if is_space c then EmptyString else String c EmptyString
      | r => String c r
      end
  end.

(** [s.strip()] *)
Definition strip (s : string) : string := rstrip (lstrip s).

(** Truthiness of a Python string: non-empty. *)
Definition truthy (s : string) : bool :=
  match s with EmptyString => false | _ => true end.

(** [s.split(sep)] for a one-character separator: never the empty list. *)
Fixpoint split (sep : ascii) (s : string) : list string :=
  match s with
  | EmptyString => [EmptyString]
  | String c s' =>
      if Ascii.eqb c sep then EmptyString :: split sep s'
      else match split sep s' with
           | cur :: rest => String c cur :: rest
           | [] => [String c EmptyString]
           end
  end.

(** [s.startswith(p)] *)
Definition startswith (p s : string) : bool := String.prefix p s.

(** Every character of [s] satisfies [f]. *)
Fixpoint all_chars (f : ascii -> bool) (s : string) : bool :=
  match s with
  | EmptyString => true
  | String c s' => f c && all_chars f s'
  end.

End PyStr.

(* ================================================================== *)
(** ** Configuration: the required and optional plugin lists           *)
(* ================================================================== *)

Module Config.

Import PyStr.
Local Open Scope string_scope.

(** [def parse_plugin_list(raw)]:
    [[p.strip() for p in raw.split(",") if p.strip()]] *)
Definition parse_plugin_list (raw : string) : list string :=
  map strip (filter (fun p => truthy (strip p)) (split "," raw)).

(** [xs or default] on lists: the empty list is falsy. *)
Definition py_or (xs default : list string) : list string :=
  match xs with
  | [] => default
  | _ :: _ => xs
  end.

Definition DEFAULT_REQUIRED : list string :=
  [ "Oblivion.esm"; "DLCBattlehornCastle.esp"; "DLCFrostcrag.esp";
    "DLCHorseArmor.esp"; "DLCMehrunesRazor.esp"; "DLCOrrery.esp";
    "DLCShiveringIsles.esp"; "DLCSpellTomes.esp"; "DLCThievesDen.esp";
    "DLCVileLair.esp"; "Knights.esp"; "AltarESPMain.esp";
    "AltarDeluxe.esp" ].

Definition DEFAULT_OPTIONAL : list string :=
  [ "Unofficial Oblivion Remastered Patch.esp";
    "Unofficial Oblivion Remastered Patch - Deluxe.esp" ].

(** [REQUIRED_PLUGINS = parse_plugin_list(required_plugins_raw) or [...]] *)
Definition REQUIRED_PLUGINS (required_plugins_raw : string) : list string :=
  py_or (parse_plugin_list required_plugins_raw) DEFAULT_REQUIRED.

(** [OPTIONAL_PATCHES = parse_plugin_list(optional_plugins_raw) or [...]] *)
Definition OPTIONAL_PATCHES (optional_plugins_raw : string) : list string :=
  py_or (parse_plugin_list optional_plugins_raw) DEFAULT_OPTIONAL.


End Config.

(* ================================================================== *)
(** ** The process oracle: [wait_and_check_crash]                      *)
(* ================================================================== *)

Module Oracle.

Local Open Scope Q_scope.

(** What [check_for_manual_pause()] does on one call: it returns at once
    when no key is waiting; otherwise it closes the game and, once the
    operator has typed a valid letter, either raises
    [RuntimeError("manual_pause_triggered")] (R) or calls [sys.exit] (V, Q). *)
Inductive pause_choice : Type :=
| NoKey
| Resume
| Revert
| Quit.

(** The observations one call of [wait_and_check_crash] makes of the
    outside world, each indexed by how many of that kind were made before:
    the readings of [time.time()] in seconds, whether [get_game_pid()]
    found the process, and what [check_for_manual_pause()] met. *)
Record observations : Type := {
  now : nat -> Q;
  pid_found : nat -> bool;
  key : nat -> pause_choice
}.

(** What the oracle does to the outside world. *)
Inductive action : Type :=
| Sleep (seconds : Q)
| ForceClose.

(** Counters of the observations consumed so far, and the actions
    performed, newest first. *)
Record ostate : Type := {
  reads : nat;
  polls : nat;
  checks : nat;
  log : list action
}.

Definition ostate0 : ostate :=
  {| reads := 0; polls := 0; checks := 0; log := [] |}.

Definition read_clock (obs : observations) (st : ostate) : Q * ostate :=
  (now obs (reads st),
   {| reads := S (reads st); polls := polls st; checks := checks st;
      log := log st |}).

Definition get_game_pid (obs : observations) (st : ostate) : bool * ostate :=
  (pid_found obs (polls st),
   {| reads := reads st; polls := S (polls st); checks := checks st;
      log := log st |}).

Definition check_for_manual_pause (obs : observations) (st : ostate)
  : pause_choice * ostate :=
  (key obs (checks st),
   {| reads := reads st; polls := polls st; checks := S (checks st);
      log := log st |}).

Definition act (a : action) (st : ostate) : ostate :=
  {| reads := reads st; polls := polls st; checks := checks st;
     log := a :: log st |}.

(** How a call of [wait_and_check_crash] ends: it returns [True]
    (crashed) or [False], lets the pause exception through, or the
    process exits. *)
Inductive outcome : Type :=
| Returned (crashed : bool)
| PauseRaised
| SysExit.

(** [for _ in range(30): if get_game_pid(): break; time.sleep(0.1)]:
    [true] when the loop was left by [break]. *)
Fixpoint grace (obs : observations) (n : nat) (st : ostate) : bool * ostate :=
  match n with
  | O => (false, st)
  | S n' =>
      let (found, st1) := get_game_pid obs st in
      if found then (true, st1)
      else grace obs n' (act (Sleep (1 # 10)) st1)
  end.

(** [x < y] on the rationals. *)
Definition Qltb (x y : Q) : bool := negb (Qle_bool y x).

(** [0.1 if TURBO_MODE else 0.25] *)
Definition poll_interval (TURBO_MODE : bool) : Q :=
  if TURBO_MODE then 1 # 10 else 1 # 4.

(** [while time.time() - start < WAIT_SECONDS: ...], then
    [force_close_game(); return False].  [fuel] bounds the number of
    loop tests. *)
Fixpoint watch (fuel : nat) (WAIT_SECONDS : Z) (TURBO_MODE : bool)
    (obs : observations) (start : Q) (st : ostate) : option (outcome * ostate) :=
  match fuel with
  | O => None
  | S fuel' =>
      let (t, st1) := read_clock obs st in
      if Qltb (t - start) (inject_Z WAIT_SECONDS) then
        let (k, st2) := check_for_manual_pause obs st1 in
        match k with
        | NoKey =>
            let (found, st3) := get_game_pid obs st2 in
            if negb found then Some (Returned true, act ForceClose st3)
            else watch fuel' WAIT_SECONDS TURBO_MODE obs start
                       (act (Sleep (poll_interval TURBO_MODE)) st3)
        | Resume => Some (PauseRaised, act ForceClose st2)
        | Revert | Quit => Some (SysExit, act ForceClose st2)
        end
      else Some (Returned false, act ForceClose st1)
  end.

(** [def wait_and_check_crash()] *)
Definition wait_and_check_crash (fuel : nat) (WAIT_SECONDS : Z)
    (TURBO_MODE : bool) (obs : observations) : option (outcome * ostate) :=
  let (start, st0) := read_clock obs ostate0 in
  let (found, st1) := grace obs 30 st0 in
  if found then watch fuel WAIT_SECONDS TURBO_MODE obs start st1
  else Some (Returned true, act ForceClose st1)   (* the loop's [else] *)
.

(** Seconds slept according to a log. *)
Fixpoint slept (l : list action) : Q :=
  match l with
  | [] => 0
  | Sleep s :: l' => s + slept l'
  | ForceClose :: l' => slept l'
  end.

(** [n] quiet turns of the watch loop, counted from state [st]: each
    time the clock is read before the deadline, no key is waiting and the
    process is still found. *)
Definition quiet (WAIT_SECONDS : Z) (obs : observations) (start : Q)
    (st : ostate) (n : nat) : Prop :=
  forall i, (i < n)%nat ->
    now obs (reads st + i)%nat - start < inject_Z WAIT_SECONDS
    /\ key obs (checks st + i)%nat = NoKey
    /\ pid_found obs (polls st + i)%nat = true.

(** The state after [n] quiet turns. *)
Definition after_quiet (TURBO_MODE : bool) (st : ostate) (n : nat) : ostate :=
  {| reads := (reads st + n)%nat; polls := (polls st + n)%nat;
     checks := (checks st + n)%nat;
     log := repeat (Sleep (poll_interval TURBO_MODE)) n ++ log st |}.

End Oracle.

(* ================================================================== *)
(** ** The isolation engine: [get_batch_size] and [run_batch]          *)
(* ================================================================== *)

Module Engine.

Import PyStr.
Local Open Scope nat_scope.
Local Open Scope list_scope.

(** How one attempt at a trial ends, as the callers of [launch_game] and
    [wait_and_check_crash] see it: the order file could not be written,
    [launch_game()] returned [False], [wait_and_check_crash()] returned
    [False] ([Passed]) or [True] ([Crashed]), the operator paused and chose
    Resume ([Paused]), or chose Revert or Quit ([Exited]). *)
Inductive event : Type :=
| WriteFailed
| LaunchFailed
| Passed
| Crashed
| Paused
| Exited.

(** The link with the oracle's results. *)
Definition classify (o : Oracle.outcome) : event :=
  match o with
  | Oracle.Returned false => Passed
  | Oracle.Returned true => Crashed
  | Oracle.PauseRaised => Paused
  | Oracle.SysExit => Exited
  end.

(** One attempted trial: the partition under test, the load order
    written for it, and how it ended. *)
Record trial : Type := {
  t_part : list string;
  t_order : list string;
  t_event : event
}.

(** Attempts so far, newest first. *)
Definition history : Type := list trial.

(** The outside world: how the next attempt ends, given everything tried
    so far and the load order proposed; the operator's answer to the
    re-test question; and what [get_total_plugins] reads. *)
Record world : Type := {
  oracle : history -> list string -> event;
  answer : string;
  total_plugins : history -> list string
}.

(** The module-level configuration the engine reads. *)
Record config : Type := {
  REQUIRED_PLUGINS : list string;
  OPTIONAL_PATCHES : list string;
  BATCH_SIZE : Z
}.

(** The world never fails to write or launch and the operator never
    leaves: every attempt ends Passed, Crashed or Paused. *)
Definition classifying (w : world) : Prop :=
  forall h order,
    oracle w h order = Passed \/ oracle w h order = Crashed
    \/ oracle w h order = Paused.

(** [def get_batch_size(size)] *)
Definition get_batch_size (size : Z) : Z :=
  if (size >=? 200)%Z then 25 else
  if (size >=? 150)%Z then 20 else
  if (size >=? 100)%Z then 15 else
  if (size >=? 50)%Z then 10 else
  if (size >=? 20)%Z then 5 else
  if (size >=? 10)%Z then 3 else
  if (size >=? 5)%Z then 2 else
  1.

(** [l[i:j]] for [0 <= i]. *)
Definition py_slice {A : Type} (i j : nat) (l : list A) : list A :=
  firstn (j - i) (skipn i l).

(** [range(0, stop, step)] for [step > 0]. *)
Definition range_step (stop step : nat) : list nat :=
  map (fun k => k * step) (seq 0 ((stop + step - 1) / step)).

(** The sub-batches [batch[i : i + sub_size]] for
    [i in range(0, len(batch), sub_size)]. *)
Definition sub_batches (sub_size : nat) (batch : list string)
  : list (list string) :=
  map (fun i => py_slice i (i + sub_size) batch)
      (range_step (List.length batch) sub_size).

(** [sub_size = get_batch_size(len(batch))] as a list length. *)
Definition sub_size_of (batch : list string) : nat :=
  Z.to_nat (get_batch_size (Z.of_nat (List.length batch))).

(** [if x not in l: l.append(x)] *)
Definition add_new (x : string) (l : list string) : list string :=
  if mem x l then l else l ++ [x].

(** The ledger and the attempts made. *)
Record state : Type := {
  safe : list string;
  tested : list string;
  failed : list string;
  hist : history
}.

(** A loop or call ran to its end, or the process exited inside it. *)
Inductive flow (S : Type) : Type :=
| Finished (st : S)
| Quit (st : S).
Arguments Finished {S} st.
Arguments Quit {S} st.

Section WithWorld.

Variable cfg : config.
Variable w : world.

(** [ordered = list(REQUIRED_PLUGINS) + list(OPTIONAL_PATCHES);
     ordered += [p for p in safe if p not in ordered]] *)
Definition base_order (safe_now : list string) : list string :=
  let ordered := REQUIRED_PLUGINS cfg ++ OPTIONAL_PATCHES cfg in
  ordered ++ filter (fun p => negb (mem p ordered)) safe_now.

(** The de-duplication of [run_batch]:
    [key = p.lower().strip(); if key and key not in seen: ...] *)
Fixpoint dedupe (seen : list string) (l : list string) : list string :=
  match l with
  | [] => []
  | p :: l' =>
      let key := strip (lower p) in
      if truthy key && negb (mem key seen)
      then p :: dedupe (key :: seen) l'
      else dedupe seen l'
  end.

(** The load order [run_batch] writes for a partition. *)
Definition load_order (safe_now part : list string) : list string :=
  dedupe [] (base_order safe_now ++ part).

(** Write the order, launch, wait: one attempt, recorded in the history. *)
Definition attempt (part order : list string) (h : history) : event * history :=
  let e := oracle w h order in
  (e, {| t_part := part; t_order := order; t_event := e |} :: h).

(** The record of the attempt the engine makes next on [part]. *)
Definition next_trial (part : list string) (st : state) : trial :=
  {| t_part := part; t_order := load_order (safe st) part;
     t_event := oracle w (hist st) (load_order (safe st) part) |}.

Definition set_hist (h : history) (st : state) : state :=
  {| safe := safe st; tested := tested st; failed := failed st; hist := h |}.

(** [safe.extend(part); tested.extend(part)] *)
Definition extend_safe (part : list string) (st : state) : state :=
  {| safe := safe st ++ part; tested := tested st ++ part;
     failed := failed st; hist := hist st |}.

(** [if plugin not in failed: failed.append(plugin)]
    [if plugin not in tested: tested.append(plugin)] *)
Definition mark_failed (plugin : string) (st : state) : state :=
  {| safe := safe st; tested := add_new plugin (tested st);
     failed := add_new plugin (failed st); hist := hist st |}.

(** [if plugin not in safe: safe.append(plugin)]
    [if plugin not in tested: tested.append(plugin)] *)
Definition mark_safe (plugin : string) (st : state) : state :=
  {| safe := add_new plugin (safe st); tested := add_new plugin (tested st);
     failed := failed st; hist := hist st |}.

(** The innermost loop of [run_batch]: [for plugin in sub: ...]. *)
Fixpoint single_loop (plugins : list string) (st : state) : flow state :=
  match plugins with
  | [] => Finished st
  | plugin :: rest =>
      let (e, h) := attempt [plugin] (load_order (safe st) [plugin]) (hist st) in
      let st1 := set_hist h st in
      match e with
      | WriteFailed => single_loop rest st1             (* continue *)
      | LaunchFailed => Finished st1                    (* break *)
      | Exited => Quit st1
      | Paused                                          (* one_crash = True *)
      | Crashed => single_loop rest (mark_failed plugin st1)
      | Passed => single_loop rest (mark_safe plugin st1)
      end
  end.

(** The sub-batch loop of [run_batch]:
    [for i in range(0, size, sub_size): sub = batch[i : i + sub_size] ...]. *)
Fixpoint sub_loop (subs : list (list string)) (st : state) : flow state :=
  match subs with
  | [] => Finished st
  | sub :: rest =>
      let (e, h) := attempt sub (load_order (safe st) sub) (hist st) in
      let st1 := set_hist h st in
      match e with
      | WriteFailed => sub_loop rest st1                (* continue *)
      | LaunchFailed => Finished st1                    (* break *)
      | Exited => Quit st1
      | Passed => sub_loop rest (extend_safe sub st1)
      | Paused                                          (* sub_crash = True *)
      | Crashed =>
          match sub with
          | [plugin] => sub_loop rest (mark_failed plugin st1)
          | _ =>
              match single_loop sub st1 with
              | Finished st2 => sub_loop rest st2
              | Quit st2 => Quit st2
              end
          end
      end
  end.

(** [def run_batch(batch, safe, tested, failed, total_plugins_list)].
    A pause at the batch trial calls [run_batch] again; [fuel] bounds
    these calls. *)
Fixpoint run_batch (fuel : nat) (batch : list string) (st : state)
  : option (flow state) :=
  match fuel with
  | O => None
  | S fuel' =>
      let (e, h) := attempt batch (load_order (safe st) batch) (hist st) in
      let st1 := set_hist h st in
      match e with
      | WriteFailed => Some (Finished st1)              (* return *)
      | LaunchFailed => Some (Finished st1)             (* return *)
      | Exited => Some (Quit st1)
      | Paused => run_batch fuel' batch st1
      | Passed => Some (Finished (extend_safe batch st1))
      | Crashed => Some (sub_loop (sub_batches (sub_size_of batch) batch) st1)
      end
  end.


End WithWorld.

(** The partitions tried, oldest first. *)
Definition partitions (h : history) : list (list string) :=
  map t_part (rev h).

(** The partitions tried with how each attempt ended, oldest first. *)
Definition outcomes (h : history) : list (list string * event) :=
  map (fun t => (t_part t, t_event t)) (rev h).

Definition state0 : state :=
  {| safe := []; tested := []; failed := []; hist := [] |}.

End Engine.

(* ================================================================== *)
(** ** Turbo batch mode: [turbo_batch_mode]                            *)
(* ================================================================== *)

Module Turbo.

Import PyStr Engine.
Local Open Scope nat_scope.
Local Open Scope list_scope.

(** The local lists of [turbo_batch_mode] and the attempts made. *)
Record tstate : Type := {
  safe : list string;
  tested : list string;
  failed : list string;
  remaining : list string;
  hist : history
}.

(** How a loop of [turbo_batch_mode] is left: it ran to its end ([Next]),
    the function returned from inside it after a passing mega batch
    ([Return]), or the process exited ([Exit]). *)
Inductive tflow : Type :=
| Next (st : tstate)
| Return (st : tstate)
| Exit (st : tstate).

(** The state a loop hands on, however it was left. *)
Definition result_state (r : tflow) : tstate :=
  match r with
  | Next st | Return st | Exit st => st
  end.

Definition flow_state {S : Type} (r : flow S) : S :=
  match r with
  | Finished st | Quit st => st
  end.

(** [l[:n]] *)
Definition py_prefix {A : Type} (n : Z) (l : list A) : list A :=
  if (0 <=? n)%Z then firstn (Z.to_nat n) l
  else firstn (List.length l - Z.to_nat (- n)) l.

Section WithWorld.

Variable cfg : config.
Variable w : world.

(** The de-duplication of [turbo_batch_mode]:
    [pl = p.lower().strip(); if pl not in seen and p: ...] *)
Fixpoint dedupe_turbo (seen : list string) (l : list string) : list string :=
  match l with
  | [] => []
  | p :: l' =>
      let pl := strip (lower p) in
      if negb (mem pl seen) && truthy p
      then p :: dedupe_turbo (pl :: seen) l'
      else dedupe_turbo seen l'
  end.

(** The load order turbo mode writes for a partition. *)
Definition turbo_order (safe_now part : list string) : list string :=
  dedupe_turbo [] (base_order cfg safe_now ++ part).

Definition set_hist (h : history) (st : tstate) : tstate :=
  {| safe := safe st; tested := tested st; failed := failed st;
     remaining := remaining st; hist := h |}.

Definition set_remaining (r : list string) (st : tstate) : tstate :=
  {| safe := safe st; tested := tested st; failed := failed st;
     remaining := r; hist := hist st |}.

Definition set_failed (f : list string) (st : tstate) : tstate :=
  {| safe := safe st; tested := tested st; failed := f;
     remaining := remaining st; hist := hist st |}.

(** [if p not in safe: safe.append(p)]
    [if p not in tested: tested.append(p)] *)
Definition mark_safe (p : string) (st : tstate) : tstate :=
  {| safe := add_new p (safe st); tested := add_new p (tested st);
     failed := failed st; remaining := remaining st; hist := hist st |}.

(** [for p in part: if p not in safe: ...; if p not in tested: ...] *)
Definition commit (part : list string) (st : tstate) : tstate :=
  fold_left (fun s p => mark_safe p s) part st.

(** [if plugin not in failed: failed.append(plugin)]
    [if plugin not in tested: tested.append(plugin)] *)
Definition mark_failed (plugin : string) (st : tstate) : tstate :=
  {| safe := safe st; tested := add_new plugin (tested st);
     failed := add_new plugin (failed st); remaining := remaining st;
     hist := hist st |}.

(** [remaining = [p for p in remaining if p not in safe]] *)
Definition drop_safe (st : tstate) : tstate :=
  set_remaining (filter (fun p => negb (mem p (safe st))) (remaining st)) st.

(** [[p for p in remaining if p not in failed and p not in safe]] *)
Definition unclassified (st : tstate) : list string :=
  filter (fun p => negb (mem p (failed st)) && negb (mem p (safe st)))
         (remaining st).

(** [remaining = [p for p in remaining if p not in failed and p not in safe]] *)
Definition drop_classified (st : tstate) : tstate :=
  set_remaining (unclassified st) st.

(** Write the order, launch, wait: one attempt, recorded in the history. *)
Definition tattempt (part order : list string) (st : tstate) : event * tstate :=
  let (e, h) := attempt w part order (hist st) in (e, set_hist h st).

(** The record of the attempt turbo mode makes next on [part]. *)
Definition next_attempt (part order : list string) (st : tstate) : trial :=
  {| t_part := part; t_order := order;
     t_event := oracle w (hist st) order |}.

(** The load order of a re-test of one failed plugin. *)
Definition recheck_order (st : tstate) (plugin : string) : list string :=
  let backup_plugins := total_plugins w (hist st) in
  let safe_in_backup_order := filter (fun p => mem p (safe st)) backup_plugins in
  let ordered := REQUIRED_PLUGINS cfg ++ OPTIONAL_PATCHES cfg in
  let ordered := ordered
                 ++ filter (fun p => negb (mem p ordered)) safe_in_backup_order in
  dedupe_turbo [] (ordered ++ [plugin]).

(** One turn of [for plugin in failed: ...] of the re-test: [failed] is
    left alone, a plugin that still fails is noted in [refailed], a
    plugin that passes is appended to [safe]. *)
Definition recheck_step (plugin : string) (st : tstate) (refailed : list string)
  : flow (tstate * list string) :=
  let (e, st1) := tattempt [plugin] (recheck_order st plugin) st in
  match e with
  | WriteFailed | LaunchFailed => Finished (st1, refailed ++ [plugin])
  | Exited => Quit (st1, refailed)
  | Paused                                              (* crashed = True *)
  | Crashed => Finished (st1, refailed ++ [plugin])
  | Passed =>
      Finished ({| safe := safe st1 ++ [plugin]; tested := tested st1;
                   failed := failed st1; remaining := remaining st1;
                   hist := hist st1 |}, refailed)
  end.

Fixpoint recheck_loop (plugins : list string) (st : tstate)
    (refailed : list string) : flow (tstate * list string) :=
  match plugins with
  | [] => Finished (st, refailed)
  | plugin :: rest =>
      match recheck_step plugin st refailed with
      | Finished (st1, refailed1) => recheck_loop rest st1 refailed1
      | Quit x => Quit x
      end
  end.

(** [resp = input(...).strip().lower(); resp == "" or resp.startswith("y")] *)
Definition wants_retest (typed : string) : bool :=
  let resp := lower (strip typed) in
  String.eqb resp EmptyString || startswith "y" resp.

(** The re-test of the failed plugins, as it stands at both ends of
    [turbo_batch_mode]: [if failed: ... failed[:] = refailed]. *)
Definition recheck (st : tstate) : flow tstate :=
  match failed st with
  | [] => Finished st
  | _ :: _ =>
      if wants_retest (answer w) then
        match recheck_loop (failed st) st [] with
        | Finished (st1, refailed) => Finished (set_failed refailed st1)
        | Quit (st1, _) => Quit st1
        end
      else Finished st
  end.

Definition of_recheck (r : flow tstate) : tflow :=
  match r with
  | Finished st => Return st
  | Quit st => Exit st
  end.

(** The single-plugin loop, [for plugin in sub: ...], with the mega batch
    after each failure. *)
Fixpoint turbo_singles (sub : list string) (st : tstate) : tflow :=
  match sub with
  | [] => Next st
  | plugin :: rest =>
      let (e, st1) := tattempt [plugin] (turbo_order (safe st) [plugin]) st in
      match e with
      | WriteFailed | LaunchFailed => turbo_singles rest st1   (* continue *)
      | Exited => Exit st1
      | Passed => turbo_singles rest (mark_safe plugin st1)
      | Paused                                          (* one_crash = True *)
      | Crashed =>
          let st2 := mark_failed plugin st1 in
          let turbo_remaining := unclassified st2 in
          match turbo_remaining with
          | [] => turbo_singles rest st2
          | _ :: _ =>
              let (m, st3) :=
                tattempt turbo_remaining
                         (turbo_order (safe st2) turbo_remaining) st2 in
              match m with
              | WriteFailed | LaunchFailed => turbo_singles rest st3 (* continue *)
              | Exited => Exit st3
              | Paused                                  (* mega_crash = True *)
              | Crashed => turbo_singles rest st3
              | Passed =>
                  (* all remaining marked safe; remaining.clear();
                     re-test; return safe, failed *)
                  of_recheck
                    (recheck (set_remaining [] (commit turbo_remaining st3)))
              end
          end
      end
  end.

(** What follows a single-plugin failure, read off [turbo_singles]: the
    mega batch over what is still unclassified, when there is any. *)
Definition after_failure (rest : list string) (st2 : tstate) : tflow :=
  let rem := unclassified st2 in
  let st3 := set_hist (next_attempt rem (turbo_order (safe st2) rem) st2
                         :: hist st2) st2 in
  match rem with
  | [] => turbo_singles rest st2
  | _ :: _ =>
      match oracle w (hist st2) (turbo_order (safe st2) rem) with
      | Passed => of_recheck (recheck (set_remaining [] (commit rem st3)))
      | Exited => Exit st3
      | _ => turbo_singles rest st3
      end
  end.

(** The sub-batch loop, [for i in range(0, size, sub_size): ...]. *)
Fixpoint turbo_subs (subs : list (list string)) (st : tstate) : tflow :=
  match subs with
  | [] => Next st
  | sub :: rest =>
      let (e, st1) := tattempt sub (turbo_order (safe st) sub) st in
      match e with
      | WriteFailed | LaunchFailed => turbo_subs rest st1      (* continue *)
      | Exited => Exit st1
      | Passed => turbo_subs rest (drop_safe (commit sub st1))
      | Paused                                          (* sub_crash = True *)
      | Crashed =>
          match turbo_singles sub st1 with
          | Next st2 => turbo_subs rest (drop_classified st2)
          | other => other
          end
      end
  end.

(** [while remaining: ...]; [fuel] bounds the number of turns. *)
Fixpoint turbo_while (fuel : nat) (st : tstate) : option tflow :=
  match remaining st with
  | [] => Some (Next st)
  | _ :: _ =>
      match fuel with
      | O => None
      | S fuel' =>
          let batch := py_prefix (BATCH_SIZE cfg) (remaining st) in
          let (e, st1) := tattempt batch (turbo_order (safe st) batch) st in
          match e with
          | WriteFailed | LaunchFailed => Some (Next st1)      (* break *)
          | Exited => Some (Exit st1)
          | Paused => turbo_while fuel' st1                    (* continue *)
          | Passed => turbo_while fuel' (drop_safe (commit batch st1))
          | Crashed =>
              match turbo_subs (sub_batches (sub_size_of batch) batch) st1 with
              | Next st2 => turbo_while fuel' st2
              | other => Some other
              end
          end
      end
  end.

(** [for p in list(REQUIRED_PLUGINS) + list(OPTIONAL_PATCHES):
       if p not in safe: safe.append(p)
       if p not in tested: tested.append(p)] *)
Definition seed (st : tstate) : tstate :=
  commit (REQUIRED_PLUGINS cfg ++ OPTIONAL_PATCHES cfg) st.

(** The state [turbo_batch_mode] starts from:
    [tested, failed = [], []; remaining = to_test + patch_plugins]. *)
Definition turbo_init (to_test patch_plugins safe0 : list string) : tstate :=
  {| safe := safe0; tested := []; failed := [];
     remaining := to_test ++ patch_plugins; hist := [] |}.

(** [def turbo_batch_mode(to_test, patch_plugins, safe, total_plugins_list)]:
    [Finished] carries the lists when the function returns. *)
Definition turbo_batch_mode (fuel : nat)
    (to_test patch_plugins safe0 : list string) : option (flow tstate) :=
  match turbo_while fuel (seed (turbo_init to_test patch_plugins safe0)) with
  | None => None
  | Some (Next st) => Some (recheck st)
  | Some (Return st) => Some (Finished st)
  | Some (Exit st) => Some (Quit st)
  end.

End WithWorld.

End Turbo.

(* ================================================================== *)
(** ** What the ledger of a turbo run must satisfy                     *)
(* ================================================================== *)

Module Ledger.

Import Engine Turbo.
Local Open Scope nat_scope.
Local Open Scope list_scope.

(** A plugin is classified once it is in Safe or in Failed. *)
Definition classified (st : tstate) (p : string) : Prop :=
  In p (safe st) \/ In p (failed st).

Section WithCandidates.

(** The candidate plugins, and the plugins Safe is seeded with. *)
Variable cands : list string.
Variable seeds : list string.

(** [remaining] holds no plugin a trial has booked: none of Failed, and
    of Safe only plugins that were seeded there. *)
Definition fresh (st : tstate) : Prop :=
  forall p, In p (remaining st) ->
            ~ In p (failed st) /\ (In p (safe st) -> In p seeds).

(** The ledger is sound: no duplicates, Tested is Safe plus Failed, only
    a seeded plugin can be in both Safe and Failed, and nothing but seeds
    and candidates got in. *)
Record Led (st : tstate) : Prop := {
  led_safe_nodup : NoDup (safe st);
  led_failed_nodup : NoDup (failed st);
  led_tested_nodup : NoDup (tested st);
  led_tested : forall p, In p (tested st) <-> classified st p;
  led_twice : forall p, In p (safe st) -> In p (failed st) -> In p seeds;
  led_seeds : incl seeds (safe st);
  led_safe_src : forall p, In p (safe st) -> In p seeds \/ In p cands;
  led_failed_src : forall p, In p (failed st) -> In p cands
}.

(** [remaining] still holds every candidate that is not classified. *)
Record Rem (st : tstate) : Prop := {
  rem_nodup : NoDup (remaining st);
  rem_src : incl (remaining st) cands;
  rem_cover : forall p, In p cands -> classified st p \/ In p (remaining st)
}.

(** The books when turbo mode returns: every candidate is classified,
    Tested holds the seeds and the candidates, each once, and Safe and
    Failed together hold Tested and, once more, the plugins of [twice]:
    candidates that were seeded as well. *)
Definition final (st : tstate) : Prop :=
  (forall p, In p cands -> classified st p)
  /\ NoDup (tested st)
  /\ (forall p, In p (tested st) <-> In p seeds \/ In p cands)
  /\ exists twice,
       Permutation (safe st ++ failed st) (tested st ++ twice)
       /\ NoDup twice /\ incl twice seeds /\ incl twice cands.

(** The outcome every loop of turbo mode guarantees: it hands on a state
    satisfying [Q], or the function has returned with its books as
    [final] says. *)
Definition loop_post (Q : tstate -> Prop) (r : tflow) : Prop :=
  match r with
  | Next st' => Q st'
  | Return st' => final st'
  | Exit _ => False
  end.

(** From [st] to [st'], Safe and Failed have grown, by plugins of [part]
    only. *)
Definition grown (part : list string) (st st' : tstate) : Prop :=
  incl (safe st) (safe st') /\ incl (failed st) (failed st')
  /\ (forall p, In p (safe st') -> In p (safe st) \/ In p part)
  /\ (forall p, In p (failed st') -> In p (failed st) \/ In p part).

(** After the single-plugin loop over [sub]. *)
Definition singles_post (sub : list string) (st st' : tstate) : Prop :=
  Led st' /\ Rem st' /\ remaining st' = remaining st
  /\ grown sub st st'
  /\ (forall p, In p sub -> classified st' p).

(** After the sub-batch loop over [subs]. *)
Definition subs_post (subs : list (list string)) (st st' : tstate) : Prop :=
  Led st' /\ Rem st' /\ fresh st'
  /\ incl (remaining st') (remaining st)
  /\ grown (List.concat subs) st st'
  /\ (forall p, In p (List.concat subs) ->
                classified st' p /\ ~ In p (remaining st')).

(** Every candidate is classified. *)
Definition complete (st : tstate) : Prop :=
  Led st /\ forall p, In p cands -> classified st p.

End WithCandidates.

Arguments led_safe_nodup {cands seeds st}.
Arguments led_failed_nodup {cands seeds st}.
Arguments led_tested_nodup {cands seeds st}.
Arguments led_tested {cands seeds st}.
Arguments led_twice {cands seeds st}.
Arguments led_seeds {cands seeds st}.
Arguments led_safe_src {cands seeds st}.
Arguments led_failed_src {cands seeds st}.
Arguments rem_nodup {cands st}.
Arguments rem_src {cands st}.
Arguments rem_cover {cands st}.

End Ledger.

(* ================================================================== *)
(** ** Concrete worlds and inputs                                      *)
(* ================================================================== *)

Module Scenarios.

Import PyStr Oracle Engine Turbo.
Local Open Scope string_scope.
Local Open Scope list_scope.
Local Open Scope nat_scope.

(** A game that never starts; one that shows up at the third poll and is
    still there when the clock, read once a second, reaches the 11 s
    deadline; and one that is gone at the second poll of the watch loop. *)
Definition obs_never : observations :=
  {| now := fun i => inject_Z (Z.of_nat i); pid_found := fun _ => false;
     key := fun _ => NoKey |}.

Definition obs_alive : observations :=
  {| now := fun i => inject_Z (Z.of_nat i);
     pid_found := fun k => 2 <=? k; key := fun _ => NoKey |}.

Definition obs_gone : observations :=
  {| now := fun i => inject_Z (Z.of_nat i);
     pid_found := fun k => (2 <=? k) && (k <? 4); key := fun _ => NoKey |}.

(** A world whose attempts end as a fixed script says, one entry per
    attempt, and as [otherwise] once the script is used up. *)
Definition scripted (events : list event) (otherwise : event) : world :=
  {| oracle := fun h _ => nth (List.length h) events otherwise;
     answer := "y";
     total_plugins := fun _ => [] |}.

(** A world in which the game crashes exactly when [bad] is loaded. *)
Definition culprit (bad : string) : world :=
  {| oracle := fun _ order => if mem bad order then Crashed else Passed;
     answer := "y";
     total_plugins := fun _ => [] |}.

Definition cfg_small : config :=
  {| REQUIRED_PLUGINS := ["Oblivion.esm"]; OPTIONAL_PATCHES := [];
     BATCH_SIZE := 10 |}.


Definition batch5 : list string :=
  ["a.esp"; "b.esp"; "c.esp"; "d.esp"; "e.esp"].

Definition batch20 : list string :=
  ["p00.esp"; "p01.esp"; "p02.esp"; "p03.esp"; "p04.esp";
   "p05.esp"; "p06.esp"; "p07.esp"; "p08.esp"; "p09.esp";
   "p10.esp"; "p11.esp"; "p12.esp"; "p13.esp"; "p14.esp";
   "p15.esp"; "p16.esp"; "p17.esp"; "p18.esp"; "p19.esp"].

(** A world in which every trial passes and the backup of the order
    file lists four plugins. *)
Definition all_pass : world :=
  {| oracle := fun _ _ => Passed;
     answer := "";
     total_plugins :=
       fun _ => ["Oblivion.esm"; "a.esp"; "x.esp"; "y.esp"] |}.

(** The same backup, with a game that crashes whenever [y.esp] is
    loaded. *)
Definition y_crashes : world :=
  {| oracle := fun _ order => if mem "y.esp" order then Crashed else Passed;
     answer := "Yes";
     total_plugins :=
       fun _ => ["Oblivion.esm"; "a.esp"; "x.esp"; "y.esp"] |}.

(** Turbo mode after isolation: [a.esp] is safe, [x.esp] and [y.esp]
    failed. *)
Definition ledger_xy : tstate :=
  {| Turbo.safe := ["Oblivion.esm"; "a.esp"];
     Turbo.tested := ["Oblivion.esm"; "a.esp"; "x.esp"; "y.esp"];
     Turbo.failed := ["x.esp"; "y.esp"];
     Turbo.remaining := [];
     Turbo.hist := [] |}.

(** Turbo mode in the middle of a batch: [a.esp] and [b.esp] are safe,
    [c.esp], [d.esp] and [e.esp] still to be classified. *)
Definition ledger_ab : tstate :=
  {| Turbo.safe := ["Oblivion.esm"; "a.esp"; "b.esp"];
     Turbo.tested := ["Oblivion.esm"; "a.esp"; "b.esp"];
     Turbo.failed := [];
     Turbo.remaining := ["c.esp"; "d.esp"; "e.esp"];
     Turbo.hist := [] |}.

End Scenarios.

(* ================================================================== *)
(** ** More observations of the game process                           *)
(* ================================================================== *)

Module OracleCases.

Import Oracle.
Local Open Scope nat_scope.

(** Only sleeps: no forced close. *)
Definition only_sleeps (l : list action) : Prop :=
  Forall (fun a => exists s, a = Sleep s) l.

(** A game that shows up at the third poll; the operator presses a key
    during the second turn of the watch loop and then types [choice]. *)
Definition obs_key (choice : pause_choice) : observations :=
  {| now := fun i => inject_Z (Z.of_nat i);
     pid_found := fun k => 2 <=? k;
     key := fun k => if k =? 1 then choice else NoKey |}.

End OracleCases.

(* ================================================================== *)
(** ** Keys of plugin names                                            *)
(* ================================================================== *)

Module Keys.

Import PyStr.

(** [p.lower().strip()]: the key under which the load orders compare
    plugin names. *)
Definition ci_key (p : string) : string := strip (lower p).

(** A name made of blanks only (the empty name included). *)
Definition blank (p : string) : bool := all_chars is_space p.

End Keys.

(* ================================================================== *)
(** ** More concrete inputs                                            *)
(* ================================================================== *)

Module MoreScenarios.

Import Engine.
Local Open Scope string_scope.
Local Open Scope list_scope.

(** A configuration that names one patch twice, in two spellings. *)
Definition cfg_mixed : config :=
  {| REQUIRED_PLUGINS := ["Oblivion.esm"];
     OPTIONAL_PATCHES := ["Patch.esp"; " patch.ESP"];
     BATCH_SIZE := 10 |}.

(** A configuration whose optional patch is in the order file as well,
    and so is a candidate: [get_patch_plugins] does not leave the
    optional patches out. *)
Definition cfg_fix : config :=
  {| REQUIRED_PLUGINS := ["Oblivion.esm"];
     OPTIONAL_PATCHES := ["fix.esp"];
     BATCH_SIZE := 10 |}.

(** A game that crashes now and then: at the first, third, fourth and
    fifth attempt. *)
Definition noisy : world :=
  Scenarios.scripted [Crashed; Passed; Crashed; Crashed; Crashed] Passed.

End MoreScenarios.

(* ================================================================== *)
(** ** Reading the record of an attempt                                *)
(* ================================================================== *)

Module Events.

Import Engine.

(** The attempt ended with [wait_and_check_crash()] returning [False]. *)
Definition is_passed (e : event) : bool :=
  match e with
  | Passed => true
  | _ => false
  end.


End Events.

(* ================================================================== *)
(** ** Reading and writing the order file                              *)
(* ================================================================== *)

Module Files.

Import PyStr Turbo.
Local Open Scope nat_scope.
Local Open Scope string_scope.
Local Open Scope list_scope.

(** A line boundary of [str.splitlines], for code points below 256:
    LF, VT, FF, CR, FS, GS, RS and NEL. *)
Definition is_break (c : ascii) : bool :=
  let n := nat_of_ascii c in
  (((10 <=? n) && (n <=? 13)) || ((28 <=? n) && (n <=? 30)) || (n =? 133))%nat.

Definition LF : ascii := "010"%char.
Definition CR : ascii := "013"%char.

(** The one-character string holding a line feed. *)
Definition NL : string := String LF EmptyString.

(** [s.splitlines()]: a boundary ends the line before it, CR LF counts
    as one boundary, and no empty line follows the last boundary. *)
Fixpoint splitlines (s : string) : list string :=
  match s with
  | EmptyString => []
  | String c s' =>
      if is_break c then
        match s' with
        | String c' s'' =>
            if Ascii.eqb c CR && Ascii.eqb c' LF
            then EmptyString :: splitlines s''
            else EmptyString :: splitlines s'
        | EmptyString => [EmptyString]
        end
      else
        match splitlines s' with
        | cur :: rest => String c cur :: rest
        | [] => [String c EmptyString]
        end
  end.

(** [sep.join(l)] *)
Definition join (sep : string) (l : list string) : string :=
  String.concat sep l.

(** [s.rstrip(ch)] for a one-character argument. *)
Fixpoint rstrip_char (ch : ascii) (s : string) : string :=
  match s with
  | EmptyString => EmptyString
  | String c s' =>
      match rstrip_char ch s' with
      | EmptyString =>
          if Ascii.eqb c ch then EmptyString else String c EmptyString
      | r => String c r
      end
  end.

(** No character of [s] is a line boundary. *)
Definition one_line (s : string) : bool :=
  all_chars (fun c => negb (is_break c)) s.

(** [def read_plugins(path)]; [None] is a file that cannot be read, for
    which the function returns the empty list. *)
Definition read_plugins (content : option string) : list string :=
  match content with
  | None => []
  | Some text =>
      map strip
          (filter (fun line => truthy (strip line)
                               && negb (startswith "#" line))
                  (splitlines text))
  end.

(** The loop of [get_total_plugins]:
    [pl = p.lower(); if pl not in seen: deduped.append(p); seen.add(pl)] *)
Fixpoint dedup_lower (seen : list string) (l : list string) : list string :=
  match l with
  | [] => []
  | p :: l' =>
      let pl := lower p in
      if negb (mem pl seen) then p :: dedup_lower (pl :: seen) l'
      else dedup_lower seen l'
  end.

(** [def get_total_plugins(plugin_path)] *)
Definition get_total_plugins (content : option string) : list string :=
  match content with
  | None => []
  | Some text =>
      dedup_lower []
        (map strip
             (filter (fun l => truthy (strip l)
                               && negb (startswith "#" (strip l)))
                     (splitlines text)))
  end.

(** The text [write_plugins_exact(plugin_list)] writes. *)
Definition write_plugins_exact (plugin_list : list string) : string :=
  (join NL plugin_list ++ NL)%string.

(** The order [enforce_exact_load_order()] hands to
    [write_plugins_exact], given what the order file holds. *)
Definition enforce_exact_load_order
    (REQUIRED_PLUGINS OPTIONAL_PATCHES : list string)
    (content : option string) : list string :=
  let ordered_required := map strip REQUIRED_PLUGINS in
  let ordered_optional := map strip OPTIONAL_PATCHES in
  let all_current := read_plugins content in
  let extra_plugins :=
    filter (fun p => negb (mem (strip (lower p))
                               (map lower (ordered_required ++ ordered_optional))))
           all_current in
  let enforced_order := ordered_required ++ ordered_optional ++ extra_plugins in
  dedupe_turbo [] enforced_order.

(** [f"#{p} #REMOVED BY OBBPD ({stamp})"] *)
Definition removed_line (stamp p : string) : string :=
  ("#" ++ p ++ " #REMOVED BY OBBPD (" ++ stamp ++ ")")%string.

(** One line per failed plugin; [stamp i] is what the [i]-th reading of
    the clock prints. *)
Fixpoint removed_lines (stamp : nat -> string) (i : nat) (failed : list string)
  : list string :=
  match failed with
  | [] => []
  | p :: rest => removed_line (stamp i) p :: removed_lines stamp (S i) rest
  end.

(** The lines of the order file turbo mode writes when its loops have
    ended: Safe, a blank line, the marker, and the failed plugins
    commented out. *)
Definition final_lines (stamp : nat -> string) (safe failed : list string)
  : list string :=
  safe ++ [EmptyString; "##REMOVED PLUGINS##"] ++ removed_lines stamp 0 failed.

(** ["\n".join(output).rstrip("\n") + "\n"] *)
Definition final_text (stamp : nat -> string) (safe failed : list string)
  : string :=
  (rstrip_char LF (join NL (final_lines stamp safe failed)) ++ NL)%string.

(** One turn of the first loop of [write_plugins], over a line of the
    backup; the accumulator holds [output_lines] and [written_plugins]. *)
Definition keep_line (all_to_write : list string)
    (acc : list string * list string) (line : string)
  : list string * list string :=
  let stripped := strip line in
  if negb (truthy stripped) then (fst acc ++ [EmptyString], snd acc)
  else if startswith "#" stripped then (fst acc ++ [line], snd acc)
  else if mem stripped all_to_write && negb (mem stripped (snd acc))
       then (fst acc ++ [stripped], stripped :: snd acc)
  else acc.

(** [if plugin not in written_plugins: output_lines.append(plugin);
     written_plugins.add(plugin)] *)
Definition append_new (acc : list string * list string) (plugin : string)
  : list string * list string :=
  if negb (mem plugin (snd acc))
  then (fst acc ++ [plugin], plugin :: snd acc)
  else acc.

(** The plugin lines of the backup:
    [[line.strip() for line in original_lines
      if line.strip() and not line.strip().startswith("#")]] *)
Definition plugin_lines (original_lines : list string) : list string :=
  map strip (filter (fun line => truthy (strip line)
                                 && negb (startswith "#" (strip line)))
                    original_lines).

(** [all_to_write] of [write_plugins]. *)
Definition all_to_write (REQUIRED_PLUGINS OPTIONAL_PATCHES : list string)
    (original_plugins current_plugins : list string) : list string :=
  let detected_required :=
    filter (fun p => mem p original_plugins || mem p current_plugins)
           REQUIRED_PLUGINS in
  let detected_optional :=
    filter (fun p => mem p original_plugins || mem p current_plugins)
           OPTIONAL_PATCHES in
  let full_required := detected_required ++ detected_optional in
  full_required ++ filter (fun p => negb (mem p full_required)) current_plugins.

(** [output_lines] of [def write_plugins(current_plugins)]; [backup] is
    the text of the backup, [None] when there is none. *)
Definition write_plugins_lines
    (REQUIRED_PLUGINS OPTIONAL_PATCHES : list string)
    (backup : option string) (current_plugins : list string) : list string :=
  let original_lines :=
    match backup with Some text => splitlines text | None => [] end in
  let original_plugins := plugin_lines original_lines in
  let detected_required :=
    filter (fun p => mem p original_plugins || mem p current_plugins)
           REQUIRED_PLUGINS in
  let detected_optional :=
    filter (fun p => mem p original_plugins || mem p current_plugins)
           OPTIONAL_PATCHES in
  let to_write :=
    all_to_write REQUIRED_PLUGINS OPTIONAL_PATCHES
                 original_plugins current_plugins in
  let required_plugins := filter (fun p => mem p detected_required) to_write in
  let optional_plugins := filter (fun p => mem p detected_optional) to_write in
  let acc := fold_left (keep_line to_write) original_lines ([], []) in
  let acc := fold_left append_new required_plugins acc in
  let acc := fold_left append_new optional_plugins acc in
  fst acc.

(** The text [write_plugins(current_plugins)] writes. *)
Definition write_plugins
    (REQUIRED_PLUGINS OPTIONAL_PATCHES : list string)
    (backup : option string) (current_plugins : list string) : string :=
  (join NL (write_plugins_lines REQUIRED_PLUGINS OPTIONAL_PATCHES
                                backup current_plugins) ++ NL)%string.

End Files.

(* ================================================================== *)
(** ** Choosing the candidates: [isolate_esps]                         *)
(* ================================================================== *)

Module Selection.

Import PyStr.
Local Open Scope nat_scope.
Local Open Scope string_scope.
Local Open Scope list_scope.

(** [sub in s] on strings. *)
Fixpoint contains (sub s : string) : bool :=
  String.prefix sub s
  || match s with
     | EmptyString => false
     | String _ s' => contains sub s'
     end.

(** [s.endswith(suffix)] *)
Fixpoint endswith (suffix s : string) : bool :=
  String.eqb suffix s
  || match s with
     | EmptyString => false
     | String _ s' => endswith suffix s'
     end.

Definition PATCH_KEYWORDS : list string := ["patch"; "fix"; "compat"; "merge"].

(** [any(k in p.lower() for k in PATCH_KEYWORDS)] *)
Definition has_keyword (p : string) : bool :=
  existsb (fun k => contains k (lower p)) PATCH_KEYWORDS.

(** [def filter_plugins(all_plugins, skip_keywords=True)] *)
Definition filter_plugins (REQUIRED_PLUGINS : list string)
    (all_plugins : list string) (skip_keywords : bool) : list string :=
  filter (fun p => endswith ".esp" p
                   && negb (mem p REQUIRED_PLUGINS)
                   && (negb skip_keywords || negb (has_keyword p)))
         all_plugins.

(** [def get_patch_plugins(all_plugins)] *)
Definition get_patch_plugins (all_plugins : list string) : list string :=
  filter has_keyword all_plugins.

(** [list(dict.fromkeys(l))]: the first occurrence of each entry. *)
Fixpoint fromkeys (seen : list string) (l : list string) : list string :=
  match l with
  | [] => []
  | p :: l' =>
      if mem p seen then fromkeys seen l' else p :: fromkeys (p :: seen) l'
  end.

(** The local [dedup] of [isolate_esps]:
    [k = p.lower().strip(); if k not in seen: seen.add(k); res.append(p)] *)
Fixpoint dedup (seen : list string) (lst : list string) : list string :=
  match lst with
  | [] => []
  | p :: l' =>
      let k := strip (lower p) in
      if negb (mem k seen) then p :: dedup (k :: seen) l'
      else dedup seen l'
  end.

(** [p.lower().endswith((".esp", ".esm"))] *)
Definition is_plugin_file (p : string) : bool :=
  endswith ".esp" (lower p) || endswith ".esm" (lower p).

(** The candidates [isolate_esps] derives from the plugins it read and
    the three lists: [to_test] and [patch_plugins], in this order. *)
Definition candidates (REQUIRED_PLUGINS : list string)
    (read : list string) (safe tested failed : list string)
  : list string * list string :=
  let all_plugins :=
    fromkeys [] (map strip (filter (fun p => truthy (strip p)) read)) in
  let all_esp := filter is_plugin_file all_plugins in
  let patch_plugins := get_patch_plugins all_esp in
  let other_plugins := filter_plugins REQUIRED_PLUGINS all_esp true in
  let tested_lower := map lower (tested ++ safe ++ failed) in
  let patch_plugins :=
    filter (fun p => negb (mem (lower p) tested_lower)) patch_plugins in
  let to_test :=
    filter (fun p => negb (mem (lower p) tested_lower)) other_plugins in
  let to_test := dedup [] (filter (fun p => negb (mem p safe)) to_test) in
  let patch_plugins :=
    dedup [] (filter (fun p => negb (mem p safe)) patch_plugins) in
  (to_test, patch_plugins).

End Selection.

(* ================================================================== *)
(** ** The batches of normal mode                                      *)
(* ================================================================== *)

Module Driver.

Import PyStr Engine.
Local Open Scope nat_scope.
Local Open Scope list_scope.

(** [def chunk(data, size)]:
    [[data[i:i+size] for i in range(0, len(data), size)]].
    [range] raises [ValueError] for a zero step ([None]) and is empty for
    a negative one. *)
Definition chunk (data : list string) (size : Z) : option (list (list string)) :=
  if (size =? 0)%Z then None
  else if (size <? 0)%Z then Some []
  else Some (sub_batches (Z.to_nat size) data).

Section WithWorld.

Variable cfg : config.
Variable w : world.

(** How the testing block of [isolate_esps] ends in normal mode. *)
Inductive ended : Type :=
| Done (st : state)                (* every batch was run *)
| Failure (st : state)             (* [except Exception]: "Testing failed" *)
| Left (st : state).               (* the process exited *)

(** [for idx, batch in enumerate(chunk(...), 1):
       run_batch(batch, safe, tested, failed, total_plugins_list)
       if SHOW_LOAD_ORDER_PER_BATCH:
           print_plugins_state(idx, str(PLUGIN_FILE))]
    The script defines no [print_plugins_state]: with the flag on, the
    call raises [NameError] after the first batch, and the [except
    Exception] of the block takes over. *)
Fixpoint run_batches (SHOW_LOAD_ORDER_PER_BATCH : bool) (fuel : nat)
    (batches : list (list string)) (st : state) : option ended :=
  match batches with
  | [] => Some (Done st)
  | batch :: rest =>
      match run_batch cfg w fuel batch st with
      | None => None
      | Some (Quit st1) => Some (Left st1)
      | Some (Finished st1) =>
          if SHOW_LOAD_ORDER_PER_BATCH then Some (Failure st1)
          else run_batches SHOW_LOAD_ORDER_PER_BATCH fuel rest st1
      end
  end.

(** The testing block of [isolate_esps] in normal mode:
    [safe.extend(sanity_plugins); tested.extend(sanity_plugins)], the two
    filters, [if SHOW_LOAD_ORDER_PER_BATCH: launch_debug_console()], and
    the two loops over [chunk(..., BATCH_SIZE)].  The script defines no
    [launch_debug_console] either: with the flag on, the block ends in
    its [except Exception] branch before the first batch. *)
Definition normal_mode (SHOW_LOAD_ORDER_PER_BATCH : bool) (fuel : nat)
    (sanity_plugins to_test patch_plugins : list string) (st : state)
  : option ended :=
  let st := extend_safe sanity_plugins st in
  let to_test := filter (fun p => negb (mem p (safe st))) to_test in
  let patch_plugins := filter (fun p => negb (mem p (safe st))) patch_plugins in
  if SHOW_LOAD_ORDER_PER_BATCH then Some (Failure st)
  else
    match chunk to_test (BATCH_SIZE cfg) with
    | None => Some (Failure st)
    | Some batches =>
        match run_batches SHOW_LOAD_ORDER_PER_BATCH fuel batches st with
        | Some (Done st1) =>
            match chunk patch_plugins (BATCH_SIZE cfg) with
            | None => Some (Failure st1)
            | Some batches2 =>
                run_batches SHOW_LOAD_ORDER_PER_BATCH fuel batches2 st1
            end
        | other => other
        end
    end.

End WithWorld.

End Driver.

(* ================================================================== *)
(** ** Concrete files                                                  *)
(* ================================================================== *)

Module FileScenarios.

Import Files.
Local Open Scope string_scope.

(** A clock that always prints the same time. *)
Definition stamp0 : nat -> string := fun _ => "2025-01-01 10:00:00".

(** A backup of the order file: a comment, two plugins around a blank
    line and the master file. *)
Definition backup_small : string :=
  "# c" ++ NL ++ "a.esp" ++ NL ++ NL ++ "Oblivion.esm" ++ NL ++ "b.esp" ++ NL.

End FileScenarios.

Module SelectionScenarios.

Local Open Scope string_scope.
Local Open Scope list_scope.

(** What was read from an order file that names one plugin in two
    spellings, one with an upper-case extension and one patch. *)
Definition read_mixed : list string :=
  ["Oblivion.esm"; "a.esp"; "A.esp"; "b.ESP"; "My Patch.esp"].

(** An order file that names the first default optional patch. *)
Definition read_patched : list string :=
  ["Oblivion.esm"; "Unofficial Oblivion Remastered Patch.esp"; "a.esp"].

End SelectionScenarios.

(* ================================================================== *)
(** ** How the ledger may change                                       *)
(* ================================================================== *)

Module Growth.

Import Engine.
Local Open Scope list_scope.

(** [st'] is [st] with names of [B] appended to its lists and attempts
    added to its history: nothing removed, nothing reordered. *)
Definition extends (B : list string) (st st' : state) : Prop :=
  (exists sa, safe st' = safe st ++ sa /\ incl sa B)
  /\ (exists ta, tested st' = tested st ++ ta /\ incl ta B)
  /\ (exists fa, failed st' = failed st ++ fa /\ incl fa B)
  /\ (exists h, hist st' = h ++ hist st).

(** Every plugin of [B] is booked as Safe or as Failed. *)
Definition classified_all (B : list string) (st : state) : Prop :=
  forall p, In p B -> In p (safe st) \/ In p (failed st).

End Growth.

Module BatchScenarios.

Import Engine.
Local Open Scope string_scope.
Local Open Scope list_scope.

(** Configurations whose batch size is zero and negative. *)
Definition cfg_zero : config :=
  {| REQUIRED_PLUGINS := ["Oblivion.esm"]; OPTIONAL_PATCHES := [];
     BATCH_SIZE := 0 |}.

Definition cfg_negative : config :=
  {| REQUIRED_PLUGINS := ["Oblivion.esm"]; OPTIONAL_PATCHES := [];
     BATCH_SIZE := -3 |}.

End BatchScenarios.

(* ================================================================== *)
(** ** Where the lists of a turbo run may draw from                    *)
(* ================================================================== *)

Module TurboBounds.

Import Engine Turbo.
Local Open Scope list_scope.

(** Failed and what remains hold candidates only; Safe and Tested hold
    only candidates and the plugins [given] at the start. *)
Definition within (cands given : list string) (st : tstate) : Prop :=
  incl (failed st) cands
  /\ incl (remaining st) cands
  /\ incl (safe st) (given ++ cands)
  /\ incl (tested st) (given ++ cands).

End TurboBounds.

(* ================================================================== *)
(** * Part II: properties                                             *)
(* ================================================================== *)

(** ** Facts about the string primitives *)

Module PyStrFacts.

Import PyStr.
Local Open Scope string_scope.
Local Open Scope nat_scope.

Lemma mem_In x l : mem x l = true <-> In x l.
Proof.
  unfold mem. rewrite existsb_exists. split.
  - intros [y [Hy He]]. apply String.eqb_eq in He. now subst.
  - intros H. exists x. split; [assumption | apply String.eqb_refl].
Qed.

Lemma mem_false x l : mem x l = false <-> ~ In x l.
Proof.
  rewrite <- mem_In. destruct (mem x l); split; congruence.
Qed.

Lemma lstrip_empty s : lstrip s = "" <-> all_chars is_space s = true.
Proof.
  induction s as [|c s IH]; simpl.
  - tauto.
  - destruct (is_space c); simpl; [exact IH | split; discriminate].
Qed.

Lemma rstrip_empty s : rstrip s = "" <-> all_chars is_space s = true.
Proof.
  induction s as [|c s IH]; simpl.
  - tauto.
  - destruct (rstrip s) eqn:E.
    + destruct (is_space c); simpl.
      * split; intros _; [now apply IH | reflexivity].
      * split; discriminate.
    + split; [discriminate|].
      intros H. apply andb_true_iff in H as [_ H].
      apply IH in H. discriminate.
Qed.

Lemma lstrip_spaces s :
  all_chars is_space s = true -> all_chars is_space (lstrip s) = true.
Proof. intros H. apply lstrip_empty in H. now rewrite H. Qed.

Lemma all_chars_lstrip f s :
  all_chars f s = true -> all_chars f (lstrip s) = true.
Proof.
  induction s as [|c s IH]; simpl; [trivial|].
  intros H. destruct (is_space c).
  - apply andb_true_iff in H as [_ H]. now apply IH.
  - exact H.
Qed.

Lemma lstrip_not_all_space s :
  all_chars is_space s = false -> all_chars is_space (lstrip s) = false.
Proof.
  induction s as [|c s IH]; simpl; [trivial|].
  destruct (is_space c) eqn:E; simpl.
  - exact IH.
  - intros _. now rewrite E.
Qed.

(** [strip] yields the empty string exactly on all-whitespace strings. *)
Lemma strip_empty s : strip s = "" <-> all_chars is_space s = true.
Proof.
  unfold strip. rewrite rstrip_empty. split.
  - intros H. destruct (all_chars is_space s) eqn:E; [reflexivity|].
    apply lstrip_not_all_space in E. congruence.
  - apply all_chars_lstrip.
Qed.

Lemma truthy_false s : truthy s = false <-> s = "".
Proof. destruct s; simpl; split; congruence. Qed.

(** The first character of a left-stripped string is not whitespace. *)
Lemma lstrip_idem s : lstrip (lstrip s) = lstrip s.
Proof.
  induction s as [|c s IH]; simpl; [reflexivity|].
  destruct (is_space c) eqn:E; [exact IH|]. simpl. now rewrite E.
Qed.

Lemma rstrip_idem s : rstrip (rstrip s) = rstrip s.
Proof.
  induction s as [|c s IH]; simpl; [reflexivity|].
  destruct (rstrip s) as [|d r] eqn:E.
  - destruct (is_space c) eqn:Ec; simpl; [reflexivity|]. now rewrite Ec.
  - simpl in IH |- *. destruct r as [|e r'].
    + destruct (is_space d) eqn:Ed; [discriminate|]. reflexivity.
    + destruct (rstrip (String e r')) eqn:E2.
      * destruct (is_space d); discriminate.
      * now rewrite IH.
Qed.

(** Stripping on the right keeps a non-blank first character in place. *)
Lemma rstrip_head c s :
  is_space c = false -> exists r, rstrip (String c s) = String c r.
Proof.
  intros H. simpl. destruct (rstrip s).
  - rewrite H. now exists "".
  - now eexists.
Qed.

Lemma lstrip_rstrip_lstrip s : lstrip (rstrip (lstrip s)) = rstrip (lstrip s).
Proof.
  destruct (lstrip s) as [|c r] eqn:E; [reflexivity|].
  assert (Hc : is_space c = false).
  { pose proof (lstrip_idem s) as H. rewrite E in H. simpl in H.
    destruct (is_space c) eqn:Ec; [|reflexivity].
    exfalso. assert (L : String.length (lstrip r) <= String.length r).
    { clear. induction r as [|d r IH]; simpl; [lia|].
      destruct (is_space d); simpl; lia. }
    rewrite H in L. simpl in L. lia. }
  destruct (rstrip_head c r Hc) as [r' Hr]. rewrite Hr. simpl. now rewrite Hc.
Qed.

(** [strip] is idempotent: a stripped entry has no surrounding blanks. *)
Lemma strip_idem s : strip (strip s) = strip s.
Proof.
  unfold strip. rewrite lstrip_rstrip_lstrip. apply rstrip_idem.
Qed.

End PyStrFacts.

(** ** Facts about the configured plugin lists *)

Module ConfigFacts.

Import PyStr PyStrFacts Config.
Local Open Scope string_scope.


Lemma comma_not_space : is_space "," = false.
Proof. reflexivity. Qed.







(** A piece that holds no comma. *)
Local Abbreviation comma_free :=
  (fun p : string => all_chars (fun c => negb (Ascii.eqb c ",")) p).







(** A configured value seen in practice, and a blank one. *)
Example parse_plugin_list_sample :
  parse_plugin_list " Oblivion.esm , ,Knights.esp,," = ["Oblivion.esm"; "Knights.esp"]
  /\ REQUIRED_PLUGINS " , ,, " = DEFAULT_REQUIRED.
Proof. split; reflexivity. Qed.


End ConfigFacts.

(** ** The process oracle *)

Module OracleFacts.

Import Oracle Scenarios.
Local Open Scope nat_scope.

Lemma Qltb_lt (x y : Q) : Qltb x y = true <-> (x < y)%Q.
Proof.
  unfold Qltb. rewrite negb_true_iff. split.
  - intros H. apply Qnot_le_lt. intros L.
    apply Qle_bool_iff in L. congruence.
  - intros H. destruct (Qle_bool y x) eqn:E; [|reflexivity].
    apply Qle_bool_iff in E. exfalso. now apply (Qlt_not_le x y).
Qed.

Lemma Qltb_nlt (x y : Q) : Qltb x y = false <-> ~ (x < y)%Q.
Proof.
  rewrite <- Qltb_lt. destruct (Qltb x y); split; congruence.
Qed.

(** The grace loop when the process is never found: all [n] polls are
    spent, with a 0.1 s sleep after each. *)
Lemma grace_never (obs : observations) (n : nat) (st : ostate) :
  (forall k, k < n -> pid_found obs (polls st + k) = false) ->
  grace obs n st =
    (false, {| reads := reads st; polls := polls st + n; checks := checks st;
               log := repeat (Sleep (1 # 10)) n ++ log st |}).
Proof.
  revert st. induction n as [|n IH]; intros st H; simpl.
  - rewrite Nat.add_0_r. now destruct st.
  - rewrite <- (Nat.add_0_r (polls st)) at 1. rewrite (H 0) by lia.
    rewrite IH; simpl.
    + f_equal. f_equal; [lia|].
      change (Sleep (1 # 10) :: log st) with ([Sleep (1 # 10)] ++ log st).
      rewrite app_assoc. f_equal.
      change [Sleep (1 # 10)] with (repeat (Sleep (1 # 10)) 1).
      rewrite <- repeat_app. now rewrite Nat.add_1_r.
    + intros k Hk. simpl. rewrite <- Nat.add_succ_r. apply H. lia.
Qed.

(** The grace loop when poll [j] is the first to find the process. *)
Lemma grace_found (obs : observations) (n j : nat) (st : ostate) :
  j < n ->
  (forall k, k < j -> pid_found obs (polls st + k) = false) ->
  pid_found obs (polls st + j) = true ->
  grace obs n st =
    (true, {| reads := reads st; polls := polls st + j + 1; checks := checks st;
              log := repeat (Sleep (1 # 10)) j ++ log st |}).
Proof.
  revert j st. induction n as [|n IH]; intros j st Hj Hno Hyes; [lia|].
  simpl. destruct j as [|j].
  - rewrite Nat.add_0_r in Hyes. rewrite Hyes. simpl.
    f_equal. f_equal. lia.
  - rewrite <- (Nat.add_0_r (polls st)) at 1. rewrite (Hno 0) by lia.
    rewrite (IH j); simpl.
    + f_equal. f_equal; [lia|].
      change (Sleep (1 # 10) :: log st) with ([Sleep (1 # 10)] ++ log st).
      rewrite app_assoc. f_equal.
      change [Sleep (1 # 10)] with (repeat (Sleep (1 # 10)) 1).
      rewrite <- repeat_app. now rewrite Nat.add_1_r.
    + lia.
    + intros k Hk. simpl. rewrite <- Nat.add_succ_r. apply Hno. lia.
    + simpl. rewrite <- Nat.add_succ_r. exact Hyes.
Qed.

Lemma watch_quiet (fuel : nat) (W : Z) (turbo : bool) (obs : observations)
    (start : Q) (n : nat) (st : ostate) :
  quiet W obs start st n ->
  watch (n + fuel) W turbo obs start st
  = watch fuel W turbo obs start (after_quiet turbo st n).
Proof.
  revert st. induction n as [|n IH]; intros st Hq.
  - simpl. unfold after_quiet. simpl. rewrite !Nat.add_0_r. now destruct st.
  - destruct (Hq 0 ltac:(lia)) as (Ht & Hk & Hp).
    rewrite Nat.add_0_r in Ht, Hk, Hp.
    change (S n + fuel) with (S (n + fuel)). cbn [watch].
    unfold read_clock, check_for_manual_pause, get_game_pid. cbn [reads checks polls].
    apply Qltb_lt in Ht. rewrite Ht, Hk, Hp. cbn [negb].
    rewrite IH.
    + f_equal. unfold after_quiet, act. cbn [reads polls checks log].
      f_equal; try lia.
      change (Sleep (poll_interval turbo) :: log st)
        with ([Sleep (poll_interval turbo)] ++ log st).
      rewrite app_assoc. f_equal.
      change [Sleep (poll_interval turbo)]
        with (repeat (Sleep (poll_interval turbo)) 1).
      rewrite <- repeat_app. now rewrite Nat.add_1_r.
    + intros i Hi. unfold act. cbn [reads polls checks].
      destruct (Hq (S i) ltac:(lia)) as (Ht' & Hk' & Hp').
      replace (S (reads st) + i) with (reads st + S i) by lia.
      replace (S (checks st) + i) with (checks st + S i) by lia.
      replace (S (polls st) + i) with (polls st + S i) by lia.
      auto.
Qed.

Lemma slept_repeat (q : Q) (n : nat) (l : list action) :
  (slept (repeat (Sleep q) n ++ l) == inject_Z (Z.of_nat n) * q + slept l)%Q.
Proof.
  induction n as [|n IH].
  - simpl. ring.
  - cbn [repeat app slept]. rewrite IH. rewrite Nat2Z.inj_succ.
    unfold Z.succ. rewrite inject_Z_plus. ring.
Qed.

(** C8.  The oracle polls for the process up to 30 times, 0.1 s apart
    (a 3-second grace window), and answers Crashed when it never shows up.
    Once the process has shown up: if every poll until the clock passes
    [WAIT_SECONDS] still finds it (and no key is pressed), the oracle
    force-closes the game and answers Passed; if a poll made before that
    deadline no longer finds it, the oracle answers Crashed. *)
Theorem wait_and_check_crash_classifies
    (fuel : nat) (WAIT_SECONDS : Z) (TURBO_MODE : bool) (obs : observations) :
  ((forall k, k < 30 -> pid_found obs k = false) ->
   exists st,
     wait_and_check_crash fuel WAIT_SECONDS TURBO_MODE obs
       = Some (Returned true, st)
     /\ log st = ForceClose :: repeat (Sleep (1 # 10)) 30
     /\ (slept (log st) == 3)%Q)
  /\
  (forall j n,
     j < 30 ->
     (forall k, k < j -> pid_found obs k = false) ->
     pid_found obs j = true ->
     (forall i, i < n ->
        (now obs (1 + i) - now obs 0 < inject_Z WAIT_SECONDS)%Q
        /\ key obs i = NoKey
        /\ pid_found obs (j + 1 + i) = true) ->
     n < fuel ->
     (~ (now obs (1 + n) - now obs 0 < inject_Z WAIT_SECONDS)%Q ->
      exists st,
        wait_and_check_crash fuel WAIT_SECONDS TURBO_MODE obs
          = Some (Returned false, st)
        /\ log st = ForceClose :: repeat (Sleep (poll_interval TURBO_MODE)) n
                               ++ repeat (Sleep (1 # 10)) j)
     /\
     ((now obs (1 + n) - now obs 0 < inject_Z WAIT_SECONDS)%Q ->
      key obs n = NoKey ->
      pid_found obs (j + 1 + n) = false ->
      exists st,
        wait_and_check_crash fuel WAIT_SECONDS TURBO_MODE obs
          = Some (Returned true, st)
        /\ log st = ForceClose :: repeat (Sleep (poll_interval TURBO_MODE)) n
                               ++ repeat (Sleep (1 # 10)) j)).
Proof.
  split.
  - intros Hnever. unfold wait_and_check_crash, read_clock. cbn [reads polls checks log ostate0].
    rewrite grace_never by (cbn [polls]; exact Hnever).
    eexists. split; [reflexivity|]. cbn [act log reads polls checks].
    rewrite app_nil_r. split; [reflexivity|].
    cbn [slept].
    rewrite <- (app_nil_r (repeat (Sleep (1 # 10)) 30)).
    rewrite slept_repeat. reflexivity.
  - intros j n Hj Hno Hyes Hq Hfuel.
    assert (Hstart :
      wait_and_check_crash fuel WAIT_SECONDS TURBO_MODE obs
      = watch (fuel - n) WAIT_SECONDS TURBO_MODE obs (now obs 0)
          (after_quiet TURBO_MODE
             {| reads := 1; polls := j + 1; checks := 0;
                log := repeat (Sleep (1 # 10)) j |} n)).
    { unfold wait_and_check_crash, read_clock. cbn [reads polls checks log ostate0].
      rewrite (grace_found obs 30 j) by (cbn [polls]; auto).
      cbn [reads polls checks log]. rewrite app_nil_r. cbn [Nat.add].
      replace fuel with (n + (fuel - n)) at 1 by lia.
      apply watch_quiet. intros i Hi. cbn [reads polls checks].
      destruct (Hq i Hi) as (A & B & C). auto. }
    rewrite Hstart. destruct (fuel - n) as [|f] eqn:Ef; [lia|].
    cbn [watch]. unfold read_clock, after_quiet. cbn [reads polls checks log].
    split.
    + intros Hlate. apply Qltb_nlt in Hlate. rewrite Hlate.
      eexists. split; reflexivity.
    + intros Hearly Hkey Hgone. apply Qltb_lt in Hearly. rewrite Hearly.
      unfold check_for_manual_pause, get_game_pid. cbn [reads polls checks log].
      change (0 + n) with n. rewrite Hkey, Hgone. cbn [negb].
      eexists. split; reflexivity.
Qed.

Lemma wait_and_check_crash_classifies_witness :
  (exists st, wait_and_check_crash 0 11 false obs_never = Some (Returned true, st)
              /\ (slept (log st) == 3)%Q)
  /\ (exists st, wait_and_check_crash 20 11 false obs_alive
                 = Some (Returned false, st)
                 /\ log st = ForceClose :: repeat (Sleep (1 # 4)) 10
                                        ++ repeat (Sleep (1 # 10)) 2)
  /\ (exists st, wait_and_check_crash 20 11 false obs_gone
                 = Some (Returned true, st)
                 /\ log st = ForceClose :: repeat (Sleep (1 # 4)) 1
                                        ++ repeat (Sleep (1 # 10)) 2).
Proof.
  split; [|split].
  - destruct (wait_and_check_crash_classifies 0 11 false obs_never) as [A _].
    destruct A as [st [E [_ S]]]; [reflexivity|].
    exists st. split; assumption.
  - destruct (wait_and_check_crash_classifies 20 11 false obs_alive) as [_ B].
    destruct (B 2 10) as [P _].
    + lia.
    + intros k Hk. destruct k as [|[|k]]; [reflexivity | reflexivity | lia].
    + reflexivity.
    + intros i Hi. split; [|split; [reflexivity|reflexivity]].
      do 10 (destruct i as [|i]; [vm_compute; reflexivity|]). lia.
    + lia.
    + apply P. vm_compute. discriminate.
  - destruct (wait_and_check_crash_classifies 20 11 false obs_gone) as [_ B].
    destruct (B 2 1) as [_ C].
    + lia.
    + intros k Hk. destruct k as [|[|k]]; [reflexivity | reflexivity | lia].
    + reflexivity.
    + intros i Hi. split; [|split; [reflexivity|]].
      * destruct i as [|i]; [vm_compute; reflexivity | lia].
      * destruct i as [|i]; [reflexivity | lia].
    + lia.
    + apply C; [vm_compute; reflexivity | reflexivity | reflexivity].
Defined.

End OracleFacts.

(** ** Slicing a batch into sub-batches *)

Module ChunkFacts.

Import Engine.
Local Open Scope nat_scope.
Local Open Scope list_scope.

Lemma firstn_plus {A : Type} (a b : nat) (l : list A) :
  firstn (a + b) l = firstn a l ++ firstn b (skipn a l).
Proof.
  revert l. induction a as [|a IH]; intros l; simpl; [reflexivity|].
  destruct l as [|x l]; simpl.
  - now rewrite firstn_nil.
  - now rewrite IH.
Qed.

Lemma py_slice_step {A : Type} (i n : nat) (l : list A) :
  py_slice i (i + n) l = firstn n (skipn i l).
Proof. unfold py_slice. now replace (i + n - i) with n by lia. Qed.

Lemma sub_batches_unfold (n : nat) (batch : list string) :
  sub_batches n batch
  = map (fun k => firstn n (skipn (k * n) batch))
        (seq 0 ((List.length batch + n - 1) / n)).
Proof.
  unfold sub_batches, range_step. rewrite map_map.
  apply map_ext. intros k. apply py_slice_step.
Qed.

Lemma concat_slices {A : Type} (n K : nat) (l : list A) :
  List.concat (map (fun k => firstn n (skipn (k * n) l)) (seq 0 K))
  = firstn (K * n) l.
Proof.
  induction K as [|K IH]; [reflexivity|].
  rewrite seq_S, map_app, List.concat_app, IH. simpl.
  rewrite app_nil_r. replace (n + K * n) with (K * n + n) by lia.
  now rewrite firstn_plus.
Qed.

Lemma chunks_cover (len n : nat) : 0 < n -> len <= (len + n - 1) / n * n.
Proof.
  intros Hn.
  pose proof (Nat.div_mod_eq (len + n - 1) n) as E.
  pose proof (Nat.mod_upper_bound (len + n - 1) n ltac:(lia)) as B.
  nia.
Qed.

Lemma chunks_start (len n k : nat) :
  0 < n -> k < (len + n - 1) / n -> k * n < len.
Proof.
  intros Hn Hk.
  pose proof (Nat.div_mod_eq (len + n - 1) n) as E.
  pose proof (Nat.mod_upper_bound (len + n - 1) n ltac:(lia)) as B.
  nia.
Qed.

(** The sub-batches are consecutive: glued together they give the batch. *)
Lemma concat_sub_batches (n : nat) (batch : list string) :
  0 < n -> List.concat (sub_batches n batch) = batch.
Proof.
  intros Hn. rewrite sub_batches_unfold, concat_slices.
  apply firstn_all2. now apply chunks_cover.
Qed.

(** No sub-batch is empty and none is longer than the sub-batch size. *)
Lemma sub_batches_lengths (n : nat) (batch : list string) :
  0 < n ->
  Forall (fun sub => 1 <= List.length sub <= n) (sub_batches n batch).
Proof.
  intros Hn. rewrite sub_batches_unfold. apply Forall_forall.
  intros sub Hin. apply in_map_iff in Hin as [k [<- Hk]].
  apply in_seq in Hk.
  assert (k * n < List.length batch) by (apply chunks_start; lia).
  rewrite length_firstn, length_skipn. lia.
Qed.

Lemma get_batch_size_pos (size : Z) : (1 <= get_batch_size size <= 25)%Z.
Proof.
  unfold get_batch_size.
  repeat match goal with
         | |- context [if ?c then _ else _] => destruct c
         end; lia.
Qed.

Lemma sub_size_of_pos (batch : list string) : 0 < sub_size_of batch.
Proof.
  unfold sub_size_of. pose proof (get_batch_size_pos (Z.of_nat (List.length batch))).
  lia.
Qed.

End ChunkFacts.

(** ** The isolation engine *)

Module EngineFacts.

Import PyStr PyStrFacts Engine ChunkFacts Scenarios.
Local Open Scope nat_scope.
Local Open Scope list_scope.

Lemma add_new_In (x y : string) (l : list string) :
  In y (add_new x l) <-> In y l \/ y = x.
Proof.
  unfold add_new. destruct (mem x l) eqn:E.
  - apply mem_In in E. split; [auto | intros [H | ->]; assumption].
  - rewrite in_app_iff. simpl. split; intros [H | H]; auto.
    + destruct H as [H | []]; auto.
Qed.

Lemma add_new_incl (x : string) (l : list string) : incl l (add_new x l).
Proof. intros y Hy. apply add_new_In. now left. Qed.

Lemma add_new_NoDup (x : string) (l : list string) :
  NoDup l -> NoDup (add_new x l).
Proof.
  intros H. unfold add_new. destruct (mem x l) eqn:E; [assumption|].
  apply mem_false in E. apply NoDup_app; [assumption | | ].
  - constructor; [intros [] | constructor].
  - intros y Hy [<- | []]. contradiction.
Qed.

Lemma NoDup_app_inv {A : Type} (l1 l2 : list A) :
  NoDup (l1 ++ l2) ->
  NoDup l1 /\ NoDup l2 /\ (forall a, In a l1 -> ~ In a l2).
Proof.
  induction l1 as [|x l1 IH]; simpl; intros H.
  - repeat split; [constructor | assumption | intros a []].
  - inversion H as [|y l Hx Hn]; subst.
    destruct (IH Hn) as (A1 & A2 & A3).
    repeat split; [constructor | assumption |].
    + intros Hi. apply Hx. apply in_or_app. now left.
    + assumption.
    + intros a [<- | Ha] Hi; [apply Hx; apply in_or_app; now right|].
      now apply (A3 a).
Qed.

Section WithWorld.

Variable cfg : config.
Variable w : world.

Local Abbreviation load_order := (load_order cfg).
Local Abbreviation single_loop := (single_loop cfg w).
Local Abbreviation sub_loop := (sub_loop cfg w).
Local Abbreviation run_batch := (run_batch cfg w).
Local Abbreviation next_trial := (next_trial cfg w).

(** With a world that always classifies, the single-plugin loop tries
    every element of the sub-batch once, alone and in order, against the
    baseline re-derived from the Safe list of that moment, and books it as
    Safe or Failed. *)
Lemma single_loop_one_by_one (sub : list string) (st : state) :
  classifying w ->
  exists st2 new,
    single_loop sub st = Finished st2
    /\ hist st2 = new ++ hist st
    /\ map t_part (rev new) = map (fun p => [p]) sub
    /\ Forall (fun t => exists sf, incl (safe st) sf
                                   /\ t_order t = load_order sf (t_part t)) new
    /\ incl (safe st) (safe st2)
    /\ incl (failed st) (failed st2)
    /\ (forall p, In p sub -> In p (safe st2) \/ In p (failed st2)).
Proof.
  intros Hw. revert st.
  induction sub as [|p rest IH]; intros st.
  - exists st, []. simpl. repeat split; auto using incl_refl.
    intros p [].
  - cbn [Engine.single_loop attempt].
    destruct (Hw (hist st) (load_order (safe st) [p])) as [E | [E | E]];
      rewrite E;
      match goal with
      | |- context [set_hist (?x :: hist st) st] => set (t := x)
      end.
    + destruct (IH (mark_safe p (set_hist (t :: hist st) st)))
        as (st2 & new & R & Hh & Hp & Ho & Is & If & Hc).
      exists st2, (new ++ [t]).
      split; [exact R|].
      cbn [mark_safe set_hist hist safe failed] in *.
      split; [now rewrite Hh, <- app_assoc|].
      split; [rewrite rev_app_distr; simpl; now rewrite Hp|].
      split.
      { apply Forall_app. split.
        - eapply Forall_impl; [|exact Ho]. intros a (sf & I1 & I2).
          exists sf. split; [|assumption].
          eapply incl_tran; [apply add_new_incl | exact I1].
        - constructor; [|constructor]. exists (safe st).
          split; [apply incl_refl | reflexivity]. }
      split; [eapply incl_tran; [apply add_new_incl | exact Is]|].
      split; [assumption|].
      intros q [<- | Hq]; [|now apply Hc].
      left. apply Is. apply add_new_In. now right.
    + destruct (IH (mark_failed p (set_hist (t :: hist st) st)))
        as (st2 & new & R & Hh & Hp & Ho & Is & If & Hc).
      exists st2, (new ++ [t]).
      split; [exact R|].
      cbn [mark_failed set_hist hist safe failed] in *.
      split; [now rewrite Hh, <- app_assoc|].
      split; [rewrite rev_app_distr; simpl; now rewrite Hp|].
      split.
      { apply Forall_app. split; [exact Ho|].
        constructor; [|constructor]. exists (safe st).
        split; [apply incl_refl | reflexivity]. }
      split; [assumption|].
      split; [eapply incl_tran; [apply add_new_incl | exact If]|].
      intros q [<- | Hq]; [|now apply Hc].
      right. apply If. apply add_new_In. now right.
    + destruct (IH (mark_failed p (set_hist (t :: hist st) st)))
        as (st2 & new & R & Hh & Hp & Ho & Is & If & Hc).
      exists st2, (new ++ [t]).
      split; [exact R|].
      cbn [mark_failed set_hist hist safe failed] in *.
      split; [now rewrite Hh, <- app_assoc|].
      split; [rewrite rev_app_distr; simpl; now rewrite Hp|].
      split.
      { apply Forall_app. split; [exact Ho|].
        constructor; [|constructor]. exists (safe st).
        split; [apply incl_refl | reflexivity]. }
      split; [assumption|].
      split; [eapply incl_tran; [apply add_new_incl | exact If]|].
      intros q [<- | Hq]; [|now apply Hc].
      right. apply If. apply add_new_In. now right.
Qed.

(** Whatever the world does, the single-plugin loop only tries plugins of
    the sub-batch, alone, in order and each at most once, each against
    the baseline re-derived from the Safe list of that moment; it may stop
    early, after the first [k] of them. *)
Lemma single_loop_singletons (sub : list string) (st : state) :
  exists new k,
    hist (Turbo.flow_state (single_loop sub st)) = new ++ hist st
    /\ map t_part (rev new) = map (fun p => [p]) (firstn k sub)
    /\ Forall (fun t => exists sf, incl (safe st) sf
                                   /\ t_order t = load_order sf (t_part t)) new.
Proof.
  revert st. induction sub as [|p rest IH]; intros st.
  - exists [], 0. simpl. auto.
  - cbn [Engine.single_loop attempt].
    set (t := {| t_part := [p]; t_order := load_order (safe st) [p];
                 t_event := oracle w (hist st) (load_order (safe st) [p]) |}).
    assert (Ht : exists sf, incl (safe st) sf
                            /\ t_order t = load_order sf (t_part t)).
    { exists (safe st). split; [apply incl_refl | reflexivity]. }
    assert (Hstop : exists new k,
               t :: hist st = new ++ hist st
               /\ map t_part (rev new) = map (fun q => [q]) (firstn k (p :: rest))
               /\ Forall (fun t => exists sf, incl (safe st) sf
                                   /\ t_order t = load_order sf (t_part t)) new).
    { exists [t], 1. simpl. split; [reflexivity|]. split; [reflexivity|].
      now constructor. }
    assert (Hgo : forall s,
               hist s = t :: hist st -> incl (safe st) (safe s) ->
               exists new k,
                 hist (Turbo.flow_state (single_loop rest s)) = new ++ hist st
                 /\ map t_part (rev new)
                    = map (fun q => [q]) (firstn k (p :: rest))
                 /\ Forall (fun t => exists sf, incl (safe st) sf
                                     /\ t_order t = load_order sf (t_part t)) new).
    { intros s Hh Hs. destruct (IH s) as (new & k & E & P & O).
      exists (new ++ [t]), (S k). split; [|split].
      - rewrite E, Hh. now rewrite <- app_assoc.
      - rewrite rev_app_distr. simpl. now rewrite P.
      - apply Forall_app. split; [|now constructor].
        eapply Forall_impl; [|exact O]. intros a (sf & I1 & I2).
        exists sf. split; [eapply incl_tran; eassumption | exact I2]. }
    destruct (oracle w (hist st) (load_order (safe st) [p]));
      try exact Hstop.
    + apply Hgo; [reflexivity | apply incl_refl].
    + apply Hgo; [reflexivity | apply add_new_incl].
    + apply Hgo; [reflexivity | apply incl_refl].
    + apply Hgo; [reflexivity | apply incl_refl].
Qed.

(** As long as no launch fails, the single-plugin loop over a list works
    through its first part and then goes on with the rest. *)
Lemma single_loop_app (pre l : list string) (st s' : state) (new : list trial) :
  single_loop pre st = Finished s' ->
  hist s' = new ++ hist st ->
  Forall (fun t => t_event t <> LaunchFailed) new ->
  single_loop (pre ++ l) st = single_loop l s'.
Proof.
  revert st new. induction pre as [|p pre IH]; intros st new R Hh Hn.
  - simpl in R. injection R as <-. reflexivity.
  - cbn [Engine.single_loop attempt app] in R |- *.
    set (t := {| t_part := [p]; t_order := load_order (safe st) [p];
                 t_event := oracle w (hist st) (load_order (safe st) [p]) |})
      in *.
    assert (Hgo : forall s,
               hist s = t :: hist st ->
               single_loop pre s = Finished s' ->
               single_loop (pre ++ l) s = single_loop l s').
    { intros s Hs Rs.
      destruct (single_loop_singletons pre s) as (new' & k & E & _ & _).
      rewrite Rs in E. cbn [Turbo.flow_state] in E.
      assert (En : new = new' ++ [t]).
      { apply (app_inv_tail (hist st)). rewrite <- Hh, E, Hs.
        now rewrite <- app_assoc. }
      apply (IH s new'); [exact Rs | exact E|].
      rewrite En in Hn. now apply Forall_app in Hn. }
    destruct (oracle w (hist st) (load_order (safe st) [p])) eqn:Ev;
      try (apply Hgo; [reflexivity | exact R]).
    + (* the launch failed: the loop stopped here *)
      injection R as <-. cbn [set_hist hist] in Hh.
      assert (En : new = [t]).
      { apply (app_inv_tail (hist st)). now rewrite <- Hh. }
      rewrite En in Hn. inversion Hn as [|x l0 Hx _]; subst.
      cbn [t t_event] in Hx. congruence.
    + discriminate R.
Qed.

(** A crashed sub-batch of two or more plugins is handed to the
    single-plugin loop, and the sub-batch loop goes on after it. *)
Lemma sub_loop_crashed (sub : list string) (rest : list (list string))
    (s : state) :
  2 <= List.length sub ->
  oracle w (hist s) (load_order (safe s) sub) = Crashed ->
  sub_loop (sub :: rest) s
  = match single_loop sub (set_hist (next_trial sub s :: hist s) s) with
    | Finished s2 => sub_loop rest s2
    | Quit s2 => Quit s2
    end.
Proof.
  intros Hlen Hs. cbn [Engine.sub_loop attempt]. rewrite Hs.
  unfold next_trial. rewrite Hs.
  destruct sub as [|p [|q tl]]; simpl in Hlen; try lia. reflexivity.
Qed.


(** C3 (amended).  A failed launch is not a classification.  At the batch
    trial [run_batch] returns at once; at a sub-batch trial the sub-batch
    loop stops and the later sub-batches are not tried; at a single-plugin
    trial inside a crashed sub-batch the rest of that sub-batch is skipped
    and the loop goes on with the next sub-batch, at whichever plugin of
    the sub-batch the launch fails.  In each case Safe, Failed and Tested
    are left as they were at that trial. *)
Theorem launch_failure_stops :
  (forall fuel batch st,
      oracle w (hist st) (load_order (safe st) batch) = LaunchFailed ->
      run_batch (S fuel) batch st
      = Some (Finished {| safe := safe st; tested := tested st;
                          failed := failed st;
                          hist := next_trial batch st :: hist st |}))
  /\ (forall sub rest st,
         oracle w (hist st) (load_order (safe st) sub) = LaunchFailed ->
         sub_loop (sub :: rest) st
         = Finished {| safe := safe st; tested := tested st;
                       failed := failed st;
                       hist := next_trial sub st :: hist st |})
  /\ (forall p q tl rest st,
         let sub := p :: q :: tl in
         let st1 := set_hist (next_trial sub st :: hist st) st in
         oracle w (hist st) (load_order (safe st) sub) = Crashed ->
         oracle w (hist st1) (load_order (safe st1) [p]) = LaunchFailed ->
         sub_loop (sub :: rest) st
         = sub_loop rest {| safe := safe st; tested := tested st;
                            failed := failed st;
                            hist := next_trial [p] st1 :: hist st1 |})
  /\ (forall pre p post st s' new,
         single_loop pre st = Finished s' ->
         hist s' = new ++ hist st ->
         Forall (fun t => t_event t <> LaunchFailed) new ->
         oracle w (hist s') (load_order (safe s') [p]) = LaunchFailed ->
         single_loop (pre ++ p :: post) st
         = Finished {| safe := safe s'; tested := tested s';
                       failed := failed s';
                       hist := next_trial [p] s' :: hist s' |})
  /\ (forall pre p post rest st s' new,
         let sub := pre ++ p :: post in
         let st1 := set_hist (next_trial sub st :: hist st) st in
         2 <= List.length sub ->
         oracle w (hist st) (load_order (safe st) sub) = Crashed ->
         single_loop pre st1 = Finished s' ->
         hist s' = new ++ hist st1 ->
         Forall (fun t => t_event t <> LaunchFailed) new ->
         oracle w (hist s') (load_order (safe s') [p]) = LaunchFailed ->
         sub_loop (sub :: rest) st
         = sub_loop rest {| safe := safe s'; tested := tested s';
                            failed := failed s';
                            hist := next_trial [p] s' :: hist s' |}).
Proof.
  assert (Hpos : forall pre p post st s' new,
             single_loop pre st = Finished s' ->
             hist s' = new ++ hist st ->
             Forall (fun t => t_event t <> LaunchFailed) new ->
             oracle w (hist s') (load_order (safe s') [p]) = LaunchFailed ->
             single_loop (pre ++ p :: post) st
             = Finished {| safe := safe s'; tested := tested s';
                           failed := failed s';
                           hist := next_trial [p] s' :: hist s' |}).
  { intros pre p post st s' new R Hh Hn Hl.
    rewrite (single_loop_app pre (p :: post) st s' new R Hh Hn).
    cbn [Engine.single_loop attempt]. rewrite Hl.
    unfold next_trial, set_hist. now rewrite Hl. }
  split; [|split; [|split; [|split]]].
  - intros fuel batch st H. cbn [Engine.run_batch attempt]. rewrite H.
    unfold next_trial, set_hist. now rewrite H.
  - intros sub rest st H. cbn [Engine.sub_loop attempt]. rewrite H.
    unfold next_trial, set_hist. now rewrite H.
  - intros p q tl rest st sub st1 Hc Hl. subst st1 sub.
    cbn [Engine.sub_loop attempt]. rewrite Hc.
    cbn [Engine.single_loop attempt].
    unfold next_trial in *. cbn [set_hist safe hist] in *.
    rewrite Hc in Hl |- *. rewrite Hl. reflexivity.
  - exact Hpos.
  - intros pre p post rest st s' new sub st1 Hlen Hc R Hh Hn Hl.
    subst sub st1. rewrite sub_loop_crashed by assumption.
    now rewrite (Hpos pre p post _ s' new R Hh Hn Hl).
Qed.

(** C7.  When the trial of a batch passes, [run_batch] appends the whole
    batch to Safe (and to Tested) in batch order and makes no other
    attempt; so with a world in which every trial passes, any batch, of
    any length, is in Safe after exactly one trial. *)
Theorem run_batch_passed (fuel : nat) (batch : list string) (st : state) :
  (oracle w (hist st) (load_order (safe st) batch) = Passed ->
   run_batch (S fuel) batch st
   = Some (Finished {| safe := safe st ++ batch; tested := tested st ++ batch;
                       failed := failed st;
                       hist := next_trial batch st :: hist st |}))
  /\ ((forall h order, oracle w h order = Passed) ->
      exists st',
        run_batch (S fuel) batch st = Some (Finished st')
        /\ safe st' = safe st ++ batch
        /\ incl batch (safe st')
        /\ failed st' = failed st
        /\ exists t, hist st' = t :: hist st /\ t_part t = batch
                     /\ t_event t = Passed).
Proof.
  assert (A : oracle w (hist st) (load_order (safe st) batch) = Passed ->
   run_batch (S fuel) batch st
   = Some (Finished {| safe := safe st ++ batch; tested := tested st ++ batch;
                       failed := failed st;
                       hist := next_trial batch st :: hist st |})).
  { intros H. cbn [Engine.run_batch attempt]. rewrite H.
    unfold next_trial, extend_safe, set_hist. cbn [safe tested failed hist].
    now rewrite H. }
  split; [exact A|].
  intros Hall. eexists. split; [apply A, Hall|].
  cbn [safe failed hist]. split; [reflexivity|].
  split; [apply incl_appr, incl_refl|]. split; [reflexivity|].
  eexists. split; [reflexivity|]. split; [reflexivity|].
  apply Hall.
Qed.

End WithWorld.

Local Open Scope string_scope.



(** C2: the code breaks the claim.  The batch trial and the first
    sub-batch trial crash, and the operator pauses the single trial of
    [a.esp] and resumes: [a.esp] is booked as Failed although its only
    trial was never completed, and it is not tried again. *)
Theorem pause_at_single_marks_failed :
  exists st',
    run_batch cfg_small (scripted [Crashed; Crashed; Paused] Passed) 1
              batch5 state0 = Some (Finished st')
    /\ outcomes (hist st')
       = [ (batch5, Crashed); (["a.esp"; "b.esp"], Crashed);
           (["a.esp"], Paused); (["b.esp"], Passed);
           (["c.esp"; "d.esp"], Passed); (["e.esp"], Passed) ]
    /\ failed st' = ["a.esp"]
    /\ tested st' = ["a.esp"; "b.esp"; "c.esp"; "d.esp"; "e.esp"]
    /\ safe st' = ["b.esp"; "c.esp"; "d.esp"; "e.esp"].
Proof. eexists. split; [vm_compute; reflexivity|]. repeat split. Qed.

(** C3, as stated, fails: the batch trial crashes and the launch for the
    first sub-batch fails; the attempt is not booked as a crash, the loop
    stops, and all five candidates are left in none of the lists although
    every later launch would have worked. *)
Lemma launch_failure_leaves_unclassified :
  exists st',
    run_batch cfg_small (scripted [Crashed; LaunchFailed] Passed) 1
              batch5 state0 = Some (Finished st')
    /\ outcomes (hist st')
       = [ (batch5, Crashed); (["a.esp"; "b.esp"], LaunchFailed) ]
    /\ safe st' = [] /\ failed st' = [] /\ tested st' = [].
Proof. eexists. split; [vm_compute; reflexivity|]. repeat split. Qed.

Lemma launch_failure_stops_witness :
  let w := scripted [Crashed; Crashed; LaunchFailed] Passed in
  let w2 := scripted [Crashed; Crashed; Passed; LaunchFailed] Passed in
  run_batch cfg_small (scripted [LaunchFailed] Passed) 1 batch5 state0
  = Some (Finished
            (set_hist [next_trial cfg_small (scripted [LaunchFailed] Passed)
                                  batch5 state0] state0))
  /\ outcomes (hist (match run_batch cfg_small w 1 batch5 state0 with
                     | Some (Finished s) => s
                     | _ => state0
                     end))
     = [ (batch5, Crashed); (["a.esp"; "b.esp"], Crashed);
         (["a.esp"], LaunchFailed);
         (["c.esp"; "d.esp"], Passed); (["e.esp"], Passed) ]
  /\ outcomes (hist (match run_batch cfg_small w2 1 batch5 state0 with
                     | Some (Finished s) => s
                     | _ => state0
                     end))
     = [ (batch5, Crashed); (["a.esp"; "b.esp"], Crashed);
         (["a.esp"], Passed); (["b.esp"], LaunchFailed);
         (["c.esp"; "d.esp"], Passed); (["e.esp"], Passed) ].
Proof.
  intros w w2. split; [|split].
  - apply (proj1 (launch_failure_stops cfg_small
                    (scripted [LaunchFailed] Passed)) 0 batch5 state0).
    reflexivity.
  - destruct (launch_failure_stops cfg_small w) as (_ & _ & C & _).
    cbn [Engine.run_batch attempt]. change (oracle w (hist state0)
      (load_order cfg_small (safe state0) batch5)) with Crashed.
    cbv iota beta.
    change (sub_batches (sub_size_of batch5) batch5)
      with [["a.esp"; "b.esp"]; ["c.esp"; "d.esp"]; ["e.esp"]].
    rewrite (C "a.esp" "b.esp" [] [["c.esp"; "d.esp"]; ["e.esp"]]);
      [ | reflexivity | reflexivity].
    vm_compute. reflexivity.
  - destruct (launch_failure_stops cfg_small w2) as (_ & _ & _ & _ & D).
    cbn [Engine.run_batch attempt]. change (oracle w2 (hist state0)
      (load_order cfg_small (safe state0) batch5)) with Crashed.
    cbv iota beta.
    change (sub_batches (sub_size_of batch5) batch5)
      with [["a.esp"; "b.esp"]; ["c.esp"; "d.esp"]; ["e.esp"]].
    set (st0 := set_hist _ state0).
    set (st1 := set_hist (next_trial cfg_small w2 ["a.esp"; "b.esp"] st0
                            :: hist st0) st0).
    set (ta := next_trial cfg_small w2 ["a.esp"] st1).
    pose proof (D ["a.esp"] "b.esp" [] [["c.esp"; "d.esp"]; ["e.esp"]] st0
                  (mark_safe "a.esp" (set_hist (ta :: hist st1) st1)) [ta])
      as E.
    cbv zeta in E. cbn [app] in E. rewrite E.
    + vm_compute. reflexivity.
    + simpl. lia.
    + reflexivity.
    + reflexivity.
    + reflexivity.
    + constructor; [|constructor]. intros H. vm_compute in H. discriminate H.
    + reflexivity.
Defined.

Lemma run_batch_passed_witness :
  run_batch cfg_small (culprit "zzz.esp") 1 batch5 state0
  = Some (Finished
            {| safe := batch5; tested := batch5; failed := [];
               hist := [next_trial cfg_small (culprit "zzz.esp") batch5 state0] |})
  /\ exists st',
       run_batch cfg_small (scripted [] Passed) 1 batch20 state0
       = Some (Finished st')
       /\ incl batch20 (safe st') /\ List.length (hist st') = 1.
Proof.
  split.
  - apply (proj1 (run_batch_passed cfg_small (culprit "zzz.esp") 0 batch5 state0)).
    reflexivity.
  - destruct (proj2 (run_batch_passed cfg_small (scripted [] Passed) 0
                                      batch20 state0))
      as (st' & R & _ & I & _ & t & Hh & _).
    + intros h o. simpl. now destruct (List.length h).
    + exists st'. split; [exact R|]. split; [exact I|]. now rewrite Hh.
Defined.

End EngineFacts.

(** ** The load order written before a trial *)

Module LoadOrderFacts.

Import PyStr PyStrFacts Engine EngineFacts Turbo Keys Scenarios MoreScenarios.
Local Open Scope nat_scope.
Local Open Scope string_scope.
Local Open Scope list_scope.

Lemma lower_char_space (c : ascii) : is_space (lower_char c) = is_space c.
Proof.
  destruct c as [[] [] [] [] [] [] [] []]; reflexivity.
Qed.

Lemma lower_blank (p : string) : blank (lower p) = blank p.
Proof.
  unfold blank. induction p as [|c p IH]; simpl; [reflexivity|].
  now rewrite lower_char_space, IH.
Qed.

Lemma ci_key_blank (p : string) :
  truthy (ci_key p) = negb (blank p).
Proof.
  unfold ci_key. rewrite <- lower_blank. unfold blank.
  destruct (all_chars is_space (lower p)) eqn:E.
  - apply strip_empty in E. now rewrite E.
  - destruct (strip (lower p)) eqn:S; [|reflexivity].
    apply strip_empty in S. congruence.
Qed.

Section Dedupe.

Lemma dedupe_incl (seen l : list string) : incl (dedupe seen l) l.
Proof.
  revert seen. induction l as [|p l IH]; intros seen; simpl.
  - apply incl_refl.
  - destruct (truthy (strip (lower p)) && negb (mem (strip (lower p)) seen)).
    + intros q [<- | Hq]; [now left | right; exact (IH _ q Hq)].
    + intros q Hq. right. exact (IH _ q Hq).
Qed.

Lemma dedupe_kept (seen l : list string) (q : string) :
  In q (dedupe seen l) ->
  blank q = false /\ ~ In (ci_key q) seen.
Proof.
  revert seen. induction l as [|p l IH]; intros seen; simpl; [tauto|].
  fold (ci_key p).
  destruct (truthy (ci_key p) && negb (mem (ci_key p) seen)) eqn:E.
  - apply andb_true_iff in E as [Et Em].
    rewrite ci_key_blank in Et. apply negb_true_iff in Et.
    apply negb_true_iff, mem_false in Em.
    intros [<- | Hq]; [auto|].
    apply IH in Hq as [A B]. split; [exact A|].
    intros Hs. apply B. now right.
  - apply IH.
Qed.

Lemma dedupe_keys_nodup (seen l : list string) :
  NoDup (map ci_key (dedupe seen l)).
Proof.
  revert seen. induction l as [|p l IH]; intros seen; simpl; [constructor|].
  fold (ci_key p).
  destruct (truthy (ci_key p) && negb (mem (ci_key p) seen)); [|apply IH].
  simpl. constructor; [|apply IH].
  intros Hin. apply in_map_iff in Hin as (q & Hk & Hq).
  apply dedupe_kept in Hq as [_ Hq]. apply Hq. left. now rewrite Hk.
Qed.

Lemma dedupe_cover (seen l : list string) (p : string) :
  In p l -> blank p = false ->
  In (ci_key p) seen \/ In (ci_key p) (map ci_key (dedupe seen l)).
Proof.
  revert seen. induction l as [|x l IH]; intros seen Hin Hb; [destruct Hin|].
  simpl. fold (ci_key x).
  destruct Hin as [-> | Hin].
  - rewrite ci_key_blank, Hb. simpl.
    destruct (mem (ci_key p) seen) eqn:Em; simpl.
    + left. now apply mem_In.
    + right. now left.
  - destruct (truthy (ci_key x) && negb (mem (ci_key x) seen)).
    + destruct (IH (ci_key x :: seen) Hin Hb) as [[E | Hs] | Hd].
      * right. left. exact E.
      * now left.
      * right. right. exact Hd.
    + apply IH; assumption.
Qed.

Lemma dedupe_idem (seen l : list string) :
  dedupe seen (dedupe seen l) = dedupe seen l.
Proof.
  revert seen. induction l as [|p l IH]; intros seen; simpl; [reflexivity|].
  destruct (truthy (strip (lower p)) && negb (mem (strip (lower p)) seen)) eqn:E.
  - simpl. rewrite E. now rewrite IH.
  - apply IH.
Qed.

Lemma dedupe_app (seen l1 l2 : list string) :
  exists seen', dedupe seen (l1 ++ l2) = dedupe seen l1 ++ dedupe seen' l2.
Proof.
  revert seen. induction l1 as [|p l1 IH]; intros seen; simpl.
  - now exists seen.
  - destruct (truthy (strip (lower p)) && negb (mem (strip (lower p)) seen)).
    + destruct (IH (strip (lower p) :: seen)) as [s' E].
      exists s'. now rewrite E.
    + apply IH.
Qed.

Lemma dedupe_turbo_same (seen l : list string) :
  (forall p, In p l -> p = EmptyString \/ blank p = false) ->
  dedupe_turbo seen l = dedupe seen l.
Proof.
  revert seen. induction l as [|p l IH]; intros seen H; simpl; [reflexivity|].
  assert (Ht : truthy p = truthy (strip (lower p))).
  { fold (ci_key p). rewrite ci_key_blank.
    destruct (H p (or_introl eq_refl)) as [-> | Hb]; [reflexivity|].
    rewrite Hb. destruct p; [discriminate Hb | reflexivity]. }
  rewrite Ht, andb_comm.
  destruct (truthy (strip (lower p)) && negb (mem (strip (lower p)) seen));
    rewrite IH; auto; intros q Hq; apply H; now right.
Qed.

Lemma dedupe_turbo_incl (seen l : list string) : incl (dedupe_turbo seen l) l.
Proof.
  revert seen. induction l as [|p l IH]; intros seen; simpl.
  - apply incl_refl.
  - destruct (negb (mem (strip (lower p)) seen) && truthy p).
    + intros q [<- | Hq]; [now left | right; exact (IH _ q Hq)].
    + intros q Hq. right. exact (IH _ q Hq).
Qed.

Lemma dedupe_turbo_kept (seen l : list string) (q : string) :
  In q (dedupe_turbo seen l) ->
  q <> EmptyString /\ ~ In (ci_key q) seen.
Proof.
  revert seen. induction l as [|p l IH]; intros seen; simpl; [tauto|].
  fold (ci_key p).
  destruct (negb (mem (ci_key p) seen) && truthy p) eqn:E.
  - apply andb_true_iff in E as [Em Et].
    apply negb_true_iff, mem_false in Em.
    intros [<- | Hq].
    + split; [intros ->; discriminate Et | exact Em].
    + apply IH in Hq as [A B]. split; [exact A|].
      intros Hs. apply B. now right.
  - apply IH.
Qed.

Lemma dedupe_turbo_keys_nodup (seen l : list string) :
  NoDup (map ci_key (dedupe_turbo seen l)).
Proof.
  revert seen. induction l as [|p l IH]; intros seen; simpl; [constructor|].
  fold (ci_key p).
  destruct (negb (mem (ci_key p) seen) && truthy p); [|apply IH].
  simpl. constructor; [|apply IH].
  intros Hin. apply in_map_iff in Hin as (q & Hk & Hq).
  apply dedupe_turbo_kept in Hq as [_ Hq]. apply Hq. left. now rewrite Hk.
Qed.

Lemma dedupe_turbo_cover (seen l : list string) (p : string) :
  In p l -> p <> EmptyString ->
  In (ci_key p) seen \/ In (ci_key p) (map ci_key (dedupe_turbo seen l)).
Proof.
  revert seen. induction l as [|x l IH]; intros seen Hin Hb; [destruct Hin|].
  simpl. fold (ci_key x).
  destruct Hin as [-> | Hin].
  - assert (Ht : truthy p = true) by (destruct p; [congruence | reflexivity]).
    rewrite Ht, andb_true_r.
    destruct (mem (ci_key p) seen) eqn:Em; simpl.
    + left. now apply mem_In.
    + right. now left.
  - destruct (negb (mem (ci_key x) seen) && truthy x).
    + destruct (IH (ci_key x :: seen) Hin Hb) as [[E | Hs] | Hd].
      * right. left. exact E.
      * now left.
      * right. right. exact Hd.
    + apply IH; assumption.
Qed.

Lemma dedupe_turbo_app (seen l1 l2 : list string) :
  exists seen',
    dedupe_turbo seen (l1 ++ l2)
    = dedupe_turbo seen l1 ++ dedupe_turbo seen' l2.
Proof.
  revert seen. induction l1 as [|p l1 IH]; intros seen; simpl.
  - now exists seen.
  - destruct (negb (mem (strip (lower p)) seen) && truthy p).
    + destruct (IH (strip (lower p) :: seen)) as [s' E].
      exists s'. now rewrite E.
    + apply IH.
Qed.

(** A list of non-empty names that are pairwise distinct up to case and
    blanks, none of them seen before, is left as it is. *)
Lemma dedupe_turbo_id (seen l : list string) :
  NoDup (map ci_key l) ->
  Forall (fun p => p <> EmptyString) l ->
  (forall p, In p l -> ~ In (ci_key p) seen) ->
  dedupe_turbo seen l = l.
Proof.
  revert seen. induction l as [|p l IH]; intros seen Hn Hf Hs; [reflexivity|].
  simpl in Hn |- *. fold (ci_key p).
  inversion Hn as [|k ks Hk Hn']; subst. inversion Hf as [|x xs Hp Hf']; subst.
  assert (Em : mem (ci_key p) seen = false)
    by (apply mem_false, Hs; now left).
  assert (Et : truthy p = true) by (destruct p; [congruence | reflexivity]).
  rewrite Em, Et. simpl. f_equal. apply IH; try assumption.
  intros q Hq [E | H].
  - apply Hk. rewrite E. now apply in_map.
  - apply (Hs q); [now right | exact H].
Qed.

End Dedupe.

Section WithConfig.

Variable cfg : config.

(** X5.  The load order [run_batch] writes never holds two names that
    are equal up to case and surrounding blanks, never holds a blank name,
    and holds only names of the required and optional lists, of Safe and
    of the partition under test. *)
Theorem load_order_distinct (safe_now part : list string) :
  NoDup (map ci_key (load_order cfg safe_now part))
  /\ Forall (fun p => blank p = false) (load_order cfg safe_now part)
  /\ incl (load_order cfg safe_now part)
          (REQUIRED_PLUGINS cfg ++ OPTIONAL_PATCHES cfg ++ safe_now ++ part).
Proof.
  unfold load_order. split; [apply dedupe_keys_nodup|]. split.
  - apply Forall_forall. intros p Hp. now apply dedupe_kept in Hp.
  - intros p Hp. apply dedupe_incl in Hp. unfold base_order in Hp.
    rewrite !in_app_iff in Hp. rewrite !in_app_iff.
    destruct Hp as [[[H | H] | H] | H]; auto.
    apply filter_In in H as [H _]. auto.
Qed.

(** X6.  No plugin under test is left out of the load order: every
    non-blank name of the required and optional lists, of Safe and of the
    partition is loaded, under its own name or under one that differs only
    in case or surrounding blanks. *)
Theorem load_order_covers (safe_now part : list string) (p : string) :
  In p (REQUIRED_PLUGINS cfg ++ OPTIONAL_PATCHES cfg ++ safe_now ++ part) ->
  blank p = false ->
  exists q, In q (load_order cfg safe_now part) /\ ci_key q = ci_key p.
Proof.
  intros Hin Hb.
  assert (Hin' : In p (base_order cfg safe_now ++ part)).
  { unfold base_order. rewrite !in_app_iff in Hin. rewrite !in_app_iff.
    destruct Hin as [H | [H | [H | H]]]; auto.
    destruct (mem p (REQUIRED_PLUGINS cfg ++ OPTIONAL_PATCHES cfg)) eqn:E.
    - apply mem_In in E. apply in_app_or in E. tauto.
    - left. right. apply filter_In. split; [exact H | now rewrite E]. }
  destruct (dedupe_cover [] _ p Hin' Hb) as [[] | H].
  apply in_map_iff in H as (q & Hk & Hq). exists q. auto.
Qed.

(** X7.  Every load order starts with the same block: the required and
    optional plugins, de-duplicated, in their configured order, whatever
    Safe and the partition hold. *)
Theorem load_order_prefix (safe_now part : list string) :
  exists tail,
    load_order cfg safe_now part
    = dedupe [] (REQUIRED_PLUGINS cfg ++ OPTIONAL_PATCHES cfg) ++ tail.
Proof.
  unfold load_order, base_order. rewrite <- app_assoc.
  destruct (dedupe_app [] (REQUIRED_PLUGINS cfg ++ OPTIONAL_PATCHES cfg)
              (filter (fun p => negb (mem p (REQUIRED_PLUGINS cfg
                                               ++ OPTIONAL_PATCHES cfg)))
                      safe_now ++ part)) as [s' E].
  rewrite E. eauto.
Qed.

(** X8.  De-duplicating a load order again changes nothing. *)
Theorem dedupe_idempotent (l : list string) :
  dedupe [] (dedupe [] l) = dedupe [] l.
Proof. apply dedupe_idem. Qed.

(** X9.  The two copies of the load-order construction agree as long as
    no name is a non-empty string of blanks: turbo mode then writes for a
    partition exactly what [run_batch] writes. *)
Theorem turbo_order_same (safe_now part : list string) :
  (forall p,
      In p (REQUIRED_PLUGINS cfg ++ OPTIONAL_PATCHES cfg ++ safe_now ++ part) ->
      p = EmptyString \/ blank p = false) ->
  turbo_order cfg safe_now part = load_order cfg safe_now part.
Proof.
  intros H. unfold turbo_order, load_order. apply dedupe_turbo_same.
  intros p Hp. apply H. unfold base_order in Hp.
  rewrite !in_app_iff in Hp. rewrite !in_app_iff.
  destruct Hp as [[[Hp | Hp] | Hp] | Hp]; auto.
  apply filter_In in Hp as [Hp _]. auto.
Qed.

(** X10.  The load order of turbo mode never holds two names that are
    equal up to case and surrounding blanks nor the empty name, and every
    non-empty name of the required and optional lists, of Safe and of the
    partition is loaded up to case and surrounding blanks. *)
Theorem turbo_order_distinct_covers (safe_now part : list string) :
  NoDup (map ci_key (turbo_order cfg safe_now part))
  /\ Forall (fun p => p <> EmptyString) (turbo_order cfg safe_now part)
  /\ (forall p,
         In p (REQUIRED_PLUGINS cfg ++ OPTIONAL_PATCHES cfg ++ safe_now ++ part) ->
         p <> EmptyString ->
         exists q, In q (turbo_order cfg safe_now part) /\ ci_key q = ci_key p).
Proof.
  unfold turbo_order. split; [apply dedupe_turbo_keys_nodup|]. split.
  - apply Forall_forall. intros p Hp. now apply dedupe_turbo_kept in Hp.
  - intros p Hin Hb.
    assert (Hin' : In p (base_order cfg safe_now ++ part)).
    { unfold base_order. rewrite !in_app_iff in Hin. rewrite !in_app_iff.
      destruct Hin as [H | [H | [H | H]]]; auto.
      destruct (mem p (REQUIRED_PLUGINS cfg ++ OPTIONAL_PATCHES cfg)) eqn:E.
      - apply mem_In in E. apply in_app_or in E. tauto.
      - left. right. apply filter_In. split; [exact H | now rewrite E]. }
    destruct (dedupe_turbo_cover [] _ p Hin' Hb) as [[] | H].
    apply in_map_iff in H as (q & Hk & Hq). exists q. auto.
Qed.

End WithConfig.

Lemma load_order_covers_witness :
  exists q, In q (load_order cfg_mixed ["a.esp"] ["B.esp"])
            /\ ci_key q = ci_key " patch.ESP".
Proof.
  apply load_order_covers; [simpl; auto 10 | reflexivity].
Defined.

Lemma turbo_order_same_witness :
  turbo_order cfg_mixed ["a.esp"] ["B.esp"; "b.esp"]
  = load_order cfg_mixed ["a.esp"] ["B.esp"; "b.esp"].
Proof.
  apply turbo_order_same. intros p Hp. simpl in Hp.
  repeat (destruct Hp as [<- | Hp]; [right; reflexivity|]).
  destruct Hp.
Defined.

End LoadOrderFacts.

(** ** Turbo batch mode: the ledger only grows *)

Module TurboFacts.

Import PyStr PyStrFacts Engine ChunkFacts EngineFacts Turbo Scenarios Keys Events
       LoadOrderFacts.
Local Open Scope nat_scope.
Local Open Scope list_scope.

Section WithWorld.

Variable cfg : config.
Variable w : world.

Local Abbreviation turbo_order := (turbo_order cfg).
Local Abbreviation tattempt := (tattempt w).
Local Abbreviation recheck_step := (recheck_step cfg w).
Local Abbreviation recheck_loop := (recheck_loop cfg w).
Local Abbreviation recheck := (recheck cfg w).
Local Abbreviation turbo_singles := (turbo_singles cfg w).
Local Abbreviation turbo_subs := (turbo_subs cfg w).
Local Abbreviation turbo_while := (turbo_while cfg w).
Local Abbreviation turbo_batch_mode := (turbo_batch_mode cfg w).
Local Abbreviation next_attempt := (next_attempt w).
Local Abbreviation after_failure := (after_failure cfg w).

Lemma tattempt_eq (part order : list string) (st : tstate) :
  tattempt part order st
  = (oracle w (hist st) order,
     set_hist (next_attempt part order st :: hist st) st).
Proof. reflexivity. Qed.

Lemma commit_cons (p : string) (part : list string) (st : tstate) :
  commit (p :: part) st = commit part (mark_safe p st).
Proof. reflexivity. Qed.

Lemma commit_fields (part : list string) (st : tstate) :
  failed (commit part st) = failed st
  /\ remaining (commit part st) = remaining st
  /\ hist (commit part st) = hist st.
Proof.
  revert st. induction part as [|p part IH]; intros st; [auto|].
  rewrite commit_cons. destruct (IH (mark_safe p st)) as (A & B & C).
  rewrite A, B, C. auto.
Qed.

Lemma commit_safe_In (part : list string) (st : tstate) (q : string) :
  In q (safe (commit part st)) <-> In q (safe st) \/ In q part.
Proof.
  revert st. induction part as [|p part IH]; intros st.
  - simpl. tauto.
  - rewrite commit_cons, IH. cbn [mark_safe safe]. rewrite add_new_In.
    simpl. intuition congruence.
Qed.

Lemma commit_tested_In (part : list string) (st : tstate) (q : string) :
  In q (tested (commit part st)) <-> In q (tested st) \/ In q part.
Proof.
  revert st. induction part as [|p part IH]; intros st.
  - simpl. tauto.
  - rewrite commit_cons, IH. cbn [mark_safe tested]. rewrite add_new_In.
    simpl. intuition congruence.
Qed.

Lemma commit_same (part : list string) (st : tstate) :
  safe st = tested st -> safe (commit part st) = tested (commit part st).
Proof.
  revert st. induction part as [|p part IH]; intros st H; [exact H|].
  rewrite commit_cons. apply IH. cbn [mark_safe safe tested]. now rewrite H.
Qed.

Lemma commit_NoDup (part : list string) (st : tstate) :
  NoDup (safe st) -> NoDup (tested st) ->
  NoDup (safe (commit part st)) /\ NoDup (tested (commit part st)).
Proof.
  revert st. induction part as [|p part IH]; intros st Hs Ht; [auto|].
  rewrite commit_cons. apply IH; cbn [mark_safe safe tested];
    now apply add_new_NoDup.
Qed.

(** *** The re-test loop *)

Lemma recheck_step_cases (plugin : string) (st : tstate) (refailed : list string) :
  let t := next_attempt [plugin] (recheck_order cfg w st plugin) st in
  let st1 := set_hist (t :: hist st) st in
  match t_event t with
  | Passed =>
      recheck_step plugin st refailed
      = Finished ({| safe := safe st ++ [plugin]; tested := tested st;
                     failed := failed st; remaining := remaining st;
                     hist := t :: hist st |}, refailed)
  | Exited => recheck_step plugin st refailed = Quit (st1, refailed)
  | _ => recheck_step plugin st refailed = Finished (st1, refailed ++ [plugin])
  end.
Proof.
  intros t st1. unfold Turbo.recheck_step. rewrite tattempt_eq.
  fold t. fold st1. cbn [t_event next_attempt t].
  destruct (oracle w (hist st) (recheck_order cfg w st plugin)); reflexivity.
Qed.

(** What the re-test loop does to the lists: the plugins that pass are
    appended to Safe, the others are collected in [refailed], Failed and
    Tested are not touched, and each plugin is tried exactly once. *)
Lemma recheck_loop_spec (plugins : list string) (st : tstate)
    (refailed : list string) :
  (forall h order, oracle w h order <> Exited) ->
  exists st' migrated kept new,
    recheck_loop plugins st refailed = Finished (st', refailed ++ kept)
    /\ safe st' = safe st ++ migrated
    /\ failed st' = failed st
    /\ tested st' = tested st
    /\ remaining st' = remaining st
    /\ Permutation plugins (migrated ++ kept)
    /\ hist st' = new ++ hist st
    /\ map t_part (rev new) = map (fun p => [p]) plugins
    /\ (forall p, In p migrated ->
                  exists t, In t new /\ t_part t = [p] /\ t_event t = Passed)
    /\ migrated
       = flat_map t_part (filter (fun t => is_passed (t_event t)) (rev new))
    /\ kept
       = flat_map t_part
           (filter (fun t => negb (is_passed (t_event t))) (rev new)).
Proof.
  intros Hne. revert st refailed.
  induction plugins as [|p rest IH]; intros st refailed.
  - exists st, [], [], []. simpl. rewrite !app_nil_r.
    repeat split; auto. intros p [].
  - cbn [Turbo.recheck_loop].
    pose proof (recheck_step_cases p st refailed) as Hs. cbv zeta in Hs.
    set (t := next_attempt [p] (recheck_order cfg w st p) st) in *.
    destruct (t_event t) eqn:Ev; rewrite Hs;
      try (exfalso; apply (Hne (hist st) (recheck_order cfg w st p)); exact Ev).
    1, 2, 4, 5:
      destruct (IH (set_hist (t :: hist st) st) (refailed ++ [p]))
        as (st' & mig & kept & new & R & Hsafe & Hf & Ht & Hr & Hp & Hh & Hparts
            & Hm & Emig & Ekept);
      exists st', mig, (p :: kept), (new ++ [t]);
      (split; [rewrite R; now rewrite <- app_assoc|]);
      cbn [set_hist safe failed tested remaining hist] in *;
      (split; [assumption|]); (split; [assumption|]); (split; [assumption|]);
      (split; [assumption|]);
      (split; [now apply Permutation_cons_app|]);
      (split; [rewrite Hh; now rewrite <- app_assoc|]);
      (split; [rewrite rev_app_distr; simpl; now rewrite Hparts|]);
      (split; [intros q Hq; destruct (Hm q Hq) as (t' & I & A & B);
               exists t'; (split; [apply in_or_app; now left | auto])|]);
      rewrite rev_app_distr; cbn [rev app filter]; rewrite Ev;
      cbn [is_passed negb flat_map]; rewrite <- Emig, <- Ekept;
      split; reflexivity.
    destruct (IH {| safe := safe st ++ [p]; tested := tested st;
                    failed := failed st; remaining := remaining st;
                    hist := t :: hist st |} refailed)
      as (st' & mig & kept & new & R & Hsafe & Hf & Ht & Hr & Hp & Hh & Hparts
          & Hm & Emig & Ekept).
    exists st', (p :: mig), kept, (new ++ [t]).
    split; [exact R|].
    cbn [safe failed tested remaining hist] in *.
    split; [rewrite Hsafe; now rewrite <- app_assoc|].
    split; [assumption|]. split; [assumption|]. split; [assumption|].
    split; [simpl; now constructor|].
    split; [rewrite Hh; now rewrite <- app_assoc|].
    split; [rewrite rev_app_distr; simpl; now rewrite Hparts|].
    split.
    { intros q [<- | Hq].
      + exists t. split; [apply in_or_app; right; now left|].
        split; [reflexivity | exact Ev].
      + destruct (Hm q Hq) as (t' & I & A & B).
        exists t'. split; [apply in_or_app; now left | auto]. }
    rewrite rev_app_distr. cbn [rev app filter]. rewrite Ev.
    cbn [is_passed negb flat_map]. rewrite <- Emig, <- Ekept.
    split; reflexivity.
Qed.

(** *** Safe never shrinks *)

Lemma recheck_loop_safe_grows (plugins : list string) (st : tstate)
    (refailed : list string) :
  incl (safe st) (safe (fst (flow_state (recheck_loop plugins st refailed)))).
Proof.
  revert st refailed. induction plugins as [|p rest IH]; intros st refailed.
  - apply incl_refl.
  - cbn [Turbo.recheck_loop].
    pose proof (recheck_step_cases p st refailed) as Hs. cbv zeta in Hs.
    destruct (t_event (next_attempt [p] (recheck_order cfg w st p) st));
      rewrite Hs; try apply incl_refl;
      (eapply incl_tran; [|apply IH]); cbn [safe set_hist];
      try apply incl_refl.
    apply incl_appl, incl_refl.
Qed.

Lemma recheck_safe_grows (st : tstate) :
  incl (safe st) (safe (flow_state (recheck st))).
Proof.
  unfold Turbo.recheck. destruct (failed st); [apply incl_refl|].
  destruct (wants_retest (answer w)); [|apply incl_refl].
  pose proof (recheck_loop_safe_grows (s :: l) st []) as H.
  destruct (recheck_loop (s :: l) st []) as [[st1 r] | [st1 r]]; exact H.
Qed.

Lemma commit_safe_grows (part : list string) (st : tstate) :
  incl (safe st) (safe (commit part st)).
Proof. intros q Hq. apply commit_safe_In. now left. Qed.

Lemma of_recheck_state (r : flow tstate) :
  result_state (of_recheck r) = flow_state r.
Proof. now destruct r. Qed.

Lemma turbo_singles_cons (p : string) (rest : list string) (st : tstate) :
  let st1 := set_hist (next_attempt [p] (turbo_order (safe st) [p]) st
                         :: hist st) st in
  turbo_singles (p :: rest) st
  = match oracle w (hist st) (turbo_order (safe st) [p]) with
    | WriteFailed | LaunchFailed => turbo_singles rest st1
    | Exited => Exit st1
    | Passed => turbo_singles rest (mark_safe p st1)
    | Paused | Crashed => after_failure rest (mark_failed p st1)
    end.
Proof.
  intros st1. cbn [Turbo.turbo_singles]. rewrite tattempt_eq. fold st1.
  destruct (oracle w (hist st) (turbo_order (safe st) [p])); try reflexivity;
    unfold after_failure; rewrite tattempt_eq;
    destruct (unclassified (mark_failed p st1)); try reflexivity;
    destruct (oracle w _ _); reflexivity.
Qed.

Lemma turbo_subs_cons (sub : list string) (rest : list (list string))
    (st : tstate) :
  let st1 := set_hist (next_attempt sub (turbo_order (safe st) sub) st
                         :: hist st) st in
  turbo_subs (sub :: rest) st
  = match oracle w (hist st) (turbo_order (safe st) sub) with
    | WriteFailed | LaunchFailed => turbo_subs rest st1
    | Exited => Exit st1
    | Passed => turbo_subs rest (drop_safe (commit sub st1))
    | Paused | Crashed =>
        match turbo_singles sub st1 with
        | Next st2 => turbo_subs rest (drop_classified st2)
        | other => other
        end
    end.
Proof.
  intros st1. cbn [Turbo.turbo_subs]. rewrite tattempt_eq. fold st1.
  destruct (oracle w (hist st) (turbo_order (safe st) sub)); reflexivity.
Qed.

Lemma turbo_while_step (fuel : nat) (st : tstate) :
  remaining st <> [] ->
  let batch := py_prefix (BATCH_SIZE cfg) (remaining st) in
  let st1 := set_hist (next_attempt batch (turbo_order (safe st) batch) st
                         :: hist st) st in
  turbo_while (S fuel) st
  = match oracle w (hist st) (turbo_order (safe st) batch) with
    | WriteFailed | LaunchFailed => Some (Next st1)
    | Exited => Some (Exit st1)
    | Paused => turbo_while fuel st1
    | Passed => turbo_while fuel (drop_safe (commit batch st1))
    | Crashed =>
        match turbo_subs (sub_batches (sub_size_of batch) batch) st1 with
        | Next st2 => turbo_while fuel st2
        | other => Some other
        end
    end.
Proof.
  intros Hne batch st1. cbn [Turbo.turbo_while].
  destruct (remaining st) as [|x xs] eqn:Er; [congruence|].
  rewrite tattempt_eq. fold batch. fold st1.
  destruct (oracle w (hist st) (turbo_order (safe st) batch)); reflexivity.
Qed.

Lemma after_failure_mega (rest : list string) (st2 : tstate) :
  unclassified st2 <> [] ->
  let rem := unclassified st2 in
  let st3 := set_hist (next_attempt rem (turbo_order (safe st2) rem) st2
                         :: hist st2) st2 in
  after_failure rest st2
  = match oracle w (hist st2) (turbo_order (safe st2) rem) with
    | Passed => of_recheck (recheck (set_remaining [] (commit rem st3)))
    | Exited => Exit st3
    | _ => turbo_singles rest st3
    end.
Proof.
  intros Hne. cbv zeta. unfold after_failure.
  destruct (unclassified st2); [congruence | reflexivity].
Qed.

Lemma after_failure_done (rest : list string) (st2 : tstate) :
  unclassified st2 = [] -> after_failure rest st2 = turbo_singles rest st2.
Proof. intros H. unfold after_failure. now rewrite H. Qed.

Lemma after_failure_safe_grows (rest : list string) (st2 : tstate) :
  (forall st, incl (safe st) (safe (result_state (turbo_singles rest st)))) ->
  incl (safe st2) (safe (result_state (after_failure rest st2))).
Proof.
  intros IH. unfold after_failure.
  destruct (unclassified st2) as [|x xs]; [apply IH|].
  destruct (oracle w (hist st2) (turbo_order (safe st2) (x :: xs)));
    try (eapply incl_tran; [|apply IH]; apply incl_refl);
    try apply incl_refl.
  rewrite of_recheck_state.
  eapply incl_tran; [|apply recheck_safe_grows].
  cbn [set_remaining safe].
  eapply incl_tran; [|apply commit_safe_grows]. apply incl_refl.
Qed.

Lemma turbo_singles_safe_grows (sub : list string) (st : tstate) :
  incl (safe st) (safe (result_state (turbo_singles sub st))).
Proof.
  revert st. induction sub as [|p rest IH]; intros st; [apply incl_refl|].
  rewrite turbo_singles_cons.
  destruct (oracle w (hist st) (turbo_order (safe st) [p])).
  - eapply incl_tran; [|apply IH]. apply incl_refl.
  - eapply incl_tran; [|apply IH]. apply incl_refl.
  - eapply incl_tran; [|apply IH]. cbn [mark_safe set_hist safe].
    apply add_new_incl.
  - eapply incl_tran; [|apply after_failure_safe_grows; exact IH].
    apply incl_refl.
  - eapply incl_tran; [|apply after_failure_safe_grows; exact IH].
    apply incl_refl.
  - apply incl_refl.
Qed.

Lemma turbo_subs_safe_grows (subs : list (list string)) (st : tstate) :
  incl (safe st) (safe (result_state (turbo_subs subs st))).
Proof.
  revert st. induction subs as [|sub rest IH]; intros st; [apply incl_refl|].
  rewrite turbo_subs_cons.
  set (st1 := set_hist _ st).
  assert (Hc : incl (safe st)
                 (safe (result_state
                          match turbo_singles sub st1 with
                          | Next st2 => turbo_subs rest (drop_classified st2)
                          | other => other
                          end))).
  { pose proof (turbo_singles_safe_grows sub st1) as Hs.
    destruct (turbo_singles sub st1) as [st2 | st2 | st2];
      cbn [result_state] in Hs |- *; try exact Hs.
    eapply incl_tran; [|apply IH]. exact Hs. }
  destruct (oracle w (hist st) (turbo_order (safe st) sub)); try exact Hc.
  - eapply incl_tran; [|apply IH]. apply incl_refl.
  - eapply incl_tran; [|apply IH]. apply incl_refl.
  - eapply incl_tran; [|apply IH]. cbn [drop_safe set_remaining safe].
    apply (commit_safe_grows sub st1).
  - apply incl_refl.
Qed.

Lemma turbo_while_safe_grows (fuel : nat) (st : tstate) (r : tflow) :
  turbo_while fuel st = Some r -> incl (safe st) (safe (result_state r)).
Proof.
  revert st. induction fuel as [|fuel IH]; intros st.
  - simpl. destruct (remaining st); [|discriminate].
    intros [= <-]. apply incl_refl.
  - destruct (remaining st) as [|x xs] eqn:Er.
    { cbn [Turbo.turbo_while]. rewrite Er. intros [= <-]. apply incl_refl. }
    rewrite turbo_while_step by (rewrite Er; discriminate).
    set (batch := py_prefix (BATCH_SIZE cfg) (remaining st)).
    set (st1 := set_hist _ st).
    destruct (oracle w (hist st) (turbo_order (safe st) batch)).
    + intros [= <-]. apply incl_refl.
    + intros [= <-]. apply incl_refl.
    + intros H. apply IH in H. eapply incl_tran; [|exact H].
      cbn [drop_safe set_remaining safe]. apply (commit_safe_grows batch st1).
    + pose proof (turbo_subs_safe_grows
                    (sub_batches (sub_size_of batch) batch) st1) as Hs.
      destruct (turbo_subs (sub_batches (sub_size_of batch) batch) st1)
        as [st2 | st2 | st2]; cbn [result_state] in Hs.
      * intros H. apply IH in H. eapply incl_tran; [exact Hs | exact H].
      * intros [= <-]. exact Hs.
      * intros [= <-]. exact Hs.
    + intros H. apply IH in H. exact H.
    + intros [= <-]. apply incl_refl.
Qed.

(** C9.  Before any trial, turbo mode puts every required and every
    optional plugin into both Safe and Tested (appending those not yet
    there; the two lists start out equal when Safe starts empty), and
    whatever the trials give, they are all in the Safe list the function
    returns. *)
Theorem required_optional_always_safe
    (fuel : nat) (to_test patch_plugins safe0 : list string) :
  let st0 := seed cfg (turbo_init to_test patch_plugins safe0) in
  (forall p, In p (REQUIRED_PLUGINS cfg ++ OPTIONAL_PATCHES cfg) ->
             In p (safe st0) /\ In p (tested st0))
  /\ hist st0 = []
  /\ failed st0 = []
  /\ incl safe0 (safe st0)
  /\ (safe0 = [] -> safe st0 = tested st0 /\ NoDup (safe st0))
  /\ (forall st,
         turbo_batch_mode fuel to_test patch_plugins safe0 = Some (Finished st) ->
         forall p, In p (REQUIRED_PLUGINS cfg ++ OPTIONAL_PATCHES cfg) ->
                   In p (safe st)).
Proof.
  intros st0.
  assert (Hseed : forall p, In p (REQUIRED_PLUGINS cfg ++ OPTIONAL_PATCHES cfg) ->
                            In p (safe st0) /\ In p (tested st0)).
  { intros p Hp. unfold st0, seed. split.
    - apply commit_safe_In. now right.
    - apply commit_tested_In. now right. }
  split; [exact Hseed|].
  split; [apply (commit_fields _ (turbo_init to_test patch_plugins safe0))|].
  split; [apply (commit_fields _ (turbo_init to_test patch_plugins safe0))|].
  split; [apply (commit_safe_grows _ (turbo_init to_test patch_plugins safe0))|].
  split.
  { intros ->. unfold st0, seed. split.
    - now apply commit_same.
    - apply commit_NoDup; constructor. }
  intros st Hrun p Hp. apply Hseed in Hp as [Hp _].
  unfold Turbo.turbo_batch_mode in Hrun. fold st0 in Hrun.
  destruct (turbo_while fuel st0) as [r|] eqn:Ew; [|discriminate].
  apply turbo_while_safe_grows in Ew.
  destruct r as [st1 | st1 | st1]; cbn [result_state] in Ew.
  - injection Hrun as Hrun.
    pose proof (recheck_safe_grows st1) as Hr. rewrite Hrun in Hr.
    apply Hr, Ew, Hp.
  - injection Hrun as <-. apply Ew, Hp.
  - discriminate.
Qed.

(** *** The mega batch *)

(** Whatever happens, the re-test only makes single trials of plugins
    that were in Failed. *)
Lemma recheck_loop_trials (plugins : list string) (st : tstate)
    (refailed : list string) :
  exists new,
    hist (fst (flow_state (recheck_loop plugins st refailed))) = new ++ hist st
    /\ Forall (fun t => exists q, In q plugins /\ t_part t = [q]) new.
Proof.
  revert st refailed. induction plugins as [|p rest IH]; intros st refailed.
  - exists []. split; [reflexivity | constructor].
  - cbn [Turbo.recheck_loop].
    pose proof (recheck_step_cases p st refailed) as Hs. cbv zeta in Hs.
    set (t := next_attempt [p] (recheck_order cfg w st p) st) in *.
    assert (Ht : exists q, In q (p :: rest) /\ t_part t = [q])
      by (exists p; split; [now left | reflexivity]).
    assert (Hw : forall new : list trial,
               Forall (fun t => exists q, In q rest /\ t_part t = [q]) new ->
               Forall (fun t => exists q, In q (p :: rest) /\ t_part t = [q])
                      (new ++ [t])).
    { intros new Hn. apply Forall_app. split; [|now constructor].
      eapply Forall_impl; [|exact Hn]. intros a (q & I & E).
      exists q. split; [now right | exact E]. }
    destruct (t_event t); rewrite Hs.
    1, 2, 4, 5:
      destruct (IH (set_hist (t :: hist st) st) (refailed ++ [p]))
        as (new & Hh & Hn);
      exists (new ++ [t]); split; [rewrite Hh; now rewrite <- app_assoc | auto].
    + destruct (IH {| safe := safe st ++ [p]; tested := tested st;
                      failed := failed st; remaining := remaining st;
                      hist := t :: hist st |} refailed) as (new & Hh & Hn).
      exists (new ++ [t]). split; [rewrite Hh; now rewrite <- app_assoc | auto].
    + exists [t]. split; [reflexivity|]. now constructor.
Qed.

Lemma recheck_trials (st : tstate) :
  exists new,
    hist (flow_state (recheck st)) = new ++ hist st
    /\ Forall (fun t => exists q, In q (failed st) /\ t_part t = [q]) new.
Proof.
  unfold Turbo.recheck. destruct (failed st) as [|x xs] eqn:Ef.
  - exists []. split; [reflexivity | constructor].
  - destruct (wants_retest (answer w)).
    + destruct (recheck_loop_trials (x :: xs) st []) as (new & Hh & Hn).
      exists new. split; [|exact Hn].
      destruct (recheck_loop (x :: xs) st []) as [[st1 r] | [st1 r]];
        exact Hh.
    + exists []. split; [reflexivity | constructor].
Qed.

Lemma unclassified_In (st : tstate) (p : string) :
  In p (unclassified st)
  <-> In p (remaining st) /\ ~ In p (safe st) /\ ~ In p (failed st).
Proof.
  unfold unclassified. rewrite filter_In, andb_true_iff, !negb_true_iff.
  rewrite !mem_false. tauto.
Qed.

(** C4.  Right after a single plugin is booked as Failed, if some
    candidate is still in neither Safe nor Failed, the next attempt is one
    mega batch: the baseline re-derived from the current Safe list plus
    all those candidates.  Its load order starts with the required and
    optional plugins, holds every non-empty name of the required and
    optional lists, of Safe as it stands and of the unclassified
    candidates (up to case and blanks, once each) and nothing else; when
    those names are non-empty and pairwise distinct up to case and blanks
    it is exactly required, optional, the rest of Safe and the
    candidates, in this order.  If it passes, all of them go to Safe and
    [turbo_batch_mode] winds up: it returns from inside all its loops, and
    the only trials still made are the optional re-tests of failed
    plugins.  If it crashes, the lists are left as they were and the
    single-plugin loop goes on with the next plugin of the sub-batch. *)
Theorem mega_batch_after_failure
    (plugin : string) (rest : list string) (st : tstate) :
  let st1 := set_hist (next_attempt [plugin] (turbo_order (safe st) [plugin]) st
                         :: hist st) st in
  let st2 := mark_failed plugin st1 in
  let rem := unclassified st2 in
  let mega := next_attempt rem (turbo_order (safe st2) rem) st2 in
  let st3 := set_hist (mega :: hist st2) st2 in
  oracle w (hist st) (turbo_order (safe st) [plugin]) = Crashed ->
  rem <> [] ->
  In plugin (failed st2)
  /\ (forall p, In p rem <->
                In p (remaining st) /\ ~ In p (safe st2) /\ ~ In p (failed st2))
  /\ (t_event mega = Passed ->
      exists stf new,
        (turbo_singles (plugin :: rest) st = Return stf
         \/ turbo_singles (plugin :: rest) st = Exit stf)
        /\ (forall p, In p rem -> In p (safe stf))
        /\ hist stf = new ++ mega :: hist st2
        /\ Forall (fun t => exists q, In q (failed st2) /\ t_part t = [q]) new)
  /\ (t_event mega = Crashed ->
      turbo_singles (plugin :: rest) st = turbo_singles rest st3
      /\ safe st3 = safe st2 /\ failed st3 = failed st2
      /\ tested st3 = tested st2 /\ remaining st3 = remaining st2)
  /\ (forall sub subs s stf,
         let s1 := set_hist (next_attempt sub (turbo_order (safe s) sub) s
                               :: hist s) s in
         oracle w (hist s) (turbo_order (safe s) sub) = Crashed ->
         turbo_singles sub s1 = Return stf ->
         turbo_subs (sub :: subs) s = Return stf)
  /\ (forall fuel s stf,
         let batch := py_prefix (BATCH_SIZE cfg) (remaining s) in
         let s1 := set_hist (next_attempt batch (turbo_order (safe s) batch) s
                               :: hist s) s in
         remaining s <> [] ->
         oracle w (hist s) (turbo_order (safe s) batch) = Crashed ->
         turbo_subs (sub_batches (sub_size_of batch) batch) s1 = Return stf ->
         turbo_while (S fuel) s = Some (Return stf))
  /\ t_part mega = rem
  /\ safe st2 = safe st
  /\ (exists tail,
         t_order mega
         = dedupe_turbo [] (REQUIRED_PLUGINS cfg ++ OPTIONAL_PATCHES cfg)
           ++ tail)
  /\ incl (t_order mega)
          (REQUIRED_PLUGINS cfg ++ OPTIONAL_PATCHES cfg ++ safe st2 ++ rem)
  /\ NoDup (map ci_key (t_order mega))
  /\ (forall p,
         In p (REQUIRED_PLUGINS cfg ++ OPTIONAL_PATCHES cfg
               ++ safe st2 ++ rem) ->
         p <> EmptyString ->
         exists q, In q (t_order mega) /\ ci_key q = ci_key p)
  /\ (let names :=
         (REQUIRED_PLUGINS cfg ++ OPTIONAL_PATCHES cfg)
         ++ filter (fun p => negb (mem p (REQUIRED_PLUGINS cfg
                                          ++ OPTIONAL_PATCHES cfg)))
                   (safe st2)
         ++ rem in
       NoDup (map ci_key names) ->
       Forall (fun p => p <> EmptyString) names ->
       t_order mega = names).
Proof.
  intros st1 st2 rem mega st3 Hc Hrem.
  assert (Hstep : turbo_singles (plugin :: rest) st = after_failure rest st2).
  { rewrite turbo_singles_cons. now rewrite Hc. }
  assert (Horder : t_order mega
                   = dedupe_turbo [] (base_order cfg (safe st2) ++ rem))
    by reflexivity.
  assert (Hbase : forall p,
             In p (base_order cfg (safe st2) ++ rem)
             <-> In p (REQUIRED_PLUGINS cfg ++ OPTIONAL_PATCHES cfg
                       ++ safe st2 ++ rem)).
  { intros p. unfold base_order. rewrite !in_app_iff, filter_In.
    rewrite negb_true_iff, mem_false, in_app_iff.
    destruct (in_dec string_dec p (REQUIRED_PLUGINS cfg)); [tauto|].
    destruct (in_dec string_dec p (OPTIONAL_PATCHES cfg)); tauto. }
  split; [|split; [|split; [|split; [|split; [|split; [|split;
    [|split; [|split; [|split; [|split; [|split]]]]]]]]]]].
  13: { cbv zeta. intros Hn Hf. rewrite Horder. unfold base_order.
        cbv zeta. rewrite <- app_assoc. apply dedupe_turbo_id.
        - exact Hn.
        - exact Hf.
        - intros p _ []. }
  12: { intros p Hin Hne. apply Hbase in Hin. rewrite Horder.
        destruct (dedupe_turbo_cover [] _ p Hin Hne) as [[] | H].
        apply in_map_iff in H as (q & Hk & Hq). eauto. }
  11: { rewrite Horder. apply dedupe_turbo_keys_nodup. }
  10: { rewrite Horder. intros p Hp. apply Hbase.
        exact (dedupe_turbo_incl [] _ p Hp). }
  9: { rewrite Horder. unfold base_order. rewrite <- app_assoc.
       destruct (dedupe_turbo_app []
                   (REQUIRED_PLUGINS cfg ++ OPTIONAL_PATCHES cfg)
                   (filter (fun p => negb (mem p (REQUIRED_PLUGINS cfg
                                                    ++ OPTIONAL_PATCHES cfg)))
                           (safe st2) ++ rem)) as [s' E].
       rewrite E. eauto. }
  8: reflexivity.
  7: reflexivity.
  - unfold st2. cbn [mark_failed failed]. apply add_new_In. now right.
  - intros p. unfold rem. rewrite unclassified_In. reflexivity.
  - intros Hp. cbn [mega next_attempt t_event] in Hp.
    rewrite Hstep, after_failure_mega by exact Hrem.
    fold rem. rewrite Hp. fold mega. fold st3.
    set (s4 := set_remaining [] (commit rem st3)).
    destruct (recheck_trials s4) as (new & Hh & Hn).
    pose proof (recheck_safe_grows s4) as Hg.
    exists (flow_state (recheck s4)), new.
    split; [destruct (recheck s4); [now left | now right]|].
    split.
    { intros p Hin. apply Hg. unfold s4. cbn [set_remaining safe].
      apply commit_safe_In. now right. }
    split.
    { rewrite Hh. unfold s4. cbn [set_remaining hist].
      now rewrite (proj2 (proj2 (commit_fields rem st3))). }
    eapply Forall_impl; [|exact Hn]. intros a (q & I & E).
    exists q. split; [|exact E].
    unfold s4 in I. cbn [set_remaining failed] in I.
    now rewrite (proj1 (commit_fields rem st3)) in I.
  - intros Hp. cbn [mega next_attempt t_event] in Hp.
    split; [|now repeat split].
    rewrite Hstep, after_failure_mega by exact Hrem.
    fold rem. now rewrite Hp.
  - intros sub subs s stf s1 Hs Hr.
    rewrite turbo_subs_cons. rewrite Hs. fold s1. now rewrite Hr.
  - intros fuel s stf batch s1 Hne Hs Hr.
    rewrite turbo_while_step by exact Hne. fold batch. rewrite Hs.
    fold s1. now rewrite Hr.
Qed.

(** *** The re-verification pass *)

Lemma recheck_spec (st : tstate) :
  failed st <> [] ->
  wants_retest (answer w) = true ->
  (forall h order, oracle w h order <> Exited) ->
  exists st' migrated new,
    recheck st = Finished st'
    /\ safe st' = safe st ++ migrated
    /\ tested st' = tested st
    /\ remaining st' = remaining st
    /\ Permutation (failed st) (migrated ++ failed st')
    /\ hist st' = new ++ hist st
    /\ map t_part (rev new) = map (fun p => [p]) (failed st)
    /\ (forall p, In p migrated ->
                  exists t, In t new /\ t_part t = [p] /\ t_event t = Passed)
    /\ migrated
       = flat_map t_part (filter (fun t => is_passed (t_event t)) (rev new))
    /\ failed st'
       = flat_map t_part
           (filter (fun t => negb (is_passed (t_event t))) (rev new)).
Proof.
  intros Hf Hy Hne. unfold Turbo.recheck.
  destruct (failed st) as [|x xs] eqn:Ef; [congruence|]. rewrite Hy.
  destruct (recheck_loop_spec (x :: xs) st [] Hne)
    as (st' & mig & kept & new & R & Hs & Hfl & Ht & Hr & Hp & Hh & Hparts
        & Hm & Emig & Ekept).
  rewrite R. simpl app.
  exists (set_failed kept st'), mig, new.
  cbn [set_failed safe tested failed remaining hist]. repeat split; auto.
Qed.

(** C5 (amended).  In the re-test of the failed plugins each plugin of
    Failed is tried alone exactly once.  One that passes is appended to
    Safe at once, but Failed is only rewritten when the whole loop is over
    ([failed[:] = refailed]), so until then the plugin is in both lists;
    one that does not pass is noted and Safe is left alone.  When the pass
    has ended, Safe has gained exactly the plugins whose re-test passed,
    in the order of their re-tests, and Failed holds exactly the others;
    if Failed had no duplicates and shared no plugin with Safe, each
    migrated plugin then occurs once in Safe and not in Failed, and the
    two lists are disjoint again. *)
Theorem recheck_migration (st : tstate) :
  (forall plugin s refailed,
      oracle w (hist s) (recheck_order cfg w s plugin) = Passed ->
      exists s',
        recheck_step plugin s refailed = Finished (s', refailed)
        /\ safe s' = safe s ++ [plugin]
        /\ failed s' = failed s)
  /\ (forall plugin s refailed,
         oracle w (hist s) (recheck_order cfg w s plugin) <> Passed ->
         oracle w (hist s) (recheck_order cfg w s plugin) <> Exited ->
         exists s',
           recheck_step plugin s refailed = Finished (s', refailed ++ [plugin])
           /\ safe s' = safe s
           /\ failed s' = failed s)
  /\ (failed st <> [] ->
      wants_retest (answer w) = true ->
      (forall h order, oracle w h order <> Exited) ->
      exists st' migrated new,
        recheck st = Finished st'
        /\ safe st' = safe st ++ migrated
        /\ tested st' = tested st
        /\ Permutation (failed st) (migrated ++ failed st')
        /\ hist st' = new ++ hist st
        /\ map t_part (rev new) = map (fun p => [p]) (failed st)
        /\ (forall p, In p migrated ->
                      exists t, In t new /\ t_part t = [p] /\ t_event t = Passed)
        /\ (NoDup (failed st) ->
            (forall p, In p (failed st) -> ~ In p (safe st)) ->
            (forall p, In p migrated ->
                       count_occ string_dec (safe st') p = 1
                       /\ ~ In p (failed st'))
            /\ (forall p, In p (safe st') -> ~ In p (failed st')))
        /\ migrated
           = flat_map t_part
               (filter (fun t => is_passed (t_event t)) (rev new))
        /\ failed st'
           = flat_map t_part
               (filter (fun t => negb (is_passed (t_event t))) (rev new))
        /\ (forall t p, In t new -> In p (t_part t) ->
                        t_event t = Passed ->
                        In p migrated /\ In p (safe st'))
        /\ (forall t p, In t new -> In p (t_part t) ->
                        t_event t <> Passed ->
                        In p (failed st'))).
Proof.
  split; [|split].
  - intros plugin s refailed Hp.
    pose proof (recheck_step_cases plugin s refailed) as Hs. cbv zeta in Hs.
    cbn [next_attempt t_event] in Hs. rewrite Hp in Hs.
    eexists. split; [exact Hs|]. split; reflexivity.
  - intros plugin s refailed Hp He.
    pose proof (recheck_step_cases plugin s refailed) as Hs. cbv zeta in Hs.
    cbn [next_attempt t_event] in Hs.
    destruct (oracle w (hist s) (recheck_order cfg w s plugin));
      try congruence;
      (eexists; split; [exact Hs|]; split; reflexivity).
  - intros Hf Hy Hne.
    destruct (recheck_spec st Hf Hy Hne)
      as (st' & mig & new & R & Hs & Ht & _ & Hp & Hh & Hparts & Hm
          & Emig & Ekept).
    exists st', mig, new. repeat (split; [assumption|]).
    split; [|split; [exact Emig | split; [exact Ekept | split]]].
    + intros Hnd Hdis.
      assert (Hnd' : NoDup (mig ++ failed st'))
        by (eapply Permutation_NoDup; eassumption).
      assert (Hin : forall p, In p mig -> In p (failed st)).
      { intros p Hi. eapply Permutation_in; [apply Permutation_sym, Hp|].
        apply in_or_app. now left. }
      assert (Hin' : forall p, In p (failed st') -> In p (failed st)).
      { intros p Hi. eapply Permutation_in; [apply Permutation_sym, Hp|].
        apply in_or_app. now right. }
      apply NoDup_app_inv in Hnd' as (Hnm & Hnf & Hsep).
      split.
      * intros p Hi. split; [|now apply Hsep].
        rewrite Hs, count_occ_app.
        rewrite (proj1 (count_occ_not_In string_dec (safe st) p))
          by (apply Hdis, Hin, Hi).
        simpl. now apply NoDup_count_occ'.
      * intros p Hi Hfl. rewrite Hs in Hi. apply in_app_or in Hi as [Hi | Hi].
        -- apply (Hdis p); auto.
        -- now apply (Hsep p).
    + intros t p Hin Hpt Hev.
      assert (Hmig : In p mig).
      { rewrite Emig. apply in_flat_map. exists t. split; [|exact Hpt].
        apply filter_In. split; [now apply in_rev in Hin|]. now rewrite Hev. }
      split; [exact Hmig|]. rewrite Hs. apply in_or_app. now right.
    + intros t p Hin Hpt Hev. rewrite Ekept. apply in_flat_map.
      exists t. split; [|exact Hpt].
      apply filter_In. split; [now apply in_rev in Hin|].
      destruct (t_event t); try reflexivity. congruence.
Qed.

End WithWorld.

End TurboFacts.

(** ** Turbo batch mode: every candidate is classified *)

Module Conservation.

Import PyStr PyStrFacts Engine ChunkFacts EngineFacts Turbo TurboFacts Ledger.
Local Open Scope nat_scope.
Local Open Scope list_scope.

Section WithCandidates.

Variable cfg : config.
Variable w : world.

(** The candidate plugins, and the plugins Safe is seeded with. *)
Variable cands : list string.
Variable seeds : list string.

Hypothesis cands_nodup : NoDup cands.
Hypothesis seeds_nodup : NoDup seeds.
Hypothesis world_classifies : classifying w.
Hypothesis batch_size_pos : (0 < BATCH_SIZE cfg)%Z.

Local Abbreviation turbo_order := (turbo_order cfg).
Local Abbreviation recheck := (recheck cfg w).
Local Abbreviation turbo_singles := (turbo_singles cfg w).
Local Abbreviation turbo_subs := (turbo_subs cfg w).
Local Abbreviation turbo_while := (turbo_while cfg w).
Local Abbreviation after_failure := (after_failure cfg w).
Local Abbreviation Led := (Ledger.Led cands seeds).
Local Abbreviation Rem := (Ledger.Rem cands).
Local Abbreviation fresh := (Ledger.fresh seeds).
Local Abbreviation final := (Ledger.final cands seeds).
Local Abbreviation loop_post := (Ledger.loop_post cands seeds).
Local Abbreviation singles_post := (Ledger.singles_post cands seeds).
Local Abbreviation subs_post := (Ledger.subs_post cands seeds).
Local Abbreviation complete := (Ledger.complete cands seeds).

Lemma classified_dec (st : tstate) (p : string) :
  classified st p \/ ~ classified st p.
Proof.
  unfold classified.
  destruct (mem p (safe st)) eqn:Es; [apply mem_In in Es; auto|].
  destruct (mem p (failed st)) eqn:Ef; [apply mem_In in Ef; auto|].
  apply mem_false in Es, Ef. right. tauto.
Qed.

Lemma count_in (l : list string) (x : string) :
  NoDup l -> count_occ string_dec l x = if mem x l then 1 else 0.
Proof.
  intros Hnd. destruct (mem x l) eqn:E.
  - apply mem_In in E. now apply NoDup_count_occ'.
  - apply mem_false in E. now apply count_occ_not_In.
Qed.

(** The plugins booked in both lists. *)
Lemma booked_twice (st : tstate) :
  Led st ->
  let twice := filter (fun p => mem p (failed st)) (safe st) in
  Permutation (safe st ++ failed st) (tested st ++ twice)
  /\ NoDup twice /\ incl twice seeds /\ incl twice cands.
Proof.
  intros L twice.
  assert (Hw : forall x, In x twice <-> In x (safe st) /\ In x (failed st)).
  { intros x. unfold twice. rewrite filter_In, mem_In. tauto. }
  assert (Hn : NoDup twice) by (apply NoDup_filter, L).
  split; [|split; [exact Hn | split]].
  - apply (Permutation_count_occ string_dec). intros x.
    rewrite !count_occ_app.
    rewrite (count_in (safe st)), (count_in (failed st)),
      (count_in (tested st)), (count_in twice) by (exact Hn || apply L).
    pose proof (led_tested L x) as Ht. unfold classified in Ht.
    specialize (Hw x).
    destruct (mem x (safe st)) eqn:Es; destruct (mem x (failed st)) eqn:Ef;
      destruct (mem x (tested st)) eqn:Et; destruct (mem x twice) eqn:Ew;
      try reflexivity; exfalso;
      repeat match goal with
             | H : mem _ _ = true |- _ => apply mem_In in H
             | H : mem _ _ = false |- _ => apply mem_false in H
             end; tauto.
  - intros x Hx. apply Hw in Hx as [Hs Hf]. exact (led_twice L x Hs Hf).
  - intros x Hx. apply Hw in Hx as [_ Hf]. exact (led_failed_src L x Hf).
Qed.

Lemma complete_final (st : tstate) :
  Led st -> (forall p, In p cands -> classified st p) -> final st.
Proof.
  intros L Hc. split; [exact Hc|]. split; [apply L|]. split.
  - intros x. rewrite (led_tested L). unfold classified. split.
    + intros [Hs | Hf];
        [now apply (led_safe_src L) | right; now apply (led_failed_src L)].
    + intros [Hs | Hx]; [left; now apply (led_seeds L) | now apply Hc].
  - exists (filter (fun p => mem p (failed st)) (safe st)).
    exact (booked_twice st L).
Qed.

(** What [final] says in numbers. *)
Lemma final_counts (st : tstate) :
  final st ->
  (forall p, In p cands -> ~ In p seeds ->
             (In p (safe st) /\ ~ In p (failed st))
             \/ (In p (failed st) /\ ~ In p (safe st)))
  /\ List.length (tested st)
     = List.length (filter (fun p => negb (mem p seeds)) cands)
       + List.length seeds
  /\ (forall twice,
         Permutation (safe st ++ failed st) (tested st ++ twice) ->
         List.length (safe st) + List.length (failed st)
         = List.length (tested st) + List.length twice).
Proof.
  intros (Hc & Hnd & Ht & twice & P & Hn & Hts & Htc).
  split; [|split].
  - intros p Hp Hs.
    assert (E : count_occ string_dec (safe st) p
                + count_occ string_dec (failed st) p = 1).
    { rewrite <- count_occ_app.
      rewrite (proj1 (Permutation_count_occ string_dec _ _) P p).
      rewrite count_occ_app.
      rewrite (proj1 (NoDup_count_occ' string_dec (tested st)) Hnd p)
        by (apply Ht; now right).
      rewrite (proj1 (count_occ_not_In string_dec twice p)); [reflexivity|].
      intros Hin. exact (Hs (Hts p Hin)). }
    destruct (Hc p Hp) as [Hin | Hin].
    + left. split; [exact Hin|].
      apply (count_occ_In string_dec) in Hin.
      apply (count_occ_not_In string_dec). lia.
    + right. split; [exact Hin|].
      apply (count_occ_In string_dec) in Hin.
      apply (count_occ_not_In string_dec). lia.
  - rewrite Nat.add_comm, <- length_app. apply Permutation_length.
    apply NoDup_Permutation.
    + exact Hnd.
    + apply NoDup_app; [exact seeds_nodup | now apply NoDup_filter |].
      intros x Hs Hx. apply filter_In in Hx as [_ Hx].
      apply negb_true_iff, mem_false in Hx. contradiction.
    + intros x. rewrite Ht, in_app_iff, filter_In, negb_true_iff, mem_false.
      destruct (mem x seeds) eqn:E;
        [apply mem_In in E | apply mem_false in E]; tauto.
  - intros tw Ptw. rewrite <- !length_app. now apply Permutation_length.
Qed.

(** *** The ledger operations keep the invariants *)

Lemma led_set_hist (h : history) (st : tstate) : Led st -> Led (set_hist h st).
Proof. intros []; constructor; assumption. Qed.

Lemma rem_set_hist (h : history) (st : tstate) : Rem st -> Rem (set_hist h st).
Proof. intros []; constructor; assumption. Qed.

Lemma classified_mark_safe (p q : string) (st : tstate) :
  classified (mark_safe p st) q <-> classified st q \/ q = p.
Proof.
  unfold classified. cbn [mark_safe safe failed]. rewrite add_new_In. tauto.
Qed.

Lemma classified_mark_failed (p q : string) (st : tstate) :
  classified (mark_failed p st) q <-> classified st q \/ q = p.
Proof.
  unfold classified. cbn [mark_failed safe failed]. rewrite add_new_In. tauto.
Qed.

Lemma led_mark_safe (p : string) (st : tstate) :
  Led st -> In p cands -> ~ In p (failed st) -> Led (mark_safe p st).
Proof.
  intros L Hc Hf. constructor; cbn [mark_safe safe failed tested].
  - apply add_new_NoDup, L.
  - apply L.
  - apply add_new_NoDup, L.
  - intros q. fold (classified (mark_safe p st) q).
    rewrite classified_mark_safe, add_new_In, (led_tested L). tauto.
  - intros q Hq Hq'. apply add_new_In in Hq as [Hq | ->];
      [exact (led_twice L q Hq Hq') | contradiction].
  - eapply incl_tran; [apply L | apply add_new_incl].
  - intros q Hq. apply add_new_In in Hq as [Hq | ->]; [now apply L | auto].
  - apply L.
Qed.

Lemma led_mark_failed (p : string) (st : tstate) :
  Led st -> In p cands -> (In p (safe st) -> In p seeds) ->
  Led (mark_failed p st).
Proof.
  intros L Hc Hs. constructor; cbn [mark_failed safe failed tested].
  - apply L.
  - apply add_new_NoDup, L.
  - apply add_new_NoDup, L.
  - intros q. fold (classified (mark_failed p st) q).
    rewrite classified_mark_failed, add_new_In, (led_tested L). tauto.
  - intros q Hq Hf. apply add_new_In in Hf as [Hf | ->];
      [exact (led_twice L q Hq Hf) | now apply Hs].
  - apply L.
  - apply L.
  - intros q Hq. apply add_new_In in Hq as [Hq | ->]; [now apply L | auto].
Qed.

Lemma led_commit (part : list string) (st : tstate) :
  Led st ->
  (forall p, In p part -> In p cands /\ ~ In p (failed st)) ->
  Led (commit part st).
Proof.
  revert st. induction part as [|p part IH]; intros st L H; [exact L|].
  rewrite commit_cons. apply IH.
  - apply led_mark_safe; [assumption | apply H; now left | apply H; now left].
  - intros q Hq. cbn [mark_safe failed]. apply H. now right.
Qed.

Lemma classified_commit (part : list string) (st : tstate) (q : string) :
  classified (commit part st) q <-> classified st q \/ In q part.
Proof.
  unfold classified. rewrite commit_safe_In.
  rewrite (proj1 (commit_fields part st)). tauto.
Qed.

Lemma rem_grow (st st' : tstate) :
  remaining st' = remaining st ->
  (forall p, classified st p -> classified st' p) ->
  Rem st -> Rem st'.
Proof.
  intros Er Hc R. constructor; rewrite Er.
  - apply R.
  - apply R.
  - intros p Hp. destruct (rem_cover R p Hp); auto.
Qed.

Lemma led_same (st st' : tstate) :
  safe st' = safe st -> failed st' = failed st -> tested st' = tested st ->
  Led st -> Led st'.
Proof.
  intros Es Ef Et L.
  constructor; unfold classified; rewrite ?Es, ?Ef, ?Et; apply L.
Qed.

Lemma rem_filter (f : string -> bool) (st : tstate) :
  (forall p, In p (remaining st) -> f p = false -> classified st p) ->
  Rem st -> Rem (set_remaining (filter f (remaining st)) st).
Proof.
  intros Hf R. constructor; cbn [set_remaining remaining].
  - apply NoDup_filter, R.
  - intros p Hp. apply filter_In in Hp as [Hp _]. now apply (rem_src R).
  - intros p Hp. destruct (rem_cover R p Hp) as [Hc | Hr]; [now left|].
    destruct (f p) eqn:E.
    + right. apply filter_In. auto.
    + left. now apply Hf.
Qed.

Lemma rem_drop_safe (st : tstate) : Rem st -> Rem (drop_safe st).
Proof.
  apply rem_filter. intros p _ E. apply negb_false_iff, mem_In in E.
  now left.
Qed.

Lemma rem_drop_classified (st : tstate) : Rem st -> Rem (drop_classified st).
Proof.
  apply rem_filter. intros p _ E. apply andb_false_iff in E as [E | E];
    apply negb_false_iff, mem_In in E; [now right | now left].
Qed.

Lemma fresh_drop_classified (st : tstate) : fresh (drop_classified st).
Proof.
  intros p Hp. cbn [drop_classified set_remaining remaining] in Hp.
  apply unclassified_In in Hp as (_ & Hs & Hf).
  cbn [drop_classified set_remaining safe failed]. tauto.
Qed.

Lemma fresh_drop_safe (st : tstate) :
  (forall p, In p (remaining st) -> ~ In p (failed st)) ->
  fresh (drop_safe st).
Proof.
  intros H p Hp. cbn [drop_safe set_remaining remaining] in Hp.
  apply filter_In in Hp as [Hr Hs]. apply negb_true_iff, mem_false in Hs.
  cbn [drop_safe set_remaining safe failed].
  split; [exact (H p Hr) | intros Hc; contradiction].
Qed.

(** *** How Safe and Failed grow *)

Lemma grown_refl (part : list string) (st : tstate) : grown part st st.
Proof. repeat split; auto using incl_refl. Qed.

Lemma grown_same (part : list string) (st s s' : tstate) :
  safe s' = safe s -> failed s' = failed s ->
  grown part st s -> grown part st s'.
Proof. unfold grown. intros -> ->. tauto. Qed.

Lemma grown_from (part : list string) (st0 st s : tstate) :
  safe st = safe st0 -> failed st = failed st0 ->
  grown part st s -> grown part st0 s.
Proof. unfold grown. intros -> ->. tauto. Qed.

Lemma grown_trans (a b : list string) (st s s' : tstate) :
  grown a st s -> grown b s s' -> grown (a ++ b) st s'.
Proof.
  intros (A1 & A2 & A3 & A4) (B1 & B2 & B3 & B4). repeat split.
  - eapply incl_tran; eassumption.
  - eapply incl_tran; eassumption.
  - intros p Hp. rewrite in_app_iff.
    destruct (B3 p Hp) as [H | H]; [destruct (A3 p H)|]; tauto.
  - intros p Hp. rewrite in_app_iff.
    destruct (B4 p Hp) as [H | H]; [destruct (A4 p H)|]; tauto.
Qed.

Lemma grown_mark_safe (p : string) (st : tstate) :
  grown [p] st (mark_safe p st).
Proof.
  repeat split; cbn [mark_safe safe failed]; auto using incl_refl, add_new_incl.
  intros q Hq. apply add_new_In in Hq as [Hq | ->]; simpl; auto.
Qed.

Lemma grown_mark_failed (p : string) (st : tstate) :
  grown [p] st (mark_failed p st).
Proof.
  repeat split; cbn [mark_failed safe failed]; auto using incl_refl, add_new_incl.
  intros q Hq. apply add_new_In in Hq as [Hq | ->]; simpl; auto.
Qed.

Lemma grown_commit (part : list string) (st : tstate) :
  grown part st (commit part st).
Proof.
  destruct (commit_fields part st) as (Ef & _).
  repeat split; rewrite ?Ef; auto using incl_refl.
  - intros q Hq. apply commit_safe_In. now left.
  - intros q Hq. now apply commit_safe_In in Hq.
Qed.

Lemma classified_grown (part : list string) (st st' : tstate) (p : string) :
  grown part st st' -> classified st p -> classified st' p.
Proof. intros (A & B & _) [H | H]; [left; now apply A | right; now apply B]. Qed.

(** *** The loops *)

Lemma no_exit (h : history) (order : list string) : oracle w h order <> Exited.
Proof.
  destruct (world_classifies h order) as [E | [E | E]]; rewrite E; discriminate.
Qed.

(** Once every candidate is classified, the re-test leaves the books
    as [final] says. *)
Lemma recheck_final (st : tstate) :
  Led st -> (forall p, In p cands -> classified st p) ->
  exists st', recheck st = Finished st' /\ final st'.
Proof.
  intros L Hc. pose proof (complete_final st L Hc) as Hfin.
  destruct (failed st) as [|x xs] eqn:Ef.
  { exists st. split; [unfold Turbo.recheck; now rewrite Ef | exact Hfin]. }
  destruct (wants_retest (answer w)) eqn:Ey.
  - destruct (recheck_spec cfg w st) as
      (st' & mig & new & R & Hs & Ht & _ & Hp & _); auto.
    { rewrite Ef. discriminate. }
    { intros h o. apply no_exit. }
    exists st'. split; [exact R|].
    destruct Hfin as (C & Hnd & Hti & twice & P & Hrest).
    split; [|split; [|split]].
    + intros p Hp'. unfold classified. rewrite Hs, in_app_iff.
      destruct (C p Hp') as [H | H]; [tauto|].
      apply (Permutation_in p Hp), in_app_or in H. tauto.
    + now rewrite Ht.
    + intros p. rewrite Ht. apply Hti.
    + exists twice. split; [|exact Hrest].
      rewrite Hs, Ht, <- app_assoc.
      eapply Permutation_trans; [|exact P].
      apply Permutation_app_head, Permutation_sym. exact Hp.
  - exists st. split; [unfold Turbo.recheck; now rewrite Ef, Ey | exact Hfin].
Qed.

Lemma mega_passed (rem : list string) (st2 st3 : tstate) :
  Led st2 -> Rem st2 ->
  rem = unclassified st2 ->
  safe st3 = safe st2 -> failed st3 = failed st2 -> tested st3 = tested st2 ->
  loop_post (fun _ => False)
            (of_recheck (recheck (set_remaining [] (commit rem st3)))).
Proof.
  intros L R -> Es Efl Et.
  set (s4 := set_remaining [] (commit (unclassified st2) st3)).
  assert (L3 : Led st3) by (now apply (led_same st2)).
  assert (L4 : Led s4).
  { apply (led_same (commit (unclassified st2) st3)); try reflexivity.
    apply led_commit; [exact L3|].
    intros p Hp. apply unclassified_In in Hp as (Hr & _ & Hf).
    split; [now apply (rem_src R) | now rewrite Efl]. }
  assert (C4 : forall p, In p cands -> classified s4 p).
  { intros p Hp.
    assert (E : classified s4 p <-> classified st3 p \/ In p (unclassified st2))
      by apply classified_commit.
    apply E. unfold classified at 1. rewrite Es, Efl.
    destruct (classified_dec st2 p) as [Hc | Hn]; [now left|].
    right. apply unclassified_In.
    destruct (rem_cover R p Hp) as [Hc | Hr]; [contradiction|].
    unfold classified in Hn. tauto. }
  destruct (recheck_final s4 L4 C4) as (st' & Er & Hfin).
  rewrite Er. exact Hfin.
Qed.

(** A plugin no trial has booked: not in Failed, and in Safe only when
    it was seeded. *)
Local Abbreviation unbooked st p :=
  (In p cands /\ ~ In p (failed st) /\ (In p (safe st) -> In p seeds)).

Lemma unbooked_later (part : list string) (st s : tstate) (q : string) :
  grown part st s -> ~ In q part -> unbooked st q -> unbooked s q.
Proof.
  intros (_ & _ & G3 & G4) Hq (Hc & Hf & Hs). split; [exact Hc|]. split.
  - intros H. destruct (G4 q H); contradiction.
  - intros H. destruct (G3 q H); [auto | contradiction].
Qed.

Lemma turbo_singles_ok (sub : list string) (st : tstate) :
  Led st -> Rem st -> NoDup sub ->
  (forall p, In p sub -> unbooked st p) ->
  loop_post (singles_post sub st) (turbo_singles sub st).
Proof.
  revert st. induction sub as [|p rest IH]; intros st L R Hnd Hsub.
  - cbn. split; [exact L|]. split; [exact R|]. split; [reflexivity|].
    split; [apply grown_refl|]. intros q [].
  - inversion Hnd as [|x l Hp Hnr]; subst.
    destruct (Hsub p (or_introl eq_refl)) as (Hpc & Hpf & Hps).
    rewrite turbo_singles_cons.
    set (st1 := set_hist _ st).
    assert (L1 : Led st1) by (apply led_set_hist; exact L).
    assert (R1 : Rem st1) by (apply rem_set_hist; exact R).
    assert (Hnext : forall s,
               Led s -> Rem s -> remaining s = remaining st ->
               grown [p] st s -> classified s p ->
               loop_post (singles_post (p :: rest) st) (turbo_singles rest s)).
    { intros s Ls Rs Ers Gs Hcp.
      assert (Hpre : forall q, In q rest -> unbooked s q).
      { intros q Hq. apply (unbooked_later [p] st s q Gs).
        - intros [<- | []]. contradiction.
        - apply Hsub. now right. }
      pose proof (IH s Ls Rs Hnr Hpre) as Hpost.
      destruct (turbo_singles rest s) as [s' | s' | s']; cbn in Hpost |- *;
        try exact Hpost.
      destruct Hpost as (L' & R' & Er' & G' & Hc').
      split; [exact L'|]. split; [exact R'|]. split; [congruence|].
      split; [exact (grown_trans [p] rest st s s' Gs G')|].
      intros q [<- | Hq];
        [exact (classified_grown rest s s' _ G' Hcp) | now apply Hc']. }
    assert (Hfail : loop_post (singles_post (p :: rest) st)
                              (after_failure rest (mark_failed p st1))).
    { set (st2 := mark_failed p st1).
      assert (L2 : Led st2) by (apply led_mark_failed; auto).
      assert (G2 : grown [p] st st2) by exact (grown_mark_failed p st1).
      assert (C2 : classified st2 p).
      { right. cbn [st2 mark_failed failed]. apply add_new_In. now right. }
      assert (R2 : Rem st2).
      { apply (rem_grow st1); auto. intros q Hq.
        apply classified_mark_failed. now left. }
      destruct (unclassified st2) as [|x xs] eqn:Eu.
      - rewrite after_failure_done by exact Eu. apply Hnext; auto.
      - rewrite after_failure_mega by (rewrite Eu; discriminate).
        rewrite Eu. rewrite <- Eu.
        set (rem := unclassified st2).
        set (st3 := set_hist _ st2).
        destruct (world_classifies (hist st2) (turbo_order (safe st2) rem))
          as [E | [E | E]]; rewrite E.
        + pose proof (mega_passed rem st2 st3
                                  L2 R2 eq_refl eq_refl eq_refl eq_refl) as Hm.
          (* a passing mega batch never hands on to the loop *)
          destruct (of_recheck _); cbn in Hm |- *;
            [contradiction | exact Hm | exact Hm].
        + apply Hnext;
            [now apply led_set_hist | now apply rem_set_hist | reflexivity
            | exact G2 | exact C2].
        + apply Hnext;
            [now apply led_set_hist | now apply rem_set_hist | reflexivity
            | exact G2 | exact C2]. }
    destruct (world_classifies (hist st) (turbo_order (safe st) [p]))
      as [E | [E | E]]; rewrite E; try exact Hfail.
    apply Hnext.
    + apply led_mark_safe; auto.
    + apply (rem_grow st1); auto. intros q Hq.
      apply classified_mark_safe. now left.
    + reflexivity.
    + exact (grown_mark_safe p st1).
    + left. cbn [mark_safe safe]. apply add_new_In. now right.
Qed.

Lemma turbo_subs_ok (subs : list (list string)) (st : tstate) :
  Led st -> Rem st -> fresh st -> NoDup (List.concat subs) ->
  (forall p, In p (List.concat subs) -> unbooked st p) ->
  loop_post (subs_post subs st) (turbo_subs subs st).
Proof.
  revert st. induction subs as [|sub rest IH]; intros st L R F Hnd Hsub.
  - cbn. split; [exact L|]. split; [exact R|]. split; [exact F|].
    split; [apply incl_refl|]. split; [apply grown_refl|]. intros q [].
  - cbn [List.concat] in Hnd, Hsub.
    apply NoDup_app_inv in Hnd as (Hns & Hnr & Hsep).
    rewrite turbo_subs_cons.
    set (st1 := set_hist _ st).
    assert (L1 : Led st1) by (apply led_set_hist; exact L).
    assert (R1 : Rem st1) by (apply rem_set_hist; exact R).
    assert (Hnext : forall s,
               Led s -> Rem s -> fresh s ->
               incl (remaining s) (remaining st) ->
               grown sub st s ->
               (forall q, In q sub -> classified s q /\ ~ In q (remaining s)) ->
               loop_post (subs_post (sub :: rest) st) (turbo_subs rest s)).
    { intros s Ls Rs Fs Is Gs Hcs.
      assert (Hpre : forall q, In q (List.concat rest) -> unbooked s q).
      { intros q Hq. apply (unbooked_later sub st s q Gs).
        - intros Hin. exact (Hsep q Hin Hq).
        - apply Hsub, in_or_app. now right. }
      pose proof (IH s Ls Rs Fs Hnr Hpre) as Hpost.
      destruct (turbo_subs rest s) as [s' | s' | s']; cbn in Hpost |- *;
        try exact Hpost.
      destruct Hpost as (L' & R' & F' & I' & G' & Hc').
      split; [exact L'|]. split; [exact R'|]. split; [exact F'|].
      split; [eapply incl_tran; eassumption|].
      split; [exact (grown_trans sub (List.concat rest) st s s' Gs G')|].
      intros q Hq. apply in_app_or in Hq as [Hq | Hq]; [|now apply Hc'].
      destruct (Hcs q Hq) as [C N].
      split; [exact (classified_grown _ s s' q G' C)|].
      intros Hin. apply N, I', Hin. }
    assert (Hcrash : loop_post (subs_post (sub :: rest) st)
                       match turbo_singles sub st1 with
                       | Next st2 => turbo_subs rest (drop_classified st2)
                       | other => other
                       end).
    { assert (Hpre : forall q, In q sub -> unbooked st1 q).
      { intros q Hq. apply (Hsub q). apply in_or_app. now left. }
      pose proof (turbo_singles_ok sub st1 L1 R1 Hns Hpre) as Hpost.
      destruct (turbo_singles sub st1) as [st2 | st2 | st2]; cbn in Hpost;
        try exact Hpost.
      destruct Hpost as (L2 & R2 & Er2 & G2 & Hc2).
      apply Hnext.
      - now apply (led_same st2).
      - now apply rem_drop_classified.
      - apply fresh_drop_classified.
      - cbn [drop_classified set_remaining remaining].
        intros q Hq. apply unclassified_In in Hq as (Hr & _).
        rewrite Er2 in Hr. exact Hr.
      - exact G2.
      - intros q Hq. split; [exact (Hc2 q Hq)|].
        cbn [drop_classified set_remaining remaining]. intros Hin.
        apply unclassified_In in Hin as (_ & Hs & Hf).
        destruct (Hc2 q Hq); contradiction. }
    destruct (world_classifies (hist st) (turbo_order (safe st) sub))
      as [E | [E | E]]; rewrite E; try exact Hcrash.
    assert (L2 : Led (commit sub st1)).
    { apply led_commit; [exact L1|]. intros q Hq.
      destruct (Hsub q (in_or_app _ _ q (or_introl Hq))) as (Hqc & Hqf & _).
      split; assumption. }
    destruct (commit_fields sub st1) as (Ef & Er & _).
    apply Hnext.
    + now apply (led_same (commit sub st1)).
    + apply rem_drop_safe. apply (rem_grow st1); auto.
      intros q Hq. apply classified_commit. now left.
    + apply fresh_drop_safe. rewrite Ef, Er. intros q Hq.
      exact (proj1 (F q Hq)).
    + cbn [drop_safe set_remaining remaining]. rewrite Er.
      intros q Hq. apply filter_In in Hq. tauto.
    + exact (grown_commit sub st1).
    + intros q Hq.
      assert (Hs : In q (safe (commit sub st1)))
        by (apply commit_safe_In; now right).
      split; [now left|].
      cbn [drop_safe set_remaining remaining]. intros Hin.
      apply filter_In in Hin as [_ Hin].
      apply negb_true_iff, mem_false in Hin. contradiction.
Qed.

Lemma shorter (l l' : list string) (x : string) :
  NoDup l' -> incl l' l -> In x l -> ~ In x l' ->
  List.length l' < List.length l.
Proof.
  intros Hnd Hi Hx Hn.
  apply Nat.le_lt_trans with (List.length (remove string_dec x l)).
  - apply NoDup_incl_length; [exact Hnd|].
    intros y Hy. apply in_in_remove; [|now apply Hi].
    intros ->. contradiction.
  - now apply remove_length_lt.
Qed.

Lemma py_prefix_head (x : string) (xs : list string) :
  exists k, py_prefix (BATCH_SIZE cfg) (x :: xs) = x :: firstn k xs.
Proof.
  unfold py_prefix. destruct (Z.leb_spec 0 (BATCH_SIZE cfg)); [|lia].
  destruct (Z.to_nat (BATCH_SIZE cfg)) as [|k] eqn:E; [lia|].
  now exists k.
Qed.

Lemma firstn_incl {A : Type} (k : nat) (l : list A) : incl (firstn k l) l.
Proof.
  intros a Ha. rewrite <- (firstn_skipn k l). apply in_or_app. now left.
Qed.

Lemma firstn_NoDup {A : Type} (k : nat) (l : list A) :
  NoDup l -> NoDup (firstn k l).
Proof.
  intros H. rewrite <- (firstn_skipn k l) in H.
  now apply NoDup_app_remove_r in H.
Qed.

Lemma turbo_while_ok (fuel : nat) (st : tstate) :
  Led st -> Rem st -> fresh st ->
  match turbo_while fuel st with
  | None => True
  | Some r => loop_post complete r
  end
  /\ ((forall h order, oracle w h order <> Paused) ->
      List.length (remaining st) < fuel ->
      turbo_while fuel st <> None).
Proof.
  revert st. induction fuel as [|fuel IH]; intros st L R F.
  - split; [|lia]. cbn. destruct (remaining st) eqn:Er; [|exact I].
    cbn. split; [exact L|]. intros p Hp.
    destruct (rem_cover R p Hp) as [Hc | Hr]; [exact Hc|].
    rewrite Er in Hr. destruct Hr.
  - destruct (remaining st) as [|x xs] eqn:Er.
    { cbn [Turbo.turbo_while]. rewrite Er. split; [|discriminate].
      cbn. split; [exact L|]. intros p Hp.
      destruct (rem_cover R p Hp) as [Hc | Hr]; [exact Hc|].
      rewrite Er in Hr. destruct Hr. }
    rewrite turbo_while_step by (rewrite Er; discriminate).
    rewrite Er.
    destruct (py_prefix_head x xs) as [k Ek].
    set (batch := py_prefix (BATCH_SIZE cfg) (x :: xs)) in *.
    set (st1 := set_hist _ st).
    assert (L1 : Led st1) by (apply led_set_hist; exact L).
    assert (R1 : Rem st1) by (apply rem_set_hist; exact R).
    assert (Hbi : incl batch (remaining st)).
    { rewrite Er, Ek. intros q [<- | Hq]; [now left|].
      right. now apply (firstn_incl k xs). }
    assert (Hbn : NoDup batch).
    { rewrite Ek. change (x :: firstn k xs) with (firstn (S k) (x :: xs)).
      apply firstn_NoDup. rewrite <- Er. apply R. }
    assert (Hbx : In x batch) by (rewrite Ek; now left).
    assert (Hpre : forall q, In q batch -> unbooked st1 q).
    { intros q Hq. split; [apply (rem_src R), Hbi, Hq | apply F, Hbi, Hq]. }
    assert (Hnext : forall s,
               Led s -> Rem s -> fresh s ->
               incl (remaining s) (remaining st) ->
               ~ In x (remaining s) ->
               match turbo_while fuel s with
               | None => True
               | Some r => loop_post complete r
               end
               /\ ((forall h order, oracle w h order <> Paused) ->
                   List.length (x :: xs) < S fuel ->
                   turbo_while fuel s <> None)).
    { intros s Ls Rs Fs Is Hx.
      destruct (IH s Ls Rs Fs) as [A B]. split; [exact A|].
      intros Hnp Hlen. apply B; [exact Hnp|].
      assert (List.length (remaining s) < List.length (remaining st)).
      { apply (shorter (remaining st) (remaining s) x).
        - apply Rs.
        - exact Is.
        - rewrite Er. now left.
        - exact Hx. }
      rewrite Er in H. lia. }
    destruct (world_classifies (hist st) (turbo_order (safe st) batch))
      as [E | [E | E]]; rewrite E.
    + (* the batch passed *)
      destruct (commit_fields batch st1) as (Ef & Erem & _).
      apply Hnext.
      * apply (led_same (commit batch st1)); try reflexivity.
        apply led_commit; [exact L1|]. intros q Hq.
        destruct (Hpre q Hq) as (Hqc & Hqf & _). split; assumption.
      * apply rem_drop_safe. apply (rem_grow st1); auto.
        intros q Hq. apply classified_commit. now left.
      * apply fresh_drop_safe. rewrite Ef, Erem. intros q Hq.
        exact (proj1 (F q Hq)).
      * cbn [drop_safe set_remaining remaining]. rewrite Erem.
        intros q Hq. apply filter_In in Hq. tauto.
      * cbn [drop_safe set_remaining remaining]. intros Hin.
        apply filter_In in Hin as [_ Hin].
        apply negb_true_iff, mem_false in Hin. apply Hin.
        apply commit_safe_In. now right.
    + (* the batch crashed *)
      assert (Hcat : List.concat (sub_batches (sub_size_of batch) batch) = batch)
        by (apply concat_sub_batches, sub_size_of_pos).
      pose proof (turbo_subs_ok (sub_batches (sub_size_of batch) batch) st1
                                L1 R1 F) as Hpost.
      rewrite Hcat in Hpost. specialize (Hpost Hbn Hpre).
      destruct (turbo_subs (sub_batches (sub_size_of batch) batch) st1)
        as [st2 | st2 | st2]; cbn in Hpost.
      * destruct Hpost as (L2 & R2 & F2 & I2 & G2 & Hc2).
        apply Hnext; auto. apply (Hc2 x). rewrite Hcat. exact Hbx.
      * split; [|discriminate]. cbn.
        (* returned after a passing mega batch *)
        exact Hpost.
      * destruct Hpost.
    + (* paused: the same batch again *)
      destruct (IH st1 L1 R1 F) as [A _]. split; [exact A|].
      intros Hnp _. exfalso. exact (Hnp _ _ E).
Qed.

End WithCandidates.

(** C6 (amended).  Take turbo mode as [isolate_esps] starts it (Safe
    empty), a positive batch size, pairwise distinct candidates, and a
    world in which no order-file write and no launch fails and the
    operator never leaves (every attempt ends Passed, Crashed or Paused).
    The seeds are the distinct required and optional plugins, which are
    put into Safe and Tested before any trial.  Then a run never ends by
    exit, and when it returns:
    - every candidate is in Safe or in Failed, and a candidate that is not
      a seed is in exactly one of them;
    - Tested holds the seeds and the candidates, each once, so [|Tested|]
      is the number of seeds plus the number of candidates that are not
      seeds;
    - Safe and Failed together hold every plugin of Tested once, and once
      more the plugins of a list [twice] of distinct candidates that are
      also seeds, so [|Safe| + |Failed| = |Tested| + |twice|];
    - when no candidate is a seed, every candidate is in exactly one of
      Safe and Failed and
      [|Safe| + |Failed| = |Tested| = |candidates| + |seeds|].
    If moreover the operator never pauses, the run does return, within
    one turn of the outer loop per candidate. *)
Theorem turbo_conservation
    (cfg : config) (w : world) (fuel : nat)
    (to_test patch_plugins : list string) :
  let cands := to_test ++ patch_plugins in
  let seeds := safe (seed cfg (turbo_init to_test patch_plugins [])) in
  (0 < BATCH_SIZE cfg)%Z ->
  NoDup cands ->
  classifying w ->
  (NoDup seeds
   /\ forall p, In p seeds
                <-> In p (REQUIRED_PLUGINS cfg ++ OPTIONAL_PATCHES cfg))
  /\ (forall st,
         turbo_batch_mode cfg w fuel to_test patch_plugins [] = Some (Finished st) ->
         (forall p, In p cands -> In p (safe st) \/ In p (failed st))
         /\ (forall p, In p cands -> ~ In p seeds ->
                       (In p (safe st) /\ ~ In p (failed st))
                       \/ (In p (failed st) /\ ~ In p (safe st)))
         /\ NoDup (tested st)
         /\ (forall p, In p (tested st) <-> In p seeds \/ In p cands)
         /\ List.length (tested st)
            = List.length (filter (fun p => negb (mem p seeds)) cands)
              + List.length seeds
         /\ (exists twice,
                Permutation (safe st ++ failed st) (tested st ++ twice)
                /\ NoDup twice /\ incl twice seeds /\ incl twice cands
                /\ List.length (safe st) + List.length (failed st)
                   = List.length (tested st) + List.length twice)
         /\ ((forall p, In p cands -> ~ In p seeds) ->
             (forall p, In p cands ->
                        (In p (safe st) /\ ~ In p (failed st))
                        \/ (In p (failed st) /\ ~ In p (safe st)))
             /\ List.length (safe st) + List.length (failed st)
                = List.length (tested st)
             /\ List.length (tested st)
                = List.length cands + List.length seeds))
  /\ (forall st,
         turbo_batch_mode cfg w fuel to_test patch_plugins [] <> Some (Quit st))
  /\ ((forall h order, oracle w h order <> Paused) ->
      List.length cands < fuel ->
      exists st,
        turbo_batch_mode cfg w fuel to_test patch_plugins [] = Some (Finished st)).
Proof.
  intros cands seeds Hbs Hnd Hw.
  set (st0 := seed cfg (turbo_init to_test patch_plugins [])) in *.
  destruct (commit_fields (REQUIRED_PLUGINS cfg ++ OPTIONAL_PATCHES cfg)
              (turbo_init to_test patch_plugins [])) as (Ef & Er & _).
  fold (seed cfg (turbo_init to_test patch_plugins [])) in Ef, Er.
  fold st0 in Ef, Er. cbn [turbo_init failed remaining] in Ef, Er.
  fold cands in Er.
  assert (Hst : safe st0 = tested st0) by (now apply commit_same).
  assert (Hsn : NoDup seeds) by (apply commit_NoDup; constructor).
  assert (Hsi : forall p, In p seeds
                          <-> In p (REQUIRED_PLUGINS cfg ++ OPTIONAL_PATCHES cfg)).
  { intros p. unfold seeds, st0, seed. rewrite commit_safe_In.
    cbn [turbo_init safe]. simpl. tauto. }
  assert (L0 : Led cands seeds st0).
  { constructor; unfold classified; rewrite ?Ef, <- ?Hst; fold seeds; auto.
    - constructor.
    - intros p. simpl. tauto.
    - apply incl_refl.
    - intros p []. }
  assert (R0 : Rem cands st0).
  { constructor; rewrite ?Er; auto using incl_refl. }
  assert (F0 : fresh seeds st0).
  { intros p Hp. rewrite Ef. split; [intros [] | auto]. }
  destruct (turbo_while_ok cfg w cands seeds Hw Hbs fuel st0 L0 R0 F0)
    as [Hpart Hterm].
  assert (Hrun : forall st,
             turbo_batch_mode cfg w fuel to_test patch_plugins [] = Some (Finished st) ->
             final cands seeds st).
  { intros st. unfold Turbo.turbo_batch_mode. fold st0.
    destruct (Turbo.turbo_while cfg w fuel st0) as [[s | s | s]|];
      cbn in Hpart; try discriminate.
    - destruct Hpart as [Ls Cs].
      destruct (recheck_final cfg w cands seeds Hw s Ls Cs)
        as (s' & E & Hfin).
      rewrite E. intros [= <-]. exact Hfin.
    - intros [= <-]. exact Hpart. }
  split; [split; assumption|]. split; [|split].
  - intros st Hst'. apply Hrun in Hst'.
    destruct (final_counts cands seeds Hnd Hsn st Hst') as (Hone & Hlen & Hsum).
    destruct Hst' as (Hc & Htn & Hti & twice & P & Hn & Hts & Htc).
    split; [exact Hc|]. split; [exact Hone|]. split; [exact Htn|].
    split; [exact Hti|]. split; [exact Hlen|]. split.
    + exists twice. repeat split; auto.
    + intros Hsep.
      assert (Et : twice = []).
      { destruct twice as [|t tw]; [reflexivity|]. exfalso.
        apply (Hsep t); [apply Htc | apply Hts]; now left. }
      subst twice. specialize (Hsum [] P). cbn [List.length] in Hsum.
      split; [intros p Hp; apply Hone; auto|]. split; [lia|].
      rewrite Hlen. f_equal. f_equal. apply forallb_filter_id.
      apply forallb_forall. intros p Hp.
      apply negb_true_iff, mem_false. now apply Hsep.
  - intros st. unfold Turbo.turbo_batch_mode. fold st0.
    destruct (Turbo.turbo_while cfg w fuel st0) as [[s | s | s]|];
      cbn in Hpart; try discriminate.
    + destruct Hpart as [Ls Cs].
      destruct (recheck_final cfg w cands seeds Hw s Ls Cs)
        as (s' & E & _).
      rewrite E. discriminate.
    + destruct Hpart.
  - intros Hnp Hlen. rewrite <- Er in Hlen.
    specialize (Hterm Hnp Hlen).
    unfold Turbo.turbo_batch_mode. fold st0.
    destruct (Turbo.turbo_while cfg w fuel st0) as [[s | s | s]|];
      cbn in Hpart; try congruence.
    + destruct Hpart as [Ls Cs].
      destruct (recheck_final cfg w cands seeds Hw s Ls Cs)
        as (s' & E & _).
      exists s'. now rewrite E.
    + now exists s.
    + destruct Hpart.
Qed.

End Conservation.

(** ** Turbo batch mode on concrete runs *)

Module TurboCases.

Import PyStr PyStrFacts Engine EngineFacts Turbo TurboFacts Conservation Scenarios
       MoreScenarios.
Local Open Scope string_scope.
Local Open Scope list_scope.
Local Open Scope nat_scope.

Lemma culprit_classifies (bad : string) : classifying (culprit bad).
Proof. intros h o. simpl. destruct (mem bad o); auto. Qed.

Lemma scripted_classifies (events : list event) :
  Forall (fun e => e = Passed \/ e = Crashed \/ e = Paused) events ->
  classifying (scripted events Passed).
Proof.
  intros H h o. simpl. revert events H.
  induction (List.length h) as [|n IH]; intros [|e es] H; simpl; auto.
  - now inversion H.
  - inversion H; subst. now apply IH.
Qed.

Lemma required_optional_always_safe_witness :
  exists st,
    turbo_batch_mode cfg_small (culprit "c.esp") 5 batch5 [] [] = Some (Finished st)
    /\ In "Oblivion.esm" (safe st)
    /\ Forall (fun part => ~ In "Oblivion.esm" part) (partitions (hist st)).
Proof.
  destruct (turbo_batch_mode cfg_small (culprit "c.esp") 5 batch5 [] [])
    as [[st | st]|] eqn:E; try (vm_compute in E; discriminate E).
  exists st. split; [reflexivity|]. split.
  - destruct (required_optional_always_safe cfg_small (culprit "c.esp") 5
                batch5 [] []) as (_ & _ & _ & _ & _ & H).
    apply (H st E). now left.
  - vm_compute in E. injection E as <-. vm_compute.
    repeat constructor; intros H; repeat (destruct H as [H | H]; try discriminate H);
      exact H.
Defined.

Lemma mega_batch_after_failure_witness :
  (exists stf,
      turbo_singles cfg_small (culprit "c.esp") ["c.esp"; "d.esp"] ledger_ab
      = Return stf
      /\ In "d.esp" (safe stf) /\ In "e.esp" (safe stf)
      /\ outcomes (hist stf)
         = [(["c.esp"], Crashed); (["d.esp"; "e.esp"], Passed);
            (["c.esp"], Crashed)])
  /\ (let w := scripted [Crashed; Crashed] Passed in
      let st1 := set_hist [next_attempt w ["c.esp"]
                             (turbo_order cfg_small (safe ledger_ab) ["c.esp"])
                             ledger_ab] ledger_ab in
      let st2 := mark_failed "c.esp" st1 in
      turbo_singles cfg_small w ["c.esp"; "d.esp"] ledger_ab
      = turbo_singles cfg_small w ["d.esp"]
          (set_hist (next_attempt w ["d.esp"; "e.esp"]
                       (turbo_order cfg_small (safe st2) ["d.esp"; "e.esp"]) st2
                     :: hist st2) st2))
  /\ (let w := culprit "c.esp" in
      let st1 := set_hist [next_attempt w ["c.esp"]
                             (turbo_order cfg_small (safe ledger_ab) ["c.esp"])
                             ledger_ab] ledger_ab in
      let st2 := mark_failed "c.esp" st1 in
      let rem := unclassified st2 in
      rem = ["d.esp"; "e.esp"]
      /\ t_order (next_attempt w rem (turbo_order cfg_small (safe st2) rem) st2)
         = ["Oblivion.esm"; "a.esp"; "b.esp"; "d.esp"; "e.esp"]).
Proof.
  split; [|split].
  - destruct (mega_batch_after_failure cfg_small (culprit "c.esp")
                "c.esp" ["d.esp"] ledger_ab)
      as (_ & _ & P & _); [reflexivity | discriminate |].
    destruct P as (stf & new & [R | R] & Hin & Hh & _); [reflexivity | |].
    + exists stf. split; [exact R|].
      split; [apply Hin; now left|].
      split; [apply Hin; right; now left|].
      vm_compute in R. injection R as <-. reflexivity.
    + vm_compute in R. discriminate R.
  - intros w st1 st2.
    destruct (mega_batch_after_failure cfg_small w "c.esp" ["d.esp"] ledger_ab)
      as (_ & _ & _ & C & _); [reflexivity | discriminate |].
    destruct C as [E _]; [reflexivity|]. exact E.
  - intros w st1 st2 rem. split; [reflexivity|].
    destruct (mega_batch_after_failure cfg_small w "c.esp" ["d.esp"] ledger_ab)
      as (_ & _ & _ & _ & _ & _ & _ & _ & _ & _ & _ & _ & O);
      [reflexivity | discriminate |].
    cbv zeta in O. etransitivity; [apply O | reflexivity].
    + vm_compute. repeat constructor; simpl; intuition discriminate.
    + repeat constructor; discriminate.
Defined.

Lemma recheck_migration_witness :
  exists st' migrated,
    recheck cfg_small y_crashes ledger_xy = Finished st'
    /\ safe st' = safe ledger_xy ++ migrated
    /\ Permutation (failed ledger_xy) (migrated ++ failed st')
    /\ (forall p, In p migrated -> count_occ string_dec (safe st') p = 1)
    /\ (forall p, In p (safe st') -> ~ In p (failed st'))
    /\ migrated = ["x.esp"]
    /\ failed st' = ["y.esp"].
Proof.
  destruct (recheck_migration cfg_small y_crashes ledger_xy) as (_ & _ & H).
  destruct H
    as (st' & mig & new & R & Hs & _ & Hp & Hh & _ & _ & Hfin & Em & Ef & _).
  - discriminate.
  - reflexivity.
  - intros h o. simpl. destruct (mem "y.esp" o); discriminate.
  - exists st', mig. split; [exact R|]. split; [exact Hs|]. split; [exact Hp|].
    destruct Hfin as [A B].
    + repeat constructor; simpl; intuition discriminate.
    + simpl. intros p [<- | [<- | []]]; intuition discriminate.
    + split; [intros p Hi; now apply A|]. split; [exact B|].
      assert (En : new = hist st').
      { rewrite Hh. cbn [ledger_xy hist]. now rewrite app_nil_r. }
      rewrite Em, Ef, En. clear - R.
      vm_compute in R. injection R as <-. split; reflexivity.
Defined.

(** C5, as stated, fails: with [x.esp] and [y.esp] in Failed and a game
    that now passes, the re-test of [x.esp] appends it to Safe and leaves
    it in Failed; the re-test of [y.esp] is then made from that state, with
    [x.esp] loaded as a safe plugin while it is still listed as failed. *)
Lemma recheck_keeps_in_both :
  exists s1,
    recheck_step cfg_small all_pass "x.esp" ledger_xy [] = Finished (s1, [])
    /\ In "x.esp" (safe s1) /\ In "x.esp" (failed s1)
    /\ recheck_loop cfg_small all_pass ["x.esp"; "y.esp"] ledger_xy []
       = recheck_loop cfg_small all_pass ["y.esp"] s1 []
    /\ recheck_order cfg_small all_pass s1 "y.esp"
       = ["Oblivion.esm"; "a.esp"; "x.esp"; "y.esp"].
Proof.
  eexists. split; [vm_compute; reflexivity|].
  split; [simpl; tauto|]. split; [simpl; tauto|].
  split; reflexivity.
Qed.

Lemma scripted_no_pause (events : list event) :
  Forall (fun e => e <> Paused) events ->
  forall h order, oracle (scripted events Passed) h order <> Paused.
Proof.
  intros H h o. simpl. revert events H.
  induction (List.length h) as [|n IH]; intros [|e es] H; simpl;
    try discriminate.
  - now inversion H.
  - inversion H; subst. now apply IH.
Qed.

Lemma turbo_conservation_witness :
  (exists st,
      turbo_batch_mode cfg_small (culprit "c.esp") 6 batch5 [] []
      = Some (Finished st)
      /\ List.length (safe st) + List.length (failed st)
         = List.length (tested st)
      /\ List.length (tested st) = 5 + 1)
  /\ (exists st twice,
         turbo_batch_mode cfg_fix noisy 3 ["a.esp"] ["fix.esp"] []
         = Some (Finished st)
         /\ (In "a.esp" (safe st) /\ ~ In "a.esp" (failed st)
             \/ In "a.esp" (failed st) /\ ~ In "a.esp" (safe st))
         /\ (In "fix.esp" (safe st) \/ In "fix.esp" (failed st))
         /\ List.length (tested st) = 1 + 2
         /\ List.length (safe st) + List.length (failed st)
            = List.length (tested st) + List.length twice
         /\ incl twice ["fix.esp"]).
Proof.
  split.
  - destruct (turbo_conservation cfg_small (culprit "c.esp") 6 batch5 [])
      as (_ & Hrun & _ & Hterm).
    + reflexivity.
    + repeat constructor; simpl; intuition discriminate.
    + apply culprit_classifies.
    + destruct Hterm as [st E].
      * intros h o. simpl. destruct (mem "c.esp" o); discriminate.
      * simpl. lia.
      * exists st. split; [exact E|].
        destruct (Hrun st E) as (_ & _ & _ & _ & _ & _ & H).
        destruct H as (_ & A & B); [|split; [exact A | exact B]].
        simpl. intros p H1 H2.
        repeat (destruct H1 as [H1 | H1]; [subst p; intuition discriminate|]).
        exact H1.
  - destruct (turbo_conservation cfg_fix noisy 3 ["a.esp"] ["fix.esp"])
      as (_ & Hrun & _ & Hterm).
    + reflexivity.
    + repeat constructor; simpl; intuition discriminate.
    + apply scripted_classifies.
      repeat (apply Forall_cons; [auto|]). apply Forall_nil.
    + destruct Hterm as [st E].
      * apply scripted_no_pause.
        repeat (apply Forall_cons; [discriminate|]). apply Forall_nil.
      * simpl. lia.
      * destruct (Hrun st E) as (C & One & _ & _ & Len & Tw & _).
        destruct Tw as (twice & _ & _ & Hs & Hc & Sum).
        exists st, twice. split; [exact E|]. split; [|split; [|split; [|split]]].
        -- apply One; [now left|].
           simpl. intuition discriminate.
        -- apply C. right. now left.
        -- exact Len.
        -- exact Sum.
        -- intros p Hp. pose proof (Hs p Hp) as H1. pose proof (Hc p Hp) as H2.
           simpl in H1, H2.
           destruct H2 as [<- | [<- | []]]; [|now left].
           exfalso. intuition discriminate.
Defined.

(** X31.  Turbo mode can book a plugin twice.  The patch is seeded into
    Safe before any trial; it is a candidate too, its single trial
    crashes, and the failure branch of the single-plugin loop appends it
    to Failed without looking at Safe.  The re-test crashes as well, so
    the run ends with the patch both in Safe and in Failed. *)
Lemma turbo_books_twice :
  exists st,
    turbo_batch_mode cfg_fix noisy 3 ["a.esp"] ["fix.esp"] []
    = Some (Finished st)
    /\ safe st = ["Oblivion.esm"; "fix.esp"; "a.esp"]
    /\ failed st = ["fix.esp"]
    /\ tested st = ["Oblivion.esm"; "fix.esp"; "a.esp"]
    /\ outcomes (hist st)
       = [(["a.esp"; "fix.esp"], Crashed); (["a.esp"], Passed);
          (["fix.esp"], Crashed); (["fix.esp"], Crashed);
          (["fix.esp"], Crashed)].
Proof.
  eexists. split; [vm_compute; reflexivity|]. repeat split.
Qed.

(** C6, as stated, fails: one candidate, every trial passes, and turbo
    mode ends with two names in Safe and in Tested, because the required
    plugin was booked there before any trial. *)
Lemma turbo_counts_seeds :
  exists st,
    turbo_batch_mode cfg_small (scripted [] Passed) 2 ["a.esp"] [] []
    = Some (Finished st)
    /\ safe st = ["Oblivion.esm"; "a.esp"]
    /\ failed st = []
    /\ tested st = ["Oblivion.esm"; "a.esp"]
    /\ List.length (safe st) + List.length (failed st)
       <> List.length ["a.esp"]
    /\ List.length (tested st) <> List.length ["a.esp"].
Proof.
  eexists. split; [vm_compute; reflexivity|].
  repeat split; simpl; discriminate.
Qed.

End TurboCases.

(** ** The process oracle: what every call does *)

Module OracleMore.

Import Oracle Scenarios OracleFacts OracleCases.
Local Open Scope nat_scope.

Lemma grace_log (obs : observations) (n : nat) (st : ostate) :
  exists k,
    k <= n
    /\ log (snd (grace obs n st)) = repeat (Sleep (1 # 10)) k ++ log st
    /\ reads (snd (grace obs n st)) = reads st.
Proof.
  revert st. induction n as [|n IH]; intros st.
  - exists 0. simpl. auto.
  - cbn [grace get_game_pid]. destruct (pid_found obs (polls st)).
    + exists 0. simpl. split; [lia | auto].
    + destruct (IH (act (Sleep (1 # 10))
                        {| reads := reads st; polls := S (polls st);
                           checks := checks st; log := log st |}))
        as (k & Hk & Hl & Hr).
      exists (S k). split; [lia|]. rewrite Hl, Hr. cbn [act log reads].
      split; [|reflexivity].
      change (Sleep (1 # 10) :: log st) with ([Sleep (1 # 10)] ++ log st).
      rewrite app_assoc. f_equal.
      change [Sleep (1 # 10)] with (repeat (Sleep (1 # 10)) 1).
      rewrite <- repeat_app. now rewrite Nat.add_1_r.
Qed.

Lemma only_sleeps_repeat (q : Q) (k : nat) : only_sleeps (repeat (Sleep q) k).
Proof.
  unfold only_sleeps. induction k; simpl; constructor; eauto.
Qed.

Lemma watch_log (fuel : nat) (W : Z) (turbo : bool) (obs : observations)
    (start : Q) (st0 st : ostate) (o : outcome) :
  watch fuel W turbo obs start st0 = Some (o, st) ->
  exists sl, log st = ForceClose :: sl ++ log st0 /\ only_sleeps sl.
Proof.
  revert st0. induction fuel as [|fuel IH]; intros st0; [discriminate|].
  cbn [watch read_clock check_for_manual_pause get_game_pid].
  cbn [reads polls checks log].
  destruct (Qltb _ _).
  - destruct (key obs (checks st0)).
    + destruct (pid_found obs (polls st0)); cbn [negb].
      * intros H. apply IH in H as (sl & Hl & Hs).
        cbn [act log] in Hl.
        exists (sl ++ [Sleep (poll_interval turbo)]). split.
        -- rewrite Hl. now rewrite <- app_assoc.
        -- apply Forall_app. split; [exact Hs|]. constructor; eauto.
      * intros [= <- <-]. exists []. split; [reflexivity | constructor].
    + intros [= <- <-]. exists []. split; [reflexivity | constructor].
    + intros [= <- <-]. exists []. split; [reflexivity | constructor].
    + intros [= <- <-]. exists []. split; [reflexivity | constructor].
  - intros [= <- <-]. exists []. split; [reflexivity | constructor].
Qed.

(** X1.  However a call of [wait_and_check_crash] ends (True, False, the
    pause exception or exit), it has force-closed the game exactly once,
    as its last action; everything it did before was sleeping. *)
Theorem wait_and_check_crash_closes_once
    (fuel : nat) (WAIT_SECONDS : Z) (TURBO_MODE : bool) (obs : observations)
    (o : outcome) (st : ostate) :
  wait_and_check_crash fuel WAIT_SECONDS TURBO_MODE obs = Some (o, st) ->
  exists sl, log st = ForceClose :: sl /\ only_sleeps sl.
Proof.
  unfold wait_and_check_crash, read_clock. cbn [reads polls checks log ostate0].
  set (st0 := {| reads := 1; polls := 0; checks := 0; log := [] |}).
  destruct (grace_log obs 30 st0) as (k & _ & Hl & _).
  destruct (grace obs 30 st0) as [found st1]. cbn [snd] in Hl.
  destruct found.
  - intros H. apply watch_log in H as (sl & Hs & Ho).
    exists (sl ++ log st1). split; [exact Hs|].
    apply Forall_app. split; [exact Ho|]. rewrite Hl. cbn [st0 log].
    rewrite app_nil_r. apply only_sleeps_repeat.
  - intros [= <- <-]. exists (log st1). split; [reflexivity|].
    rewrite Hl. cbn [st0 log]. rewrite app_nil_r. apply only_sleeps_repeat.
Qed.

Lemma wait_and_check_crash_closes_once_witness :
  exists st sl,
    wait_and_check_crash 20 11 false (obs_key Resume) = Some (PauseRaised, st)
    /\ log st = ForceClose :: sl /\ only_sleeps sl.
Proof.
  destruct (wait_and_check_crash 20 11 false (obs_key Resume))
    as [[o st]|] eqn:E; [|vm_compute in E; discriminate E].
  assert (Ho : o = PauseRaised).
  { vm_compute in E. now injection E as <- _. }
  subst o. exists st.
  destruct (wait_and_check_crash_closes_once 20 11 false (obs_key Resume)
              PauseRaised st E) as (sl & Hl & Hs).
  exists sl. auto.
Defined.

Lemma watch_ends (W : Z) (turbo : bool) (obs : observations) (start : Q)
    (n fuel : nat) (st : ostate) :
  ~ (now obs (reads st + n) - start < inject_Z W)%Q ->
  n < fuel ->
  watch fuel W turbo obs start st <> None.
Proof.
  revert fuel st. induction n as [|n IH]; intros fuel st Hlate Hf;
    (destruct fuel as [|fuel]; [lia|]);
    cbn [watch read_clock check_for_manual_pause get_game_pid];
    cbn [reads polls checks log].
  - rewrite Nat.add_0_r in Hlate. apply Qltb_nlt in Hlate. rewrite Hlate.
    discriminate.
  - destruct (Qltb _ _); [|discriminate].
    destruct (key obs (checks st)); try discriminate.
    destruct (pid_found obs (polls st)); cbn [negb]; [|discriminate].
    apply IH; [|lia]. cbn [act reads].
    now replace (S (reads st) + n) with (reads st + S n) by lia.
Qed.

(** X2.  [wait_and_check_crash] cannot hang once the clock moves: if the
    [n]-th reading of the clock inside the watch loop is at or past the
    deadline, the call ends within [n + 1] tests of the loop. *)
Theorem wait_and_check_crash_returns
    (fuel n : nat) (WAIT_SECONDS : Z) (TURBO_MODE : bool) (obs : observations) :
  ~ (now obs (1 + n) - now obs 0 < inject_Z WAIT_SECONDS)%Q ->
  n < fuel ->
  exists o st, wait_and_check_crash fuel WAIT_SECONDS TURBO_MODE obs = Some (o, st).
Proof.
  intros Hlate Hf.
  assert (H : wait_and_check_crash fuel WAIT_SECONDS TURBO_MODE obs <> None).
  { unfold wait_and_check_crash, read_clock.
    cbn [reads polls checks log ostate0].
    set (st0 := {| reads := 1; polls := 0; checks := 0; log := [] |}).
    destruct (grace_log obs 30 st0) as (k & _ & _ & Hr).
    destruct (grace obs 30 st0) as [found st1]. cbn [snd] in Hr.
    destruct found; [|discriminate].
    apply (watch_ends WAIT_SECONDS TURBO_MODE obs (now obs 0) n); [|exact Hf].
    rewrite Hr. exact Hlate. }
  destruct (wait_and_check_crash fuel WAIT_SECONDS TURBO_MODE obs)
    as [[o st]|]; [eauto | congruence].
Qed.

Lemma wait_and_check_crash_returns_witness :
  exists o st, wait_and_check_crash 11 11 false obs_alive = Some (o, st).
Proof.
  apply (wait_and_check_crash_returns 11 10 11 false obs_alive).
  - vm_compute. discriminate.
  - lia.
Defined.

(** X3.  A key press ends the trial unclassified.  Once the game has
    shown up, if the operator presses a key at a turn of the watch loop
    that starts before the deadline, the call closes the game and lets the
    pause exception through (Resume) or exits (Revert, Quit), without
    polling the process at that turn. *)
Theorem wait_and_check_crash_key
    (fuel : nat) (WAIT_SECONDS : Z) (TURBO_MODE : bool) (obs : observations)
    (j n : nat) :
  j < 30 ->
  (forall k, k < j -> pid_found obs k = false) ->
  pid_found obs j = true ->
  (forall i, i < n ->
     (now obs (1 + i) - now obs 0 < inject_Z WAIT_SECONDS)%Q
     /\ key obs i = NoKey
     /\ pid_found obs (j + 1 + i) = true) ->
  (now obs (1 + n) - now obs 0 < inject_Z WAIT_SECONDS)%Q ->
  key obs n <> NoKey ->
  n < fuel ->
  exists st,
    wait_and_check_crash fuel WAIT_SECONDS TURBO_MODE obs
    = Some (match key obs n with Resume => PauseRaised | _ => SysExit end, st)
    /\ polls st = j + 1 + n
    /\ log st = ForceClose :: repeat (Sleep (poll_interval TURBO_MODE)) n
                           ++ repeat (Sleep (1 # 10)) j.
Proof.
  intros Hj Hno Hyes Hq Hearly Hkey Hfuel.
  assert (Hstart :
    wait_and_check_crash fuel WAIT_SECONDS TURBO_MODE obs
    = watch (fuel - n) WAIT_SECONDS TURBO_MODE obs (now obs 0)
        (after_quiet TURBO_MODE
           {| reads := 1; polls := j + 1; checks := 0;
              log := repeat (Sleep (1 # 10)) j |} n)).
  { unfold wait_and_check_crash, read_clock.
    cbn [reads polls checks log ostate0].
    rewrite (grace_found obs 30 j) by (cbn [polls]; auto).
    cbn [reads polls checks log]. rewrite app_nil_r. cbn [Nat.add].
    replace fuel with (n + (fuel - n)) at 1 by lia.
    apply watch_quiet. intros i Hi. cbn [reads polls checks].
    destruct (Hq i Hi) as (A & B & C). auto. }
  rewrite Hstart. destruct (fuel - n) as [|f] eqn:Ef; [lia|].
  cbn [watch]. unfold read_clock, after_quiet. cbn [reads polls checks log].
  apply Qltb_lt in Hearly. rewrite Hearly.
  unfold check_for_manual_pause. cbn [reads polls checks log].
  change (0 + n) with n.
  destruct (key obs n); [congruence | | | ];
    eexists; (split; [reflexivity|]); split; reflexivity.
Qed.

Lemma wait_and_check_crash_key_witness :
  (exists st, wait_and_check_crash 20 11 false (obs_key Resume)
              = Some (PauseRaised, st) /\ polls st = 4)
  /\ (exists st, wait_and_check_crash 20 11 false (obs_key Quit)
                 = Some (SysExit, st) /\ polls st = 4).
Proof.
  split.
  - destruct (wait_and_check_crash_key 20 11 false (obs_key Resume) 2 1)
      as (st & E & P & _).
    + lia.
    + intros k Hk. destruct k as [|[|k]]; [reflexivity | reflexivity | lia].
    + reflexivity.
    + intros i Hi. destruct i as [|i]; [|lia].
      split; [vm_compute; reflexivity | split; reflexivity].
    + vm_compute. reflexivity.
    + discriminate.
    + lia.
    + exists st. split; [exact E | exact P].
  - destruct (wait_and_check_crash_key 20 11 false (obs_key Quit) 2 1)
      as (st & E & P & _).
    + lia.
    + intros k Hk. destruct k as [|[|k]]; [reflexivity | reflexivity | lia].
    + reflexivity.
    + intros i Hi. destruct i as [|i]; [|lia].
      split; [vm_compute; reflexivity | split; reflexivity].
    + vm_compute. reflexivity.
    + discriminate.
    + lia.
    + exists st. split; [exact E | exact P].
Defined.

(** X4.  With [wait_seconds] at zero or below, a game that shows up
    within the grace window is classified Passed at once: the watch loop
    is never entered, so its liveness is never checked again (the clock
    being no earlier at the second reading than at the first). *)
Theorem wait_and_check_crash_no_wait
    (fuel : nat) (WAIT_SECONDS : Z) (TURBO_MODE : bool) (obs : observations)
    (j : nat) :
  (WAIT_SECONDS <= 0)%Z ->
  (now obs 0 <= now obs 1)%Q ->
  j < 30 ->
  (forall k, k < j -> pid_found obs k = false) ->
  pid_found obs j = true ->
  0 < fuel ->
  exists st,
    wait_and_check_crash fuel WAIT_SECONDS TURBO_MODE obs
    = Some (Returned false, st)
    /\ polls st = j + 1
    /\ checks st = 0
    /\ log st = ForceClose :: repeat (Sleep (1 # 10)) j.
Proof.
  intros Hw Hclock Hj Hno Hyes Hfuel.
  assert (Hlate : Qltb (now obs 1 - now obs 0) (inject_Z WAIT_SECONDS) = false).
  { apply Qltb_nlt. intros H.
    assert (Hz : (inject_Z WAIT_SECONDS <= 0)%Q).
    { change 0%Q with (inject_Z 0). now rewrite <- Zle_Qle. }
    assert (Hd : (0 <= now obs 1 - now obs 0)%Q).
    { unfold Qminus. rewrite <- Qle_minus_iff. exact Hclock. }
    apply (Qlt_not_le _ _ H). eapply Qle_trans; eassumption. }
  assert (Hstart :
    wait_and_check_crash fuel WAIT_SECONDS TURBO_MODE obs
    = watch fuel WAIT_SECONDS TURBO_MODE obs (now obs 0)
        {| reads := 1; polls := j + 1; checks := 0;
           log := repeat (Sleep (1 # 10)) j |}).
  { unfold wait_and_check_crash, read_clock.
    cbn [reads polls checks log ostate0].
    rewrite (grace_found obs 30 j) by (cbn [polls]; auto).
    cbn [reads polls checks log]. rewrite app_nil_r. reflexivity. }
  rewrite Hstart. destruct fuel as [|f]; [lia|].
  cbn [watch]. unfold read_clock. cbn [reads polls checks log].
  rewrite Hlate. eexists. repeat split.
Qed.

Lemma wait_and_check_crash_no_wait_witness :
  exists st,
    wait_and_check_crash 1 0 true obs_alive = Some (Returned false, st)
    /\ polls st = 3 /\ checks st = 0.
Proof.
  destruct (wait_and_check_crash_no_wait 1 0 true obs_alive 2)
    as (st & E & P & C & _).
  - lia.
  - vm_compute. discriminate.
  - lia.
  - intros k Hk. destruct k as [|[|k]]; [reflexivity | reflexivity | lia].
  - reflexivity.
  - lia.
  - exists st. auto.
Defined.

End OracleMore.

(** ** The order file: what is written and what is read back *)

Module FilesFacts.

Import PyStr PyStrFacts Turbo Keys Files FileScenarios LoadOrderFacts.
Local Open Scope nat_scope.
Local Open Scope string_scope.
Local Open Scope list_scope.

Lemma append_assoc (a b c : string) :
  ((a ++ b) ++ c = a ++ (b ++ c))%string.
Proof. induction a as [|x a IH]; simpl; [reflexivity | now rewrite IH]. Qed.

Lemma append_nil_r (a : string) : (a ++ "")%string = a.
Proof. induction a as [|x a IH]; simpl; [reflexivity | now rewrite IH]. Qed.

Lemma one_line_append (a b : string) :
  one_line (a ++ b) = one_line a && one_line b.
Proof.
  unfold one_line. induction a as [|x a IH]; simpl; [reflexivity|].
  now rewrite IH, andb_assoc.
Qed.

(** A line followed by a line feed is split off as it is. *)
Lemma splitlines_cons (s rest : string) :
  one_line s = true ->
  splitlines (s ++ NL ++ rest) = s :: splitlines rest.
Proof.
  intros H. induction s as [|c s IH].
  - simpl. destruct rest; reflexivity.
  - unfold one_line in H. simpl in H. apply andb_true_iff in H as [Hc Hs].
    apply negb_true_iff in Hc.
    change (String c s ++ NL ++ rest)%string
      with (String c (s ++ NL ++ rest)%string).
    cbn [splitlines]. rewrite Hc. fold splitlines. now rewrite (IH Hs).
Qed.

Lemma splitlines_join (x : string) (l : list string) :
  Forall (fun s => one_line s = true) (x :: l) ->
  splitlines (join NL (x :: l) ++ NL) = x :: l.
Proof.
  revert x. induction l as [|y l IH]; intros x H.
  - simpl. inversion H; subst.
    rewrite <- (append_nil_r (x ++ NL)), append_assoc.
    now rewrite splitlines_cons.
  - inversion H; subst.
    change (join NL (x :: y :: l)) with (x ++ NL ++ join NL (y :: l))%string.
    rewrite !append_assoc. rewrite splitlines_cons by assumption.
    now rewrite IH.
Qed.

Lemma append_last_nonempty (t : string) (c : ascii) :
  exists d r, (t ++ String c "")%string = String d r.
Proof. destruct t; simpl; eauto. Qed.

(** Stripping a character on the right that the text does not end with
    changes nothing. *)
Lemma rstrip_char_last (ch c : ascii) (t : string) :
  c <> ch ->
  rstrip_char ch (t ++ String c "") = (t ++ String c "")%string.
Proof.
  intros H. induction t as [|d t IH]; simpl.
  - destruct (Ascii.eqb_spec c ch); [contradiction | reflexivity].
  - rewrite IH. destruct (append_last_nonempty t c) as (e & r & ->).
    reflexivity.
Qed.

Lemma join_snoc (l : list string) (y : string) :
  exists pre, join NL (l ++ [y]) = (pre ++ y)%string.
Proof.
  induction l as [|x l IH].
  - now exists "".
  - destruct IH as [pre E]. destruct l as [|z l].
    + exists (x ++ NL)%string. simpl. now rewrite append_assoc.
    + exists (x ++ NL ++ pre)%string.
      change (join NL ((x :: z :: l) ++ [y]))
        with (x ++ NL ++ join NL ((z :: l) ++ [y]))%string.
      rewrite E. now rewrite !append_assoc.
Qed.

Lemma removed_lines_last (stamp : nat -> string) (i : nat) (failed : list string) :
  failed <> [] ->
  exists l j p, removed_lines stamp i failed = l ++ [removed_line (stamp j) p].
Proof.
  revert i. induction failed as [|p failed IH]; intros i H; [congruence|].
  destruct failed as [|q failed].
  - exists [], i, p. reflexivity.
  - destruct (IH (S i)) as (l & j & p' & E); [discriminate|].
    exists (removed_line (stamp i) p :: l), j, p'.
    cbn [removed_lines] in *. now rewrite E.
Qed.

Lemma final_lines_last (stamp : nat -> string) (safe failed : list string) :
  exists l t c, final_lines stamp safe failed = l ++ [(t ++ String c "")%string]
                /\ c <> LF.
Proof.
  unfold final_lines. destruct failed as [|p failed].
  - exists (safe ++ [""]), "##REMOVED PLUGINS#", "#"%char. split.
    + simpl. now rewrite <- app_assoc.
    + discriminate.
  - destruct (removed_lines_last stamp 0 (p :: failed)) as (l & j & q & E);
      [discriminate|].
    rewrite E.
    exists (safe ++ [""; "##REMOVED PLUGINS##"] ++ l),
           ("#" ++ q ++ " #REMOVED BY OBBPD (" ++ stamp j)%string, ")"%char.
    split; [|discriminate].
    rewrite <- !app_assoc. do 3 f_equal. unfold removed_line.
    simpl. f_equal. now rewrite !append_assoc.
Qed.

(** The text turbo mode writes is its lines joined by line feeds, with
    one line feed at the end: the [rstrip] finds nothing to strip. *)
Lemma final_text_join (stamp : nat -> string) (safe failed : list string) :
  final_text stamp safe failed
  = (join NL (final_lines stamp safe failed) ++ NL)%string.
Proof.
  unfold final_text.
  destruct (final_lines_last stamp safe failed) as (l & t & c & E & Hc).
  rewrite E. destruct (join_snoc l (t ++ String c "")) as [pre J].
  rewrite J, <- append_assoc. now rewrite rstrip_char_last.
Qed.

Lemma one_line_removed (stamp p : string) :
  one_line stamp = true -> one_line p = true ->
  one_line (removed_line stamp p) = true.
Proof.
  intros Hs Hp. unfold removed_line.
  rewrite !one_line_append, Hs, Hp. reflexivity.
Qed.

Lemma one_line_removed_lines (stamp : nat -> string) (i : nat)
    (failed : list string) :
  (forall j, one_line (stamp j) = true) ->
  Forall (fun p => one_line p = true) failed ->
  Forall (fun s => one_line s = true) (removed_lines stamp i failed).
Proof.
  intros Hs H. revert i. induction H as [|p failed Hp _ IH]; intros i; simpl.
  - constructor.
  - constructor; [now apply one_line_removed | apply IH].
Qed.

Lemma removed_lines_skipped (stamp : nat -> string) (i : nat)
    (failed : list string) :
  filter (fun line => truthy (strip line) && negb (startswith "#" line))
         (removed_lines stamp i failed) = [].
Proof.
  revert i. induction failed as [|p failed IH]; intros i; [reflexivity|].
  cbn [removed_lines filter].
  assert (E : startswith "#" (removed_line (stamp i) p) = true).
  { unfold removed_line, startswith. simpl. now destruct (_ ++ _)%string. }
  rewrite E, andb_false_r. apply IH.
Qed.

Lemma blank_strip (p : string) : truthy (strip p) = negb (blank p).
Proof.
  unfold blank. destruct (all_chars is_space p) eqn:E.
  - apply strip_empty in E. now rewrite E.
  - destruct (strip p) eqn:S; [|reflexivity].
    apply strip_empty in S. congruence.
Qed.

(** X11.  The order file turbo mode writes when its loops have ended
    reads back as the Safe list of that moment: [read_plugins] on that
    text returns the Safe plugins, in order, and none of the failed ones,
    provided no name and no time stamp holds a line boundary and no Safe
    name is blank or starts with the comment sign. *)
Theorem final_text_read_back
    (stamp : nat -> string) (safe failed : list string) :
  (forall j, one_line (stamp j) = true) ->
  Forall (fun p => one_line p = true) failed ->
  Forall (fun p => one_line p = true /\ blank p = false
                   /\ startswith "#" p = false) safe ->
  read_plugins (Some (final_text stamp safe failed)) = map strip safe.
Proof.
  intros Hs Hf Hsafe. unfold read_plugins. rewrite final_text_join.
  assert (Hlines : Forall (fun s => one_line s = true)
                          (final_lines stamp safe failed)).
  { unfold final_lines. apply Forall_app. split.
    - eapply Forall_impl; [|exact Hsafe]. simpl. tauto.
    - apply Forall_app. split.
      + repeat constructor.
      + now apply one_line_removed_lines. }
  destruct (final_lines stamp safe failed) as [|x l] eqn:E.
  { unfold final_lines in E. destruct safe; discriminate E. }
  rewrite splitlines_join by exact Hlines. rewrite <- E.
  unfold final_lines. rewrite !filter_app, removed_lines_skipped, app_nil_r.
  simpl. rewrite ?app_nil_r. f_equal.
  clear E Hlines. induction Hsafe as [|p safe (_ & Hb & Hc) _ IH];
    simpl; [reflexivity|].
  rewrite blank_strip, Hb, Hc. simpl. now f_equal.
Qed.

(** X12.  What [write_plugins_exact] writes reads back as the list it was
    given, stripped and without its blank names and the names that start
    with the comment sign, provided no name holds a line boundary. *)
Theorem write_plugins_exact_read_back (plugin_list : list string) :
  Forall (fun p => one_line p = true) plugin_list ->
  read_plugins (Some (write_plugins_exact plugin_list))
  = map strip (filter (fun p => negb (blank p) && negb (startswith "#" p))
                      plugin_list).
Proof.
  intros H. unfold read_plugins, write_plugins_exact.
  destruct plugin_list as [|x l]; [reflexivity|].
  rewrite splitlines_join by exact H. f_equal.
  apply filter_ext. intros p. now rewrite blank_strip.
Qed.

Lemma startswith_hash (s : string) :
  startswith "#" s = true -> exists r, s = String "#"%char r.
Proof.
  unfold startswith. destruct s as [|c s]; [discriminate|].
  cbn [prefix]. destruct (ascii_dec "#"%char c) as [<- | ]; intros H;
    [eauto | discriminate H].
Qed.

(** A line that starts with the comment sign still does once stripped. *)
Lemma startswith_hash_strip (line : string) :
  startswith "#" line = true -> startswith "#" (strip line) = true.
Proof.
  intros H. apply startswith_hash in H as [r ->].
  unfold strip. cbn [lstrip]. change (is_space "#"%char) with false. cbv iota.
  destruct (rstrip_head "#"%char r eq_refl) as [r' ->].
  unfold startswith. cbn [prefix].
  destruct (ascii_dec "#"%char "#"%char); [now destruct r' | congruence].
Qed.

Lemma dedup_lower_incl (seen l : list string) : incl (dedup_lower seen l) l.
Proof.
  revert seen. induction l as [|p l IH]; intros seen; simpl.
  - apply incl_refl.
  - destruct (negb (mem (lower p) seen)).
    + intros q [<- | Hq]; [now left | right; exact (IH _ q Hq)].
    + intros q Hq. right. exact (IH _ q Hq).
Qed.

Lemma dedup_lower_kept (seen l : list string) (q : string) :
  In q (dedup_lower seen l) -> ~ In (lower q) seen.
Proof.
  revert seen. induction l as [|p l IH]; intros seen; simpl; [tauto|].
  destruct (negb (mem (lower p) seen)) eqn:E.
  - apply negb_true_iff, mem_false in E.
    intros [<- | Hq]; [exact E|].
    apply IH in Hq. intros Hs. apply Hq. now right.
  - apply IH.
Qed.

Lemma dedup_lower_nodup (seen l : list string) :
  NoDup (map lower (dedup_lower seen l)).
Proof.
  revert seen. induction l as [|p l IH]; intros seen; simpl; [constructor|].
  destruct (negb (mem (lower p) seen)); [|apply IH].
  simpl. constructor; [|apply IH].
  intros Hin. apply in_map_iff in Hin as (q & Hk & Hq).
  apply dedup_lower_kept in Hq. apply Hq. left. now rewrite Hk.
Qed.

Lemma dedup_lower_cover (seen l : list string) (p : string) :
  In p l ->
  In (lower p) seen \/ In (lower p) (map lower (dedup_lower seen l)).
Proof.
  revert seen. induction l as [|x l IH]; intros seen Hin; [destruct Hin|].
  simpl. destruct Hin as [-> | Hin].
  - destruct (mem (lower p) seen) eqn:Em; simpl.
    + left. now apply mem_In.
    + right. now left.
  - destruct (negb (mem (lower x) seen)).
    + destruct (IH (lower x :: seen) Hin) as [[E | Hs] | Hd].
      * right. left. exact E.
      * now left.
      * right. right. exact Hd.
    + now apply IH.
Qed.

(** X13.  [get_total_plugins] and [read_plugins] on the same file: every
    plugin counted is one that is read; no two counted plugins are equal
    up to case; every plugin read that does not start with the comment
    sign is counted, up to case; and a counted plugin is never empty,
    never unstripped and never starts with the comment sign. *)
Theorem get_total_plugins_of_read (content : option string) :
  incl (get_total_plugins content) (read_plugins content)
  /\ NoDup (map lower (get_total_plugins content))
  /\ (forall p, In p (read_plugins content) -> startswith "#" p = false ->
                exists q, In q (get_total_plugins content)
                          /\ lower q = lower p)
  /\ Forall (fun p => p <> "" /\ strip p = p /\ startswith "#" p = false)
            (get_total_plugins content).
Proof.
  destruct content as [text|]; simpl.
  2: { repeat split; try constructor; intros p []. }
  split; [|split; [|split]].
  - intros p Hp. apply dedup_lower_incl in Hp.
    apply in_map_iff in Hp as (l & <- & Hl).
    apply filter_In in Hl as [Hl Hc]. apply andb_true_iff in Hc as [Ht Hc].
    apply in_map. apply filter_In. split; [exact Hl|].
    rewrite Ht. simpl. apply negb_true_iff in Hc. apply negb_true_iff.
    destruct (startswith "#" l) eqn:E; [|reflexivity].
    apply startswith_hash_strip in E. congruence.
  - apply dedup_lower_nodup.
  - intros p Hp Hc. apply in_map_iff in Hp as (l & <- & Hl).
    apply filter_In in Hl as [Hl Hf]. apply andb_true_iff in Hf as [Ht _].
    assert (Hin : In (strip l)
                     (map strip
                        (filter (fun l0 => truthy (strip l0)
                                           && negb (startswith "#" (strip l0)))
                                (splitlines text)))).
    { apply in_map. apply filter_In. split; [exact Hl|].
      now rewrite Ht, Hc. }
    destruct (dedup_lower_cover [] _ _ Hin) as [[] | H].
    apply in_map_iff in H as (q & Hq & Hin'). eauto.
  - apply Forall_forall. intros p Hp. apply dedup_lower_incl in Hp.
    apply in_map_iff in Hp as (l & <- & Hl).
    apply filter_In in Hl as [Hl Hc]. apply andb_true_iff in Hc as [Ht Hc].
    apply negb_true_iff in Hc. split; [|split].
    + intros E. now rewrite E in Ht.
    + apply strip_idem.
    + exact Hc.
Qed.

Lemma read_plugins_entry (content : option string) (p : string) :
  In p (read_plugins content) -> p <> "" /\ strip p = p /\ blank p = false.
Proof.
  destruct content as [text|]; simpl; [|tauto].
  intros Hp. apply in_map_iff in Hp as (l & <- & Hl).
  apply filter_In in Hl as [_ Hc]. apply andb_true_iff in Hc as [Ht _].
  assert (Hne : strip l <> "") by (intros E; now rewrite E in Ht).
  split; [exact Hne|]. split; [apply strip_idem|].
  unfold blank. destruct (all_chars is_space (strip l)) eqn:E; [|reflexivity].
  apply strip_empty in E. rewrite strip_idem in E. contradiction.
Qed.

(** X14.  The order [enforce_exact_load_order] writes starts with the
    stripped required and optional plugins, de-duplicated, holds no two
    names equal up to case and surrounding blanks, and loses no plugin of
    the order file: each one is there up to case. *)
Theorem enforce_exact_load_order_keeps
    (REQUIRED_PLUGINS OPTIONAL_PATCHES : list string)
    (content : option string) :
  let final_order :=
    enforce_exact_load_order REQUIRED_PLUGINS OPTIONAL_PATCHES content in
  (exists tail,
      final_order
      = dedupe_turbo [] (map strip REQUIRED_PLUGINS
                           ++ map strip OPTIONAL_PATCHES) ++ tail)
  /\ NoDup (map ci_key final_order)
  /\ (forall p, In p (read_plugins content) ->
                exists q, In q final_order /\ ci_key q = ci_key p).
Proof.
  cbv zeta. unfold enforce_exact_load_order.
  set (req := map strip REQUIRED_PLUGINS).
  set (opt := map strip OPTIONAL_PATCHES).
  set (extra := filter _ (read_plugins content)).
  split; [|split].
  - rewrite app_assoc. destruct (dedupe_turbo_app [] (req ++ opt) extra) as [s E].
    rewrite E. eauto.
  - apply dedupe_turbo_keys_nodup.
  - intros p Hp. destruct (read_plugins_entry content p Hp) as (Hne & _ & Hb).
    assert (Hkey : exists x, In x (req ++ opt ++ extra) /\ x <> ""
                             /\ ci_key x = ci_key p).
    { destruct (mem (strip (lower p)) (map lower (req ++ opt))) eqn:Em.
      - apply mem_In in Em. apply in_map_iff in Em as (x & Hx & Hin).
        exists x. split; [|split].
        + rewrite app_assoc. apply in_or_app. now left.
        + intros ->. simpl in Hx.
          pose proof (ci_key_blank p) as K. unfold ci_key in K.
          rewrite <- Hx, Hb in K. discriminate K.
        + unfold ci_key. rewrite Hx. apply strip_idem.
      - exists p. split; [|split; [exact Hne | reflexivity]].
        apply in_or_app. right. apply in_or_app. right.
        apply filter_In. split; [exact Hp | now rewrite Em]. }
    destruct Hkey as (x & Hin & Hx & Hk).
    destruct (dedupe_turbo_cover [] _ x Hin Hx) as [[] | H].
    apply in_map_iff in H as (q & Hq & Hin'). exists q. split; [exact Hin'|].
    congruence.
Qed.

(** *** [write_plugins] *)

Local Abbreviation is_plugin :=
  (fun line : string =>
     truthy (strip line) && negb (startswith "#" (strip line))).
Local Abbreviation is_comment :=
  (fun line : string => startswith "#" (strip line)).

(** What the loops of [write_plugins] keep true of [output_lines] and
    [written_plugins]: no plugin line is there twice, every plugin line
    is noted as written, and everything noted was written. *)
Local Abbreviation tidy :=
  (fun acc : list string * list string =>
     NoDup (filter is_plugin (fst acc))
     /\ incl (filter is_plugin (fst acc)) (snd acc)
     /\ incl (snd acc) (fst acc)).

Lemma NoDup_snoc {A : Type} (l : list A) (x : A) :
  NoDup l -> ~ In x l -> NoDup (l ++ [x]).
Proof.
  induction l as [|y l IH]; intros Hn Hx; simpl.
  - constructor; [tauto | constructor].
  - inversion Hn; subst. constructor.
    + rewrite in_app_iff. simpl. intros [H | [H | []]]; [tauto|].
      subst. apply Hx. now left.
    + apply IH; [assumption|]. intros H. apply Hx. now right.
Qed.

Lemma tidy_append (acc : list string * list string) (x : string) :
  tidy acc -> ~ In x (snd acc) -> tidy (fst acc ++ [x], x :: snd acc).
Proof.
  intros (Hn & Hi & Hw) Hx. cbn [fst snd]. rewrite filter_app. split; [|split].
  - simpl. destruct (is_plugin x).
    + apply NoDup_snoc; [exact Hn|]. intros H. apply Hx. now apply Hi.
    + now rewrite app_nil_r.
  - intros y Hy. apply in_app_or in Hy as [Hy | Hy].
    + right. now apply Hi.
    + simpl in Hy. destruct (is_plugin x); [|destruct Hy].
      destruct Hy as [<- | []]. now left.
  - intros y [<- | Hy]; apply in_or_app; [right; now left | left; now apply Hw].
Qed.

Lemma tidy_skip (acc : list string * list string) (x : string) :
  tidy acc -> is_plugin x = false -> tidy (fst acc ++ [x], snd acc).
Proof.
  intros (Hn & Hi & Hw) Hx. cbn [fst snd]. rewrite filter_app. simpl.
  rewrite Hx, app_nil_r. split; [exact Hn|]. split; [exact Hi|].
  intros y Hy. apply in_or_app. left. now apply Hw.
Qed.

Lemma plugin_lines_cons (line : string) (lines : list string) :
  plugin_lines (line :: lines)
  = if is_plugin line then strip line :: plugin_lines lines
    else plugin_lines lines.
Proof. unfold plugin_lines. simpl. now destruct (is_plugin line). Qed.

(** The first loop of [write_plugins], over the lines of the backup. *)
Lemma keep_fold (tw lines : list string) (acc : list string * list string) :
  exists added,
    fst (fold_left (keep_line tw) lines acc) = fst acc ++ added
    /\ filter is_comment added = filter is_comment lines
    /\ (forall x, In x added ->
                  x = "" \/ (is_comment x = true /\ In x lines)
                  \/ (In x (plugin_lines lines) /\ In x tw))
    /\ (forall x, In x (snd (fold_left (keep_line tw) lines acc))
                  <-> In x (snd acc)
                      \/ (In x (plugin_lines lines) /\ In x tw))
    /\ (tidy acc -> tidy (fold_left (keep_line tw) lines acc)).
Proof.
  revert acc. induction lines as [|line lines IH]; intros acc.
  { exists []. simpl. rewrite app_nil_r.
    split; [reflexivity|]. split; [reflexivity|]. split; [intros x []|].
    split; [|tauto]. intros x. unfold plugin_lines. simpl. tauto. }
  cbn [fold_left]. rewrite plugin_lines_cons. cbv beta.
  destruct (truthy (strip line)) eqn:Et; cbn [negb andb].
  2: { (* a blank line *)
    assert (K : keep_line tw acc line = (fst acc ++ [""], snd acc)).
    { unfold keep_line. now rewrite Et. }
    rewrite K. destruct (IH (fst acc ++ [""], snd acc)) as (added & E & Hc & Ha & Hw & Ht).
    cbn [fst snd] in *. exists ("" :: added).
    assert (Es : strip line = "") by (destruct (strip line); [reflexivity | discriminate]).
    split; [rewrite E, <- app_assoc; reflexivity|]. split.
    { cbn [filter]. rewrite Es. simpl. exact Hc. }
    split.
    { intros x [<- | Hx]; [now left|]. destruct (Ha x Hx) as [? | [[? ?] | ?]]; auto.
      right. left. split; [assumption | now right]. }
    split; [exact Hw|].
    intros T. apply Ht. exact (tidy_skip acc "" T eq_refl). }
  destruct (startswith "#" (strip line)) eqn:Ec; cbn [negb].
  { (* a comment *)
    assert (K : keep_line tw acc line = (fst acc ++ [line], snd acc)).
    { unfold keep_line. now rewrite Et, Ec. }
    rewrite K. destruct (IH (fst acc ++ [line], snd acc)) as (added & E & Hc & Ha & Hw & Ht).
    cbn [fst snd] in *. exists (line :: added).
    split; [rewrite E, <- app_assoc; reflexivity|]. split.
    { cbn [filter]. rewrite Ec. now f_equal. }
    split.
    { intros x [<- | Hx]; [right; left; split; [exact Ec | now left]|].
      destruct (Ha x Hx) as [? | [[? ?] | ?]]; auto.
      right. left. split; [assumption | now right]. }
    split; [exact Hw|].
    intros T. apply Ht. refine (tidy_skip acc line T _). now rewrite Et, Ec. }
  destruct (mem (strip line) tw && negb (mem (strip line) (snd acc))) eqn:Em.
  - (* a plugin to write *)
    apply andb_true_iff in Em as [Hin Hnew].
    assert (K : keep_line tw acc line
                = (fst acc ++ [strip line], strip line :: snd acc)).
    { unfold keep_line. now rewrite Et, Ec, Hin, Hnew. }
    apply mem_In in Hin. apply negb_true_iff, mem_false in Hnew.
    rewrite K. destruct (IH (fst acc ++ [strip line], strip line :: snd acc))
      as (added & E & Hc & Ha & Hw & Ht).
    cbn [fst snd] in *. exists (strip line :: added).
    split; [rewrite E, <- app_assoc; reflexivity|]. split.
    { cbn [filter]. rewrite strip_idem, Ec. exact Hc. }
    split.
    { intros x [<- | Hx].
      - right. right. split; [now left | exact Hin].
      - destruct (Ha x Hx) as [? | [[? ?] | [? ?]]]; auto.
        + right. left. split; [assumption | now right].
        + right. right. split; [now right | assumption]. }
    split.
    { intros x. rewrite Hw. simpl. split.
      - intros [[<- | H] | [H1 H2]]; auto.
      - intros [H | [[<- | H1] H2]]; auto. }
    intros T. apply Ht. exact (tidy_append acc (strip line) T Hnew).
  - (* a plugin that is skipped *)
    assert (K : keep_line tw acc line = acc).
    { unfold keep_line. now rewrite Et, Ec, Em. }
    rewrite K. destruct (IH acc) as (added & E & Hc & Ha & Hw & Ht).
    exists added. split; [exact E|]. split.
    { cbn [filter]. rewrite Ec. exact Hc. }
    split.
    { intros x Hx. destruct (Ha x Hx) as [? | [[? ?] | [? ?]]]; auto.
      - right. left. split; [assumption | now right].
      - right. right. split; [now right | assumption]. }
    split; [|exact Ht].
    intros x. rewrite Hw. split.
    + intros [H | [H1 H2]]; auto. right. split; [now right | assumption].
    + intros [H | [[<- | H1] H2]]; auto.
      apply andb_false_iff in Em as [Em | Em].
      * apply mem_false in Em. contradiction.
      * apply negb_false_iff, mem_In in Em. now left.
Qed.

(** The two loops that append what the first one did not write. *)
Lemma append_fold (plugins : list string) (acc : list string * list string) :
  exists added,
    fst (fold_left append_new plugins acc) = fst acc ++ added
    /\ incl added plugins
    /\ (forall x, In x (snd (fold_left append_new plugins acc))
                  <-> In x (snd acc) \/ In x plugins)
    /\ (tidy acc -> tidy (fold_left append_new plugins acc)).
Proof.
  revert acc. induction plugins as [|p plugins IH]; intros acc.
  { exists []. simpl. rewrite app_nil_r.
    split; [reflexivity|]. split; [intros x []|].
    split; [|tauto]. intros x. tauto. }
  cbn [fold_left].
  destruct (mem p (snd acc)) eqn:Em.
  - assert (K : append_new acc p = acc).
    { unfold append_new. now rewrite Em. }
    rewrite K. apply mem_In in Em. destruct (IH acc) as (added & E & Hi & Hw & Ht).
    exists added. split; [exact E|]. split.
    { intros x Hx. right. now apply Hi. }
    split; [|exact Ht].
    intros x. rewrite Hw. simpl. split.
    + intros [H | H]; auto.
    + intros [H | [<- | H]]; auto.
  - assert (K : append_new acc p = (fst acc ++ [p], p :: snd acc)).
    { unfold append_new. now rewrite Em. }
    rewrite K. apply mem_false in Em.
    destruct (IH (fst acc ++ [p], p :: snd acc)) as (added & E & Hi & Hw & Ht).
    cbn [fst snd] in *. exists (p :: added).
    split; [rewrite E, <- app_assoc; reflexivity|]. split.
    { intros x [<- | Hx]; [now left | right; now apply Hi]. }
    split.
    { intros x. rewrite Hw. simpl. tauto. }
    intros T. apply Ht. exact (tidy_append acc p T Em).
Qed.

Lemma all_to_write_In (REQ OPT op current : list string) (p : string) :
  In p (all_to_write REQ OPT op current)
  <-> In p current \/ (In p (REQ ++ OPT) /\ (In p op \/ In p current)).
Proof.
  unfold all_to_write. rewrite !in_app_iff, !filter_In.
  rewrite !orb_true_iff, !mem_In, negb_true_iff, mem_false.
  rewrite !in_app_iff, !filter_In, !orb_true_iff, !mem_In.
  split.
  - intros [[H | H] | [H _]]; tauto.
  - intros [H | H]; [|tauto].
    destruct (in_dec string_dec p REQ) as [R | R]; [tauto|].
    destruct (in_dec string_dec p OPT) as [O | O]; [tauto|].
    right. split; [exact H|]. tauto.
Qed.

Section WritePlugins.

Variables REQUIRED_PLUGINS OPTIONAL_PATCHES : list string.
Variable backup : option string.
Variable current_plugins : list string.

Local Abbreviation original_lines :=
  (match backup with Some text => splitlines text | None => [] end).
Local Abbreviation output_lines :=
  (write_plugins_lines REQUIRED_PLUGINS OPTIONAL_PATCHES backup current_plugins).

(** X15.  Which plugins [write_plugins] writes: a name that is neither
    empty nor a comment is a line of the output exactly when it is a
    plugin line of the backup that is also in the list to write, or a
    required or optional plugin found in the backup or in that list.  So
    a plugin of the list that the backup does not name is written only if
    it is required or optional. *)
Theorem write_plugins_writes (p : string) :
  p <> "" -> is_comment p = false ->
  (In p output_lines
   <-> (In p (plugin_lines original_lines) /\ In p current_plugins)
       \/ (In p (REQUIRED_PLUGINS ++ OPTIONAL_PATCHES)
           /\ (In p (plugin_lines original_lines) \/ In p current_plugins))).
Proof.
  intros Hne Hcm. unfold write_plugins_lines.
  set (op := plugin_lines original_lines).
  set (dr := filter (fun q => mem q op || mem q current_plugins) REQUIRED_PLUGINS).
  set (dopt := filter (fun q => mem q op || mem q current_plugins) OPTIONAL_PATCHES).
  set (tw := all_to_write REQUIRED_PLUGINS OPTIONAL_PATCHES op current_plugins).
  assert (Htw : forall q,
             In q tw
             <-> In q current_plugins
                 \/ ((In q REQUIRED_PLUGINS \/ In q OPTIONAL_PATCHES)
                     /\ (In q op \/ In q current_plugins))).
  { intros q. unfold tw. now rewrite all_to_write_In, in_app_iff. }
  destruct (keep_fold tw original_lines ([], [])) as (a1 & E1 & _ & Ha1 & Hw1 & T1).
  set (acc1 := fold_left (keep_line tw) original_lines ([], [])) in *.
  destruct (append_fold (filter (fun q => mem q dr) tw) acc1)
    as (a2 & E2 & Hi2 & Hw2 & T2).
  set (acc2 := fold_left append_new (filter (fun q => mem q dr) tw) acc1) in *.
  destruct (append_fold (filter (fun q => mem q dopt) tw) acc2)
    as (a3 & E3 & Hi3 & Hw3 & T3).
  set (acc3 := fold_left append_new (filter (fun q => mem q dopt) tw) acc2) in *.
  assert (T0 : tidy (@nil string, @nil string)).
  { cbn. split; [constructor|]. split; intros x []. }
  specialize (T1 T0). specialize (T2 T1). specialize (T3 T2).
  assert (Hdr : forall q, In q dr
                  <-> In q REQUIRED_PLUGINS /\ (In q op \/ In q current_plugins)).
  { intros q. unfold dr. now rewrite filter_In, orb_true_iff, !mem_In. }
  assert (Hdo : forall q, In q dopt
                  <-> In q OPTIONAL_PATCHES /\ (In q op \/ In q current_plugins)).
  { intros q. unfold dopt. now rewrite filter_In, orb_true_iff, !mem_In. }
  rewrite E3, E2, E1. cbn [fst app]. rewrite !in_app_iff. split.
  - intros [[H | H] | H].
    + destruct (Ha1 p H) as [? | [[Hc _] | [Hop Hin]]]; [contradiction | congruence |].
      apply Htw in Hin. fold op. tauto.
    + apply Hi2, filter_In in H as [_ H]. apply mem_In, Hdr in H. fold op. tauto.
    + apply Hi3, filter_In in H as [_ H]. apply mem_In, Hdo in H. fold op. tauto.
  - fold op. intros H.
    assert (Hin : In p tw) by (apply Htw; tauto).
    destruct T3 as (_ & _ & Hsub). rewrite E3, E2, E1 in Hsub. cbn [fst app] in Hsub.
    rewrite <- !in_app_iff. apply Hsub.
    apply Hw3. rewrite Hw2, Hw1. rewrite !filter_In, !mem_In, Hdr, Hdo.
    destruct H as [[H1 H2] | [H1 H2]].
    + left. left. right. tauto.
    + destruct H1 as [H1 | H1]; tauto.
Qed.

(** X16.  The shape of what [write_plugins] writes: first what the lines
    of the backup give, with every comment line of the backup kept as it
    is and in its place among the comments, then only required and
    optional plugins; and no plugin line is written twice. *)
Theorem write_plugins_shape :
  exists body tail,
    output_lines = body ++ tail
    /\ filter is_comment body = filter is_comment original_lines
    /\ incl tail (REQUIRED_PLUGINS ++ OPTIONAL_PATCHES)
    /\ NoDup (filter is_plugin output_lines).
Proof.
  unfold write_plugins_lines.
  set (op := plugin_lines original_lines).
  set (dr := filter (fun q => mem q op || mem q current_plugins) REQUIRED_PLUGINS).
  set (dopt := filter (fun q => mem q op || mem q current_plugins) OPTIONAL_PATCHES).
  set (tw := all_to_write REQUIRED_PLUGINS OPTIONAL_PATCHES op current_plugins).
  destruct (keep_fold tw original_lines ([], [])) as (a1 & E1 & Hc1 & _ & _ & T1).
  set (acc1 := fold_left (keep_line tw) original_lines ([], [])) in *.
  destruct (append_fold (filter (fun q => mem q dr) tw) acc1)
    as (a2 & E2 & Hi2 & _ & T2).
  set (acc2 := fold_left append_new (filter (fun q => mem q dr) tw) acc1) in *.
  destruct (append_fold (filter (fun q => mem q dopt) tw) acc2)
    as (a3 & E3 & Hi3 & _ & T3).
  set (acc3 := fold_left append_new (filter (fun q => mem q dopt) tw) acc2) in *.
  assert (T0 : tidy (@nil string, @nil string)).
  { cbn. split; [constructor|]. split; intros x []. }
  specialize (T1 T0). specialize (T2 T1). specialize (T3 T2).
  exists a1, (a2 ++ a3). split; [|split; [|split]].
  - rewrite E3, E2, E1. cbn [fst app]. now rewrite app_assoc.
  - exact Hc1.
  - intros x Hx. apply in_app_or in Hx as [Hx | Hx].
    + apply Hi2, filter_In in Hx as [_ Hx]. apply mem_In in Hx.
      unfold dr in Hx. apply filter_In in Hx as [Hx _].
      apply in_or_app. now left.
    + apply Hi3, filter_In in Hx as [_ Hx]. apply mem_In in Hx.
      unfold dopt in Hx. apply filter_In in Hx as [Hx _].
      apply in_or_app. now right.
  - apply T3.
Qed.

End WritePlugins.

Lemma final_text_read_back_witness :
  read_plugins (Some (final_text stamp0 ["Oblivion.esm"; "a.esp"] ["x.esp"]))
  = map strip ["Oblivion.esm"; "a.esp"].
Proof.
  apply final_text_read_back;
    [intros j; reflexivity | repeat constructor | repeat constructor].
Defined.

Lemma write_plugins_exact_read_back_witness :
  read_plugins (Some (write_plugins_exact ["Oblivion.esm"; " "; "#x"; " a.esp"]))
  = map strip (filter (fun p => negb (blank p) && negb (startswith "#" p))
                      ["Oblivion.esm"; " "; "#x"; " a.esp"]).
Proof.
  apply write_plugins_exact_read_back. repeat constructor.
Defined.

Lemma write_plugins_writes_witness :
  In "z.esp" (write_plugins_lines ["Oblivion.esm"] ["P.esp"] (Some backup_small)
                                  ["a.esp"; "z.esp"; "P.esp"])
  <-> (In "z.esp" (plugin_lines (splitlines backup_small))
       /\ In "z.esp" ["a.esp"; "z.esp"; "P.esp"])
      \/ (In "z.esp" (["Oblivion.esm"] ++ ["P.esp"])
          /\ (In "z.esp" (plugin_lines (splitlines backup_small))
              \/ In "z.esp" ["a.esp"; "z.esp"; "P.esp"])).
Proof.
  apply (write_plugins_writes ["Oblivion.esm"] ["P.esp"] (Some backup_small)
           ["a.esp"; "z.esp"; "P.esp"] "z.esp");
    [discriminate | reflexivity].
Defined.

End FilesFacts.

(** ** The candidates of a run *)

Module SelectionFacts.

Import PyStr PyStrFacts Keys Config Selection SelectionScenarios LoadOrderFacts.
Local Open Scope nat_scope.
Local Open Scope string_scope.
Local Open Scope list_scope.

Lemma lstrip_lower (s : string) : lstrip (lower s) = lower (lstrip s).
Proof.
  induction s as [|c s IH]; simpl; [reflexivity|].
  rewrite lower_char_space. destruct (is_space c); [exact IH | reflexivity].
Qed.

Lemma rstrip_lower (s : string) : rstrip (lower s) = lower (rstrip s).
Proof.
  induction s as [|c s IH]; simpl; [reflexivity|].
  rewrite IH, lower_char_space.
  destruct (rstrip s); simpl; [destruct (is_space c)|]; reflexivity.
Qed.

(** Lower-casing and stripping commute. *)
Lemma strip_lower (s : string) : strip (lower s) = lower (strip s).
Proof. unfold strip. now rewrite lstrip_lower, rstrip_lower. Qed.

Lemma ci_key_stripped (p : string) : strip p = p -> ci_key p = lower p.
Proof. intros H. unfold ci_key. now rewrite strip_lower, H. Qed.

Lemma fromkeys_incl (seen l : list string) : incl (fromkeys seen l) l.
Proof.
  revert seen. induction l as [|p l IH]; intros seen; simpl.
  - apply incl_refl.
  - destruct (mem p seen).
    + intros q Hq. right. exact (IH _ q Hq).
    + intros q [<- | Hq]; [now left | right; exact (IH _ q Hq)].
Qed.

Lemma fromkeys_cover (seen l : list string) (p : string) :
  In p l -> In p seen \/ In p (fromkeys seen l).
Proof.
  revert seen. induction l as [|x l IH]; intros seen Hin; [destruct Hin|].
  simpl. destruct (mem x seen) eqn:Em.
  - destruct Hin as [-> | Hin]; [left; now apply mem_In | now apply IH].
  - destruct Hin as [-> | Hin]; [right; now left|].
    destruct (IH (x :: seen) Hin) as [[<- | H] | H]; auto.
    + right. now left.
    + right. now right.
Qed.

Lemma dedup_incl (seen l : list string) : incl (dedup seen l) l.
Proof.
  revert seen. induction l as [|p l IH]; intros seen; simpl.
  - apply incl_refl.
  - destruct (negb (mem (strip (lower p)) seen)).
    + intros q [<- | Hq]; [now left | right; exact (IH _ q Hq)].
    + intros q Hq. right. exact (IH _ q Hq).
Qed.

Lemma dedup_kept (seen l : list string) (q : string) :
  In q (dedup seen l) -> ~ In (ci_key q) seen.
Proof.
  revert seen. induction l as [|p l IH]; intros seen; simpl; [tauto|].
  fold (ci_key p). destruct (negb (mem (ci_key p) seen)) eqn:E.
  - apply negb_true_iff, mem_false in E.
    intros [<- | Hq]; [exact E|].
    apply IH in Hq. intros Hs. apply Hq. now right.
  - apply IH.
Qed.

Lemma dedup_keys_nodup (seen l : list string) :
  NoDup (map ci_key (dedup seen l)).
Proof.
  revert seen. induction l as [|p l IH]; intros seen; simpl; [constructor|].
  fold (ci_key p). destruct (negb (mem (ci_key p) seen)); [|apply IH].
  simpl. constructor; [|apply IH].
  intros Hin. apply in_map_iff in Hin as (q & Hk & Hq).
  apply dedup_kept in Hq. apply Hq. left. now rewrite Hk.
Qed.

Lemma dedup_cover (seen l : list string) (p : string) :
  In p l ->
  In (ci_key p) seen \/ In (ci_key p) (map ci_key (dedup seen l)).
Proof.
  revert seen. induction l as [|x l IH]; intros seen Hin; [destruct Hin|].
  simpl. fold (ci_key x). destruct Hin as [-> | Hin].
  - destruct (mem (ci_key p) seen) eqn:Em; simpl.
    + left. now apply mem_In.
    + right. now left.
  - destruct (negb (mem (ci_key x) seen)).
    + destruct (IH (ci_key x :: seen) Hin) as [[E | Hs] | Hd].
      * right. left. exact E.
      * now left.
      * right. right. exact Hd.
    + now apply IH.
Qed.

Lemma has_keyword_lower (p q : string) :
  lower p = lower q -> has_keyword p = has_keyword q.
Proof. intros H. unfold has_keyword. now rewrite H. Qed.

Section Candidates.

Variable REQUIRED_PLUGINS : list string.
Variables read safe tested failed : list string.

Local Abbreviation to_test :=
  (fst (candidates REQUIRED_PLUGINS read safe tested failed)).
Local Abbreviation patch_plugins :=
  (snd (candidates REQUIRED_PLUGINS read safe tested failed)).

(** What every candidate went through. *)
Lemma all_esp_entry (q : string) :
  In q (filter is_plugin_file
          (fromkeys [] (map strip (filter (fun x => truthy (strip x)) read)))) ->
  (exists line, In line read /\ q = strip line) /\ q <> ""
  /\ is_plugin_file q = true.
Proof.
  intros Hq. apply filter_In in Hq as [Hq Hf].
  apply fromkeys_incl, in_map_iff in Hq as (line & <- & Hl).
  apply filter_In in Hl as [Hl Ht]. split; [eauto|]. split; [|exact Hf].
  intros E. now rewrite E in Ht.
Qed.

Lemma to_test_entry (p : string) :
  In p to_test ->
  (exists line, In line read /\ p = strip line)
  /\ p <> ""
  /\ is_plugin_file p = true
  /\ ~ In p safe
  /\ ~ In (lower p) (map lower (tested ++ safe ++ failed))
  /\ has_keyword p = false /\ endswith ".esp" p = true
  /\ ~ In p REQUIRED_PLUGINS.
Proof.
  intros Hin. cbn [candidates fst] in Hin.
  apply dedup_incl, filter_In in Hin as [Hin Hs].
  apply filter_In in Hin as [Hin Hl].
  unfold filter_plugins in Hin. apply filter_In in Hin as [Hin Hf].
  destruct (all_esp_entry p Hin) as (A & B & C).
  apply negb_true_iff, mem_false in Hs. apply negb_true_iff, mem_false in Hl.
  apply andb_true_iff in Hf as [Hf Hk]. apply andb_true_iff in Hf as [He Hr].
  apply negb_true_iff, mem_false in Hr. simpl in Hk.
  apply negb_true_iff in Hk. tauto.
Qed.

Lemma patch_entry (p : string) :
  In p patch_plugins ->
  (exists line, In line read /\ p = strip line)
  /\ p <> ""
  /\ is_plugin_file p = true
  /\ ~ In p safe
  /\ ~ In (lower p) (map lower (tested ++ safe ++ failed))
  /\ has_keyword p = true.
Proof.
  intros Hin. cbn [candidates snd] in Hin.
  apply dedup_incl, filter_In in Hin as [Hin Hs].
  apply filter_In in Hin as [Hin Hl].
  unfold get_patch_plugins in Hin. apply filter_In in Hin as [Hin Hk].
  destruct (all_esp_entry p Hin) as (A & B & C).
  apply negb_true_iff, mem_false in Hs. apply negb_true_iff, mem_false in Hl.
  tauto.
Qed.

(** A plugin of the file that passes every filter is a candidate, up to
    case. *)
Lemma candidate_found (line : string) :
  In line read ->
  strip line <> "" ->
  is_plugin_file (strip line) = true ->
  ~ In (strip line) safe ->
  ~ In (lower (strip line)) (map lower (tested ++ safe ++ failed)) ->
  (has_keyword (strip line) = true ->
   exists q, In q patch_plugins /\ ci_key q = ci_key (strip line))
  /\ (has_keyword (strip line) = false ->
      endswith ".esp" (strip line) = true ->
      ~ In (strip line) REQUIRED_PLUGINS ->
      exists q, In q to_test /\ ci_key q = ci_key (strip line)).
Proof.
  intros Hl Hne Hf Hs Ht. set (p := strip line) in *.
  assert (Hesp : In p (filter is_plugin_file
                         (fromkeys [] (map strip
                            (filter (fun x => truthy (strip x)) read))))).
  { apply filter_In. split; [|exact Hf].
    destruct (fromkeys_cover [] (map strip
                (filter (fun x => truthy (strip x)) read)) p) as [[] | H];
      [|exact H].
    apply in_map. apply filter_In. split; [exact Hl|].
    fold p. destruct p; [congruence | reflexivity]. }
  apply mem_false in Hs. apply mem_false in Ht. split.
  - intros Hk. cbn [candidates snd].
    match goal with |- exists q, In q (dedup [] ?l) /\ _ =>
      destruct (dedup_cover [] l p) as [[] | H] end.
    + apply filter_In. split; [|now rewrite Hs].
      apply filter_In. split; [|now rewrite Ht].
      apply filter_In. split; [exact Hesp | exact Hk].
    + apply in_map_iff in H as (q & Hq & Hin). eauto.
  - intros Hk He Hr. apply mem_false in Hr. cbn [candidates fst].
    match goal with |- exists q, In q (dedup [] ?l) /\ _ =>
      destruct (dedup_cover [] l p) as [[] | H] end.
    + apply filter_In. split; [|now rewrite Hs].
      apply filter_In. split; [|now rewrite Ht].
      apply filter_In. split; [exact Hesp|].
      now rewrite He, Hr, Hk.
    + apply in_map_iff in H as (q & Hq & Hin). eauto.
Qed.

(** X17.  The candidates are pairwise distinct, even up to case and
    surrounding blanks, within [to_test], within [patch_plugins] and
    across the two lists; so no plugin is a candidate twice. *)
Theorem candidates_distinct :
  NoDup (map ci_key (to_test ++ patch_plugins))
  /\ NoDup (to_test ++ patch_plugins).
Proof.
  assert (K : NoDup (map ci_key (to_test ++ patch_plugins))).
  { rewrite map_app.
    assert (Hd : forall x y, In x to_test -> In y patch_plugins ->
                             ci_key x <> ci_key y).
    { intros x y Hx Hy E.
      destruct (to_test_entry x Hx) as ((lx & _ & Ex) & _ & _ & _ & _ & Kx & _).
      destruct (patch_entry y Hy) as ((ly & _ & Ey) & _ & _ & _ & _ & Ky).
      rewrite !ci_key_stripped in E by (subst; apply strip_idem).
      apply has_keyword_lower in E. congruence. }
    cbn [candidates fst snd] in *.
    match goal with |- NoDup (map ci_key (dedup [] ?a) ++ map ci_key (dedup [] ?b)) =>
      pose proof (dedup_keys_nodup [] a) as Na;
      pose proof (dedup_keys_nodup [] b) as Nb;
      set (ta := dedup [] a) in *; set (tb := dedup [] b) in * end.
    clearbody ta tb. clear -Na Nb Hd.
    induction ta as [|x ta IH]; simpl; [exact Nb|].
    simpl in Na. inversion Na as [|k ks Hnotin Hnd]; subst. constructor.
    - rewrite in_app_iff. intros [H | H]; [contradiction|].
      apply in_map_iff in H as (y & Ey & Hy).
      apply (Hd x y); [now left | exact Hy | now rewrite Ey].
    - apply IH; [|exact Hnd]. intros a b Ha Hb. apply Hd; [now right | exact Hb]. }
  split; [exact K|]. now apply NoDup_map_inv in K.
Qed.

(** X18.  Every candidate is the stripped form of a line that was read,
    is not empty, ends in [.esp] or [.esm] up to case, is not in Safe and
    not, up to case, in any of the three lists; a plugin to test ends in
    [.esp] exactly, carries no patch keyword and is not required; a patch
    plugin carries a keyword.  So a name with no keyword that does not
    end in lower-case [.esp] is never tested. *)
Theorem candidates_sound :
  Forall (fun p =>
            (exists line, In line read /\ p = strip line)
            /\ p <> ""
            /\ is_plugin_file p = true
            /\ ~ In p safe
            /\ ~ In (lower p) (map lower (tested ++ safe ++ failed))
            /\ (has_keyword p = true
                \/ (endswith ".esp" p = true /\ ~ In p REQUIRED_PLUGINS)))
         (to_test ++ patch_plugins).
Proof.
  apply Forall_forall. intros p Hp. apply in_app_or in Hp as [Hp | Hp].
  - destruct (to_test_entry p Hp) as (A & B & C & D & E & F & G & H). tauto.
  - destruct (patch_entry p Hp) as (A & B & C & D & E & F). tauto.
Qed.

(** X19.  No plugin that qualifies is left out: a line of the file whose
    stripped form is not empty, ends in [.esp] or [.esm] up to case, is
    in none of the three lists, and either carries a patch keyword or ends
    in [.esp] exactly and is not required, is among the candidates, under
    its own name or one that differs only in case. *)
Theorem candidates_complete (line : string) :
  In line read ->
  strip line <> "" ->
  is_plugin_file (strip line) = true ->
  ~ In (strip line) safe ->
  ~ In (lower (strip line)) (map lower (tested ++ safe ++ failed)) ->
  has_keyword (strip line) = true
  \/ (endswith ".esp" (strip line) = true
      /\ ~ In (strip line) REQUIRED_PLUGINS) ->
  exists q, In q (to_test ++ patch_plugins)
            /\ ci_key q = ci_key (strip line).
Proof.
  intros Hl Hne Hf Hs Ht Hc.
  destruct (candidate_found line Hl Hne Hf Hs Ht) as [Hp Hq].
  destruct (has_keyword (strip line)) eqn:Hk.
  - destruct (Hp eq_refl) as (q & Hin & E). exists q. split; [|exact E].
    apply in_or_app. now right.
  - destruct Hc as [Hc | [He Hr]]; [discriminate|].
    destruct (Hq eq_refl He Hr) as (q & Hin & E). exists q. split; [|exact E].
    apply in_or_app. now left.
Qed.

End Candidates.

(** X20.  Being required or optional does not keep a plugin with a patch
    keyword out of the candidates: when the order file names one of the
    two default optional patches, that patch is the key of a patch plugin
    to test, whatever list of required plugins is configured. *)
Theorem default_optional_is_candidate
    (REQUIRED_PLUGINS read : list string) (p : string) :
  In p (OPTIONAL_PATCHES "") ->
  In p read ->
  exists q, In q (snd (candidates REQUIRED_PLUGINS read [] [] []))
            /\ ci_key q = ci_key p.
Proof.
  intros Hp Hr.
  assert (H : strip p = p /\ p <> "" /\ is_plugin_file p = true
              /\ has_keyword p = true).
  { cbn in Hp. destruct Hp as [<- | [<- | []]];
      (split; [reflexivity|]); (split; [discriminate|]); split; reflexivity. }
  destruct H as (Es & Hne & Hf & Hk).
  destruct (candidate_found REQUIRED_PLUGINS read [] [] [] p Hr) as [Hfound _];
    rewrite ?Es; auto.
  rewrite Es in Hfound. now apply Hfound.
Qed.

Lemma candidates_complete_witness :
  exists q, In q (fst (candidates ["Oblivion.esm"] read_mixed [] [] [])
                  ++ snd (candidates ["Oblivion.esm"] read_mixed [] [] []))
            /\ ci_key q = ci_key (strip "A.esp").
Proof.
  apply (candidates_complete ["Oblivion.esm"] read_mixed [] [] [] "A.esp").
  - simpl. auto 10.
  - discriminate.
  - reflexivity.
  - intros [].
  - intros [].
  - right. split; [reflexivity|]. intros [H | []]. discriminate H.
Defined.

Lemma default_optional_is_candidate_witness :
  exists q, In q (snd (candidates DEFAULT_REQUIRED read_patched [] [] []))
            /\ ci_key q = ci_key "Unofficial Oblivion Remastered Patch.esp".
Proof.
  apply default_optional_is_candidate; simpl; auto.
Defined.

End SelectionFacts.

(** ** More on the isolation engine and the batches of normal mode *)

Module EngineMore.

Import PyStr PyStrFacts Engine ChunkFacts EngineFacts Scenarios BatchScenarios Growth
       Driver Events.
Local Open Scope nat_scope.
Local Open Scope list_scope.

Lemma extends_refl (B : list string) (st : state) : extends B st st.
Proof.
  repeat split; exists []; rewrite ?app_nil_r; try split;
    try reflexivity; intros x [].
Qed.

Lemma extends_trans (B : list string) (st1 st2 st3 : state) :
  extends B st1 st2 -> extends B st2 st3 -> extends B st1 st3.
Proof.
  intros ((sa & Es & Hs) & (ta & Et & Ht) & (fa & Ef & Hf) & (h & Eh))
         ((sa' & Es' & Hs') & (ta' & Et' & Ht') & (fa' & Ef' & Hf') & (h' & Eh')).
  split; [|split; [|split]].
  - exists (sa ++ sa'). rewrite Es', Es, app_assoc. split; [reflexivity|].
    now apply incl_app.
  - exists (ta ++ ta'). rewrite Et', Et, app_assoc. split; [reflexivity|].
    now apply incl_app.
  - exists (fa ++ fa'). rewrite Ef', Ef, app_assoc. split; [reflexivity|].
    now apply incl_app.
  - exists (h' ++ h). now rewrite Eh', Eh, app_assoc.
Qed.

Lemma extends_weaken (B B' : list string) (st st' : state) :
  incl B B' -> extends B st st' -> extends B' st st'.
Proof.
  intros H ((sa & Es & Hs) & (ta & Et & Ht) & (fa & Ef & Hf) & Hh).
  split; [|split; [|split]]; [exists sa | exists ta | exists fa | exact Hh];
    (split; [assumption|]); eapply incl_tran; eassumption.
Qed.

Lemma add_new_appends (x : string) (l : list string) :
  exists a, add_new x l = l ++ a /\ incl a [x].
Proof.
  unfold add_new. destruct (mem x l).
  - exists []. rewrite app_nil_r. split; [reflexivity | intros y []].
  - exists [x]. split; [reflexivity | apply incl_refl].
Qed.

Lemma incl_single (p : string) (B : list string) : In p B -> incl [p] B.
Proof. intros H x [<- | []]. exact H. Qed.

Lemma extends_set_hist (B : list string) (t : trial) (st : state) :
  extends B st (set_hist (t :: hist st) st).
Proof.
  split; [|split; [|split]]; simpl.
  1-3: exists []; rewrite app_nil_r; split; [reflexivity | intros x []].
  now exists [t].
Qed.

Lemma extends_mark_failed (B : list string) (p : string) (st : state) :
  In p B -> extends B st (mark_failed p st).
Proof.
  intros H. apply incl_single in H.
  destruct (add_new_appends p (tested st)) as (ta & Et & Ht).
  destruct (add_new_appends p (failed st)) as (fa & Ef & Hf).
  split; [|split; [|split]]; simpl.
  - exists []. rewrite app_nil_r. split; [reflexivity | intros x []].
  - exists ta. split; [exact Et | eapply incl_tran; eassumption].
  - exists fa. split; [exact Ef | eapply incl_tran; eassumption].
  - now exists [].
Qed.

Lemma extends_mark_safe (B : list string) (p : string) (st : state) :
  In p B -> extends B st (mark_safe p st).
Proof.
  intros H. apply incl_single in H.
  destruct (add_new_appends p (tested st)) as (ta & Et & Ht).
  destruct (add_new_appends p (safe st)) as (sa & Es & Hs).
  split; [|split; [|split]]; simpl.
  - exists sa. split; [exact Es | eapply incl_tran; eassumption].
  - exists ta. split; [exact Et | eapply incl_tran; eassumption].
  - exists []. rewrite app_nil_r. split; [reflexivity | intros x []].
  - now exists [].
Qed.

Lemma extends_extend_safe (B part : list string) (st : state) :
  incl part B -> extends B st (extend_safe part st).
Proof.
  intros H. split; [|split; [|split]]; simpl.
  - now exists part.
  - now exists part.
  - exists []. rewrite app_nil_r. split; [reflexivity | intros x []].
  - now exists [].
Qed.

Lemma sub_batches_incl (n : nat) (batch sub : list string) :
  In sub (sub_batches n batch) -> incl sub batch.
Proof.
  rewrite sub_batches_unfold. intros H.
  apply in_map_iff in H as (k & <- & _).
  intros x Hx. rewrite <- (firstn_skipn (k * n) batch).
  apply in_or_app. right.
  rewrite <- (firstn_skipn n (skipn (k * n) batch)).
  apply in_or_app. now left.
Qed.

Section WithWorld.

Variable cfg : config.
Variable w : world.

Local Abbreviation load_order := (load_order cfg).
Local Abbreviation single_loop := (single_loop cfg w).
Local Abbreviation sub_loop := (sub_loop cfg w).
Local Abbreviation run_batch := (run_batch cfg w).
Local Abbreviation run_batches := (run_batches cfg w).
Local Abbreviation normal_mode := (normal_mode cfg w).
Local Abbreviation next_trial := (next_trial cfg w).
Local Abbreviation flow_state := (@Turbo.flow_state state).

(** *** The ledger only grows *)

Lemma single_loop_extends (B plugins : list string) (st : state) :
  incl plugins B -> extends B st (flow_state (single_loop plugins st)).
Proof.
  revert st. induction plugins as [|p rest IH]; intros st HB.
  - apply extends_refl.
  - assert (Hp : In p B) by (apply HB; now left).
    assert (Hr : incl rest B) by (intros x Hx; apply HB; now right).
    cbn [Engine.single_loop]. unfold attempt.
    set (t := {| t_part := [p]; t_order := _; t_event := _ |}).
    pose proof (extends_set_hist B t st) as H1.
    destruct (oracle w (hist st) (load_order (safe st) [p]));
      try exact H1;
      try (eapply extends_trans; [exact H1|]; now apply IH).
    + eapply extends_trans; [exact H1|].
      eapply extends_trans; [apply (extends_mark_safe B p); exact Hp|].
      now apply IH.
    + eapply extends_trans; [exact H1|].
      eapply extends_trans; [apply (extends_mark_failed B p); exact Hp|].
      now apply IH.
    + eapply extends_trans; [exact H1|].
      eapply extends_trans; [apply (extends_mark_failed B p); exact Hp|].
      now apply IH.
Qed.

Lemma sub_loop_extends (B : list string) (subs : list (list string))
    (st : state) :
  (forall sub, In sub subs -> incl sub B) ->
  extends B st (flow_state (sub_loop subs st)).
Proof.
  revert st. induction subs as [|sub rest IH]; intros st HB.
  - apply extends_refl.
  - assert (Hs : incl sub B) by (apply HB; now left).
    assert (Hr : forall s, In s rest -> incl s B)
      by (intros s Hx; apply HB; now right).
    cbn [Engine.sub_loop]. unfold attempt.
    set (t := {| t_part := sub; t_order := _; t_event := _ |}).
    pose proof (extends_set_hist B t st) as H1.
    assert (Hcrash :
              extends B st
                (flow_state
                   (match sub with
                    | [plugin] =>
                        sub_loop rest (mark_failed plugin (set_hist (t :: hist st) st))
                    | _ =>
                        match single_loop sub (set_hist (t :: hist st) st) with
                        | Finished st2 => sub_loop rest st2
                        | Quit st2 => Quit st2
                        end
                    end))).
    { assert (Hgen :
                extends B st
                  (flow_state
                     (match single_loop sub (set_hist (t :: hist st) st) with
                      | Finished st2 => sub_loop rest st2
                      | Quit st2 => Quit st2
                      end))).
      { pose proof (single_loop_extends B sub (set_hist (t :: hist st) st) Hs) as H2.
        destruct (single_loop sub (set_hist (t :: hist st) st)) as [st2 | st2];
          simpl in H2.
        - eapply extends_trans; [exact H1|].
          eapply extends_trans; [exact H2|]. now apply IH.
        - eapply extends_trans; [exact H1 | exact H2]. }
      destruct sub as [|p [|q tl]]; try exact Hgen.
      eapply extends_trans; [exact H1|].
      eapply extends_trans; [apply (extends_mark_failed B p); apply Hs; now left|].
      now apply IH. }
    destruct (oracle w (hist st) (load_order (safe st) sub));
      try exact H1; try exact Hcrash;
      try (eapply extends_trans; [exact H1|]; now apply IH).
    eapply extends_trans; [exact H1|].
    eapply extends_trans; [apply (extends_extend_safe B sub); exact Hs|].
    now apply IH.
Qed.

Lemma run_batch_extends (fuel : nat) (batch : list string) (st : state)
    (r : flow state) :
  run_batch fuel batch st = Some r -> extends batch st (flow_state r).
Proof.
  revert st. induction fuel as [|fuel IH]; intros st; [discriminate|].
  cbn [Engine.run_batch]. unfold attempt.
  set (t := {| t_part := batch; t_order := _; t_event := _ |}).
  pose proof (extends_set_hist batch t st) as H1.
  destruct (oracle w (hist st) (load_order (safe st) batch)); intros E;
    try (injection E as <-; exact H1).
  - injection E as <-. eapply extends_trans; [exact H1|].
    apply extends_extend_safe, incl_refl.
  - injection E as <-. eapply extends_trans; [exact H1|].
    apply sub_loop_extends. intros sub. apply sub_batches_incl.
  - eapply extends_trans; [exact H1|]. now apply IH.
Qed.

(** X21.  Whatever the game and the operator do, one call of [run_batch]
    only appends to Safe, Tested and Failed, and only plugins of its
    batch: no entry is removed or moved, no other plugin is booked, and
    the history keeps every earlier attempt. *)
Theorem run_batch_only_appends (fuel : nat) (batch : list string)
    (st : state) (r : flow state) :
  run_batch fuel batch st = Some r ->
  extends batch st (flow_state r).
Proof. apply run_batch_extends. Qed.

(** *** Every plugin of the batch is classified *)

Lemma sub_loop_classifies (subs : list (list string)) (st : state) :
  classifying w ->
  exists st',
    sub_loop subs st = Finished st'
    /\ incl (safe st) (safe st')
    /\ incl (failed st) (failed st')
    /\ (forall sub, In sub subs -> classified_all sub st').
Proof.
  intros Hw. revert st. induction subs as [|sub rest IH]; intros st.
  - exists st. repeat split; auto using incl_refl. intros sub [].
  - cbn [Engine.sub_loop]. unfold attempt.
    set (t := {| t_part := sub; t_order := _; t_event := _ |}).
    set (st1 := set_hist (t :: hist st) st).
    assert (Hcrash :
              exists st',
                match sub with
                | [plugin] => sub_loop rest (mark_failed plugin st1)
                | _ =>
                    match single_loop sub st1 with
                    | Finished st2 => sub_loop rest st2
                    | Quit st2 => Quit st2
                    end
                end = Finished st'
                /\ incl (safe st) (safe st')
                /\ incl (failed st) (failed st')
                /\ (forall s, In s (sub :: rest) -> classified_all s st')).
    { assert (Hgen :
                exists st',
                  match single_loop sub st1 with
                  | Finished st2 => sub_loop rest st2
                  | Quit st2 => Quit st2
                  end = Finished st'
                  /\ incl (safe st) (safe st')
                  /\ incl (failed st) (failed st')
                  /\ (forall s, In s (sub :: rest) -> classified_all s st')).
      { destruct (single_loop_one_by_one cfg w sub st1 Hw)
          as (st2 & new & E & _ & _ & _ & Hs & Hf & Hc).
        rewrite E. destruct (IH st2) as (st' & E' & Hs' & Hf' & Hc').
        exists st'. split; [exact E'|]. split; [|split].
        - eapply incl_tran; [exact Hs | exact Hs'].
        - eapply incl_tran; [exact Hf | exact Hf'].
        - intros s [<- | Hin]; [|now apply Hc'].
          intros p Hp. destruct (Hc p Hp) as [H | H]; [left | right]; auto. }
      destruct sub as [|p [|q tl]]; try exact Hgen.
      destruct (IH (mark_failed p st1)) as (st' & E' & Hs' & Hf' & Hc').
      exists st'. split; [exact E'|]. split; [exact Hs'|]. split.
      - intros x Hx. apply Hf'. simpl. apply add_new_In. now left.
      - intros s [<- | Hin]; [|now apply Hc'].
        intros x [<- | []]. right. apply Hf'. simpl. apply add_new_In. now right. }
    destruct (Hw (hist st) (load_order (safe st) sub)) as [E | [E | E]];
      rewrite E; try exact Hcrash.
    destruct (IH (extend_safe sub st1)) as (st' & E' & Hs' & Hf' & Hc').
    exists st'. split; [exact E'|]. split; [|split].
    + intros x Hx. apply Hs'. simpl. apply in_or_app. now left.
    + exact Hf'.
    + intros s [<- | Hin]; [|now apply Hc'].
      intros x Hx. left. apply Hs'. simpl. apply in_or_app. now right.
Qed.

Lemma run_batch_classified (fuel : nat) (batch : list string) (st : state)
    (r : flow state) :
  classifying w ->
  run_batch fuel batch st = Some r ->
  exists st',
    r = Finished st'
    /\ incl (safe st) (safe st')
    /\ incl (failed st) (failed st')
    /\ classified_all batch st'.
Proof.
  intros Hw. revert st. induction fuel as [|fuel IH]; intros st; [discriminate|].
  cbn [Engine.run_batch]. unfold attempt.
  set (t := {| t_part := batch; t_order := _; t_event := _ |}).
  destruct (Hw (hist st) (load_order (safe st) batch)) as [E | [E | E]];
    rewrite E; intros R.
  - injection R as <-. eexists. split; [reflexivity|]. simpl.
    split; [|split].
    + intros x Hx. apply in_or_app. now left.
    + apply incl_refl.
    + intros x Hx. left. simpl. apply in_or_app. now right.
  - injection R as <-.
    destruct (sub_loop_classifies (sub_batches (sub_size_of batch) batch)
                (set_hist (t :: hist st) st) Hw) as (st' & E' & Hs & Hf & Hc).
    exists st'. split; [exact E'|]. split; [exact Hs|]. split; [exact Hf|].
    intros p Hp.
    rewrite <- (concat_sub_batches (sub_size_of batch) batch (sub_size_of_pos batch))
      in Hp.
    apply in_concat in Hp as (sub & Hsub & Hp). exact (Hc sub Hsub p Hp).
  - apply IH in R as (st' & -> & Hs & Hf & Hc). exists st'. auto.
Qed.

(** X22.  When no attempt fails to write or launch and the operator never
    leaves, a call of [run_batch] that comes to an end returns with every
    plugin of its batch booked as Safe or as Failed, and with everything
    that was Safe or Failed before still so. *)
Theorem run_batch_classifies (fuel : nat) (batch : list string) (st : state)
    (r : flow state) :
  classifying w ->
  run_batch fuel batch st = Some r ->
  exists st',
    r = Finished st'
    /\ incl (safe st) (safe st')
    /\ incl (failed st) (failed st')
    /\ classified_all batch st'.
Proof. apply run_batch_classified. Qed.

(** *** The number of trials *)





(** *** The batches of normal mode *)

Lemma run_batches_classified (fuel : nat) (batches : list (list string))
    (st : state) (e : ended) :
  classifying w ->
  run_batches false fuel batches st = Some e ->
  exists st',
    e = Done st'
    /\ incl (safe st) (safe st')
    /\ incl (failed st) (failed st')
    /\ (forall b, In b batches -> classified_all b st').
Proof.
  intros Hw. revert st. induction batches as [|b rest IH]; intros st.
  - simpl. intros [= <-]. exists st. repeat split; auto using incl_refl.
    intros b [].
  - cbn [Driver.run_batches].
    destruct (run_batch fuel b st) as [r1|] eqn:E; [|discriminate].
    apply (run_batch_classified fuel b st r1 Hw) in E
      as (st1 & -> & Hs & Hf & Hc).
    intros R. apply IH in R as (st' & -> & Hs' & Hf' & Hc').
    exists st'. split; [reflexivity|]. split; [|split].
    + eapply incl_tran; eassumption.
    + eapply incl_tran; eassumption.
    + intros b' [<- | Hin]; [|now apply Hc'].
      intros p Hp. destruct (Hc p Hp) as [H | H]; [left | right]; auto.
Qed.

(** X24.  [chunk] over the three kinds of size.  A positive size cuts
    the data into consecutive pieces that glue back to the data, none
    empty and none longer than the size, as many as the length divided by
    the size and rounded up; a zero size is an error; a negative size
    gives no piece at all, whatever the data. *)
Theorem chunk_cases (data : list string) (size : Z) :
  ((0 < size)%Z ->
   exists pieces,
     chunk data size = Some pieces
     /\ List.concat pieces = data
     /\ Forall (fun piece => 1 <= List.length piece <= Z.to_nat size) pieces
     /\ List.length pieces
        = (List.length data + Z.to_nat size - 1) / Z.to_nat size)
  /\ (size = 0%Z -> chunk data size = None)
  /\ ((size < 0)%Z -> chunk data size = Some []).
Proof.
  unfold chunk. split; [|split].
  - intros Hpos. destruct (Z.eqb_spec size 0); [lia|].
    destruct (Z.ltb_spec size 0); [lia|].
    eexists. split; [reflexivity|].
    assert (Hn : 0 < Z.to_nat size) by lia.
    split; [now apply concat_sub_batches|].
    split; [now apply sub_batches_lengths|].
    rewrite sub_batches_unfold, length_map, length_seq. reflexivity.
  - intros ->. reflexivity.
  - intros Hneg. destruct (Z.eqb_spec size 0); [lia|].
    destruct (Z.ltb_spec size 0); [reflexivity | lia].
Qed.

(** X25.  When normal mode tests nothing.  With the debug flag
    [SHOW_LOAD_ORDER_PER_BATCH] on, the testing block ends in its error
    branch before the first batch, whatever the batch size, because the
    helper it calls is not defined.  With the flag off, a negative batch
    size makes the block end normally without a single attempt, the
    candidates neither Safe nor Failed, and a batch size of zero makes it
    end in the error branch, again without an attempt. *)
Theorem normal_mode_tests_nothing (fuel : nat)
    (sanity_plugins to_test patch_plugins : list string) (st : state) :
  normal_mode true fuel sanity_plugins to_test patch_plugins st
  = Some (Failure (extend_safe sanity_plugins st))
  /\ ((BATCH_SIZE cfg < 0)%Z ->
      normal_mode false fuel sanity_plugins to_test patch_plugins st
      = Some (Done (extend_safe sanity_plugins st)))
  /\ (BATCH_SIZE cfg = 0%Z ->
      normal_mode false fuel sanity_plugins to_test patch_plugins st
      = Some (Failure (extend_safe sanity_plugins st))).
Proof.
  unfold Driver.normal_mode, chunk. split; [reflexivity|]. split.
  - intros Hneg. destruct (Z.eqb_spec (BATCH_SIZE cfg) 0); [lia|].
    destruct (Z.ltb_spec (BATCH_SIZE cfg) 0); [reflexivity | lia].
  - intros ->. reflexivity.
Qed.

(** X26.  Normal mode with the debug flag off and a positive batch size,
    when no attempt fails to write or launch and the operator never
    leaves: if the testing block comes to an end, it ends normally and
    every candidate, plugin to test or patch plugin, is booked as Safe or
    as Failed. *)
Theorem normal_mode_classifies (fuel : nat)
    (sanity_plugins to_test patch_plugins : list string) (st : state)
    (e : ended) :
  (0 < BATCH_SIZE cfg)%Z ->
  classifying w ->
  normal_mode false fuel sanity_plugins to_test patch_plugins st = Some e ->
  exists st',
    e = Done st'
    /\ classified_all (to_test ++ patch_plugins) st'.
Proof.
  intros Hb Hw. unfold Driver.normal_mode, chunk.
  destruct (Z.eqb_spec (BATCH_SIZE cfg) 0); [lia|].
  destruct (Z.ltb_spec (BATCH_SIZE cfg) 0); [lia|].
  assert (Hn : 0 < Z.to_nat (BATCH_SIZE cfg)) by lia.
  set (st0 := extend_safe sanity_plugins st).
  set (tt := filter (fun p => negb (mem p (safe st0))) to_test).
  set (pp := filter (fun p => negb (mem p (safe st0))) patch_plugins).
  destruct (run_batches false fuel (sub_batches (Z.to_nat (BATCH_SIZE cfg)) tt) st0)
    as [r1|] eqn:E1; [|discriminate].
  apply (run_batches_classified _ _ _ _ Hw) in E1 as (st1 & -> & Hs1 & Hf1 & Hc1).
  intros E2.
  apply (run_batches_classified _ _ _ _ Hw) in E2 as (st2 & -> & Hs2 & Hf2 & Hc2).
  exists st2. split; [reflexivity|].
  assert (Hcover : forall (l : list string) p,
             In p l ->
             In p (safe st0)
             \/ exists b, In b (sub_batches (Z.to_nat (BATCH_SIZE cfg))
                                  (filter (fun p => negb (mem p (safe st0))) l))
                          /\ In p b).
  { intros l p Hp. destruct (mem p (safe st0)) eqn:Em.
    - left. now apply mem_In.
    - right. apply in_concat. rewrite concat_sub_batches by exact Hn.
      apply filter_In. split; [exact Hp | now rewrite Em]. }
  intros p Hp. apply in_app_or in Hp as [Hp | Hp].
  - destruct (Hcover to_test p Hp) as [Hx | (b & Hb' & Hpb)].
    + left. apply Hs2, Hs1, Hx.
    + destruct (Hc1 b Hb' p Hpb) as [Hx | Hx];
        [left; now apply Hs2 | right; now apply Hf2].
  - destruct (Hcover patch_plugins p Hp) as [Hx | (b & Hb' & Hpb)].
    + left. apply Hs2, Hs1, Hx.
    + exact (Hc2 b Hb' p Hpb).
Qed.

End WithWorld.

Local Open Scope string_scope.

Lemma culprit_classifying (bad : string) : classifying (culprit bad).
Proof. intros h o. simpl. destruct (mem bad o); auto. Qed.

Lemma run_batch_only_appends_witness :
  exists r,
    run_batch cfg_small (culprit "c.esp") 1 batch5 state0 = Some r
    /\ extends batch5 state0 (Turbo.flow_state r).
Proof.
  eexists. split; [reflexivity|].
  apply (run_batch_only_appends cfg_small (culprit "c.esp") 1 batch5 state0).
  reflexivity.
Defined.

Lemma run_batch_classifies_witness :
  exists st',
    run_batch cfg_small (culprit "c.esp") 1 batch5 state0 = Some (Finished st')
    /\ classified_all batch5 st'.
Proof.
  destruct (run_batch cfg_small (culprit "c.esp") 1 batch5 state0)
    as [r|] eqn:E; [|discriminate E].
  destruct (run_batch_classifies cfg_small (culprit "c.esp") 1 batch5 state0 r
              (culprit_classifying "c.esp") E) as (st' & -> & _ & _ & Hc).
  exists st'. split; [reflexivity | exact Hc].
Defined.


Lemma chunk_cases_witness :
  exists pieces,
    chunk batch5 2 = Some pieces
    /\ List.concat pieces = batch5
    /\ Forall (fun piece => 1 <= List.length piece <= Z.to_nat 2) pieces
    /\ List.length pieces = (List.length batch5 + Z.to_nat 2 - 1) / Z.to_nat 2.
Proof.
  apply (proj1 (chunk_cases batch5 2)). lia.
Defined.

Lemma normal_mode_tests_nothing_witness :
  normal_mode cfg_negative (culprit "c.esp") false 1 ["Oblivion.esm"] batch5 []
              state0
  = Some (Done (extend_safe ["Oblivion.esm"] state0)).
Proof.
  apply (proj1 (proj2 (normal_mode_tests_nothing cfg_negative (culprit "c.esp") 1
                         ["Oblivion.esm"] batch5 [] state0))).
  simpl. lia.
Defined.

Lemma normal_mode_classifies_witness :
  exists st',
    normal_mode cfg_small (culprit "c.esp") false 1 ["Oblivion.esm"] batch5
                ["fix.esp"] state0 = Some (Done st')
    /\ classified_all (batch5 ++ ["fix.esp"]) st'.
Proof.
  destruct (normal_mode cfg_small (culprit "c.esp") false 1 ["Oblivion.esm"]
                        batch5 ["fix.esp"] state0) as [e|] eqn:E;
    [|discriminate E].
  destruct (normal_mode_classifies cfg_small (culprit "c.esp") 1
              ["Oblivion.esm"] batch5 ["fix.esp"] state0 e)
    as (st' & -> & Hc); [simpl; lia | apply culprit_classifying | exact E |].
  exists st'. split; [reflexivity | exact Hc].
Defined.

End EngineMore.

(** ** More on turbo batch mode *)

Module TurboMore.

Import PyStr PyStrFacts Engine ChunkFacts EngineFacts Turbo TurboFacts
       Scenarios BatchScenarios TurboBounds.
Local Open Scope nat_scope.
Local Open Scope list_scope.

Lemma py_prefix_incl {A : Type} (n : Z) (l : list A) : incl (py_prefix n l) l.
Proof.
  unfold py_prefix. intros x Hx.
  destruct (0 <=? n)%Z;
    match type of Hx with
    | In _ (firstn ?k _) =>
        rewrite <- (firstn_skipn k l); apply in_or_app; now left
    end.
Qed.

Lemma py_prefix_pos {A : Type} (n : Z) (l : list A) :
  (0 < n)%Z -> py_prefix n l = firstn (Z.to_nat n) l.
Proof. intros H. unfold py_prefix. destruct (Z.leb_spec 0 n); [reflexivity | lia]. Qed.

Lemma filter_all {A : Type} (f : A -> bool) (l : list A) :
  (forall x, In x l -> f x = true) -> filter f l = l.
Proof.
  induction l as [|x l IH]; intros H; simpl; [reflexivity|].
  rewrite (H x (or_introl eq_refl)). f_equal. apply IH.
  intros y Hy. apply H. now right.
Qed.

Lemma filter_none {A : Type} (f : A -> bool) (l : list A) :
  (forall x, In x l -> f x = false) -> filter f l = [].
Proof.
  induction l as [|x l IH]; intros H; simpl; [reflexivity|].
  rewrite (H x (or_introl eq_refl)). apply IH.
  intros y Hy. apply H. now right.
Qed.

(** Dropping what a passed batch made Safe leaves the rest of the list. *)
Lemma filter_drop_prefix (n : nat) (S l : list string) :
  NoDup l -> (forall p, In p l -> ~ In p S) ->
  filter (fun p => negb (mem p (S ++ firstn n l))) l = skipn n l.
Proof.
  intros Hn Hd.
  set (f := fun p => negb (mem p (S ++ firstn n l))).
  assert (E : filter f l = filter f (firstn n l ++ skipn n l))
    by now rewrite firstn_skipn.
  rewrite E. unfold f. clear E f.
  rewrite <- (firstn_skipn n l) in Hn.
  destruct (NoDup_app_inv _ _ Hn) as (_ & _ & Hsep).
  rewrite filter_app, filter_none, filter_all; [reflexivity| |].
  - intros x Hx. apply negb_true_iff, mem_false. rewrite in_app_iff.
    intros [H | H].
    + apply (Hd x); [|exact H]. rewrite <- (firstn_skipn n l).
      apply in_or_app. now right.
    + exact (Hsep x H Hx).
  - intros x Hx. apply negb_false_iff, mem_In, in_or_app. now right.
Qed.

Lemma sub_batches_nil (n : nat) : 0 < n -> sub_batches n [] = [].
Proof.
  intros Hn. rewrite sub_batches_unfold. simpl.
  replace ((n - 1) / n) with 0; [reflexivity|].
  symmetry. apply Nat.div_small. lia.
Qed.

(** The first piece is the first [n] elements; the others are the pieces
    of the rest. *)
Lemma sub_batches_cons (n : nat) (l : list string) :
  0 < n -> l <> [] ->
  sub_batches n l = firstn n l :: sub_batches n (skipn n l).
Proof.
  intros Hn Hl. rewrite !sub_batches_unfold, length_skipn.
  assert (Hlen : 0 < List.length l) by (destruct l; [congruence | simpl; lia]).
  assert (E : (List.length l + n - 1) / n
              = S ((List.length l - n + n - 1) / n)).
  { destruct (Nat.le_gt_cases n (List.length l)) as [Hge | Hlt].
    - replace (List.length l + n - 1) with ((List.length l - n + n - 1) + 1 * n) by lia.
      rewrite Nat.div_add by lia. lia.
    - replace (List.length l - n + n - 1) with (n - 1) by lia.
      rewrite (Nat.div_small (n - 1) n) by lia.
      pose proof (Nat.div_mod_eq (List.length l + n - 1) n) as D.
      pose proof (Nat.mod_upper_bound (List.length l + n - 1) n ltac:(lia)) as B.
      nia. }
  rewrite E. cbn [seq map]. f_equal.
  rewrite <- seq_shift, map_map. apply map_ext. intros k.
  rewrite skipn_skipn. f_equal. f_equal. lia.
Qed.

Section WithWorld.

Variable cfg : config.
Variable w : world.

Local Abbreviation turbo_order := (turbo_order cfg).
Local Abbreviation recheck_loop := (recheck_loop cfg w).
Local Abbreviation recheck := (recheck cfg w).
Local Abbreviation turbo_singles := (turbo_singles cfg w).
Local Abbreviation turbo_subs := (turbo_subs cfg w).
Local Abbreviation turbo_while := (turbo_while cfg w).
Local Abbreviation turbo_batch_mode := (turbo_batch_mode cfg w).
Local Abbreviation next_attempt := (next_attempt w).
Local Abbreviation after_failure := (after_failure cfg w).
Local Abbreviation seed := (seed cfg).

Lemma seed_fields (to_test patch_plugins safe0 : list string) :
  let st := seed (turbo_init to_test patch_plugins safe0) in
  failed st = [] /\ remaining st = to_test ++ patch_plugins /\ hist st = []
  /\ (forall p, In p (safe st)
                <-> In p safe0
                    \/ In p (REQUIRED_PLUGINS cfg ++ OPTIONAL_PATCHES cfg))
  /\ (forall p, In p (tested st)
                <-> In p (REQUIRED_PLUGINS cfg ++ OPTIONAL_PATCHES cfg)).
Proof.
  cbv zeta. unfold Turbo.seed.
  destruct (commit_fields (REQUIRED_PLUGINS cfg ++ OPTIONAL_PATCHES cfg)
              (turbo_init to_test patch_plugins safe0)) as (A & B & C).
  rewrite A, B, C. repeat split; try reflexivity.
  - now rewrite commit_safe_In.
  - now rewrite commit_safe_In.
  - rewrite commit_tested_In. simpl. tauto.
  - rewrite commit_tested_In. simpl. tauto.
Qed.

(** *** A batch size that gives an empty batch *)

Lemma turbo_while_stuck (fuel : nat) (st : tstate) :
  classifying w ->
  py_prefix (BATCH_SIZE cfg) (remaining st) = [] ->
  remaining st <> [] ->
  (forall p, In p (remaining st) -> ~ In p (safe st)) ->
  turbo_while fuel st = None.
Proof.
  intros Hw. revert st. induction fuel as [|fuel IH]; intros st Hb Hne Hd.
  - simpl. destruct (remaining st); [congruence | reflexivity].
  - rewrite turbo_while_step by exact Hne. cbv zeta. rewrite Hb.
    set (st1 := set_hist _ st).
    destruct (Hw (hist st) (turbo_order (safe st) [])) as [E | [E | E]];
      rewrite E.
    + assert (Er : remaining (drop_safe (commit [] st1)) = remaining st).
      { cbn. apply filter_all. intros p Hp.
        apply negb_true_iff, mem_false. now apply Hd. }
      apply IH; rewrite Er; assumption.
    + rewrite sub_batches_nil by apply sub_size_of_pos.
      cbn [Turbo.turbo_subs]. now apply IH.
    + now apply IH.
Qed.

(** X27.  Turbo mode with a batch size that cuts an empty batch never
    comes to an end.  When [remaining[:BATCH_SIZE]] is empty although
    candidates remain (a size of zero, or a negative size no smaller than
    minus their number), no candidate is in Safe at the start, and every
    attempt passes, crashes or is resumed, the [while] loop launches the
    game on the baseline again and again: no number of turns gives a
    result. *)
Theorem turbo_empty_batch_never_ends
    (to_test patch_plugins safe0 : list string) :
  classifying w ->
  py_prefix (BATCH_SIZE cfg) (to_test ++ patch_plugins) = [] ->
  to_test ++ patch_plugins <> [] ->
  (forall p, In p (to_test ++ patch_plugins) ->
             ~ In p (safe0 ++ REQUIRED_PLUGINS cfg ++ OPTIONAL_PATCHES cfg)) ->
  forall fuel, turbo_batch_mode fuel to_test patch_plugins safe0 = None.
Proof.
  intros Hw Hb Hne Hd fuel. unfold Turbo.turbo_batch_mode.
  destruct (seed_fields to_test patch_plugins safe0) as (_ & Er & _ & Hs & _).
  rewrite turbo_while_stuck; [reflexivity | exact Hw | | |].
  - now rewrite Er.
  - now rewrite Er.
  - rewrite Er. intros p Hp Hin. apply (Hd p Hp). apply Hs in Hin.
    apply in_app_iff. exact Hin.
Qed.

(** *** When every trial passes *)

Lemma commit_fresh (part : list string) (st : tstate) :
  NoDup part ->
  (forall p, In p part -> ~ In p (safe st) /\ ~ In p (tested st)) ->
  safe (commit part st) = safe st ++ part
  /\ tested (commit part st) = tested st ++ part.
Proof.
  revert st. induction part as [|p part IH]; intros st Hn Hd.
  - simpl. now rewrite !app_nil_r.
  - inversion Hn as [|x l Hx Hn']; subst. rewrite commit_cons.
    destruct (Hd p (or_introl eq_refl)) as [Hs Ht].
    apply mem_false in Hs. apply mem_false in Ht.
    destruct (IH (mark_safe p st) Hn') as [A B].
    { intros q Hq. cbn [mark_safe safe tested]. rewrite !add_new_In.
      destruct (Hd q (or_intror Hq)) as [Qs Qt].
      split; intros [H | ->]; auto. }
    rewrite A, B. cbn [mark_safe safe tested]. unfold add_new.
    rewrite Hs, Ht, <- !app_assoc. auto.
Qed.

Lemma turbo_while_all_pass (fuel : nat) (st : tstate) :
  (forall h order, oracle w h order = Passed) ->
  (0 < BATCH_SIZE cfg)%Z ->
  List.length (remaining st) < fuel ->
  NoDup (remaining st) ->
  (forall p, In p (remaining st) -> ~ In p (safe st) /\ ~ In p (tested st)) ->
  exists st' new,
    turbo_while fuel st = Some (Next st')
    /\ safe st' = safe st ++ remaining st
    /\ tested st' = tested st ++ remaining st
    /\ failed st' = failed st
    /\ remaining st' = []
    /\ hist st' = new ++ hist st
    /\ map t_part (rev new)
       = sub_batches (Z.to_nat (BATCH_SIZE cfg)) (remaining st).
Proof.
  intros Hp Hb. assert (Hn : 0 < Z.to_nat (BATCH_SIZE cfg)) by lia.
  revert st. induction fuel as [|fuel IH]; intros st Hlen Hnd Hd; [lia|].
  destruct (remaining st) as [|x xs] eqn:Er.
  { exists st, []. cbn [Turbo.turbo_while]. rewrite Er, !app_nil_r.
    rewrite sub_batches_nil by exact Hn. auto 10. }
  rewrite turbo_while_step by (rewrite Er; discriminate).
  cbv zeta. rewrite Hp, py_prefix_pos by exact Hb. rewrite Er.
  set (n := Z.to_nat (BATCH_SIZE cfg)) in *.
  set (batch := firstn n (x :: xs)).
  set (st1 := set_hist _ st).
  assert (Hbn : NoDup batch).
  { unfold batch. rewrite <- (firstn_skipn n (x :: xs)) in Hnd.
    now apply NoDup_app_remove_r in Hnd. }
  assert (Hbi : forall p, In p batch -> In p (x :: xs)).
  { intros p Hq. rewrite <- (firstn_skipn n (x :: xs)).
    apply in_or_app. now left. }
  destruct (commit_fresh batch st1 Hbn) as [Cs Ct].
  { intros p Hq. apply Hd. rewrite ?Er. now apply Hbi. }
  destruct (commit_fields batch st1) as (Cf & Cr & Ch).
  set (st2 := drop_safe (commit batch st1)).
  assert (R2 : remaining st2 = skipn n (x :: xs)).
  { unfold st2. cbn [drop_safe set_remaining remaining]. rewrite Cr, Cs.
    cbn [st1 set_hist remaining safe]. rewrite ?Er.
    apply filter_drop_prefix; [exact Hnd|].
    intros p Hq. apply Hd. now rewrite ?Er. }
  assert (S2 : safe st2 = safe st ++ batch) by exact Cs.
  assert (T2 : tested st2 = tested st ++ batch) by exact Ct.
  assert (F2 : failed st2 = failed st) by exact Cf.
  assert (H2 : hist st2 = next_attempt batch (turbo_order (safe st) batch) st
                            :: hist st) by exact Ch.
  assert (Hsk : forall p, In p (skipn n (x :: xs)) -> In p (x :: xs)).
  { intros p Hq. rewrite <- (firstn_skipn n (x :: xs)).
    apply in_or_app. now right. }
  destruct (IH st2) as (st' & new & E & Es & Et & Ef & Erem & Eh & Eparts).
  { rewrite R2, length_skipn. try rewrite Er in Hlen.
    assert (Hn' : 0 < n) by exact Hn.
    cbn [List.length] in Hlen |- *. lia. }
  { rewrite R2. rewrite <- (firstn_skipn n (x :: xs)) in Hnd.
    now apply NoDup_app_remove_l in Hnd. }
  { intros p Hq. rewrite R2 in Hq. rewrite S2, T2, !in_app_iff.
    assert (Hnb : ~ In p batch).
    { rewrite <- (firstn_skipn n (x :: xs)) in Hnd.
      destruct (NoDup_app_inv _ _ Hnd) as (_ & _ & Hsep).
      intros Hin. exact (Hsep p Hin Hq). }
    destruct (Hd p) as [A B]; [rewrite ?Er; now apply Hsk|]. tauto. }
  exists st', (new ++ [next_attempt batch (turbo_order (safe st) batch) st]).
  split; [exact E|].
  rewrite Es, Et, Ef, Eh, S2, T2, F2, H2, R2, <- !app_assoc.
  unfold batch. rewrite firstn_skipn.
  repeat split; try reflexivity; try exact Erem.
  rewrite rev_app_distr. cbn [rev app map next_attempt t_part].
  rewrite Eparts, R2. fold batch.
  symmetry. apply sub_batches_cons; [exact Hn | discriminate].
Qed.

(** X28.  The run in which nothing is wrong.  With a positive batch
    size, distinct candidates none of which is required or optional, and
    a game that passes every trial, turbo mode returns after one trial
    per batch: the batches tried are the consecutive pieces of the
    candidate list, Safe and Tested end as the seeded plugins followed by
    the candidates in their order, and Failed stays empty. *)
Theorem turbo_all_pass (fuel : nat) (to_test patch_plugins : list string) :
  let cands := to_test ++ patch_plugins in
  let seeds := safe (seed (turbo_init to_test patch_plugins [])) in
  (forall h order, oracle w h order = Passed) ->
  (0 < BATCH_SIZE cfg)%Z ->
  NoDup cands ->
  (forall p, In p cands ->
             ~ In p (REQUIRED_PLUGINS cfg ++ OPTIONAL_PATCHES cfg)) ->
  List.length cands < fuel ->
  exists st,
    turbo_batch_mode fuel to_test patch_plugins [] = Some (Finished st)
    /\ safe st = seeds ++ cands
    /\ tested st = seeds ++ cands
    /\ failed st = []
    /\ remaining st = []
    /\ partitions (hist st) = sub_batches (Z.to_nat (BATCH_SIZE cfg)) cands.
Proof.
  intros cands seeds Hp Hb Hn Hd Hfuel. unfold Turbo.turbo_batch_mode.
  destruct (seed_fields to_test patch_plugins []) as (Ef & Er & Eh & Hs & Ht).
  fold cands in Er.
  assert (Est : safe (seed (turbo_init to_test patch_plugins []))
                = tested (seed (turbo_init to_test patch_plugins []))).
  { unfold Turbo.seed. now apply commit_same. }
  destruct (turbo_while_all_pass fuel (seed (turbo_init to_test patch_plugins []))
              Hp Hb) as (st' & new & E & Es & Et & Ef' & Erem & Eh' & Eparts).
  { now rewrite Er. }
  { now rewrite Er. }
  { intros p Hq. rewrite Er in Hq. rewrite <- Est. split; intros Hin.
    - apply Hs in Hin as [[] | Hin]. exact (Hd p Hq Hin).
    - apply Hs in Hin as [[] | Hin]. exact (Hd p Hq Hin). }
  rewrite E. exists st'.
  assert (Hfail : failed st' = []) by (now rewrite Ef', Ef).
  split.
  { unfold Turbo.recheck. now rewrite Hfail. }
  rewrite Es, Et, <- Est, Er. fold seeds.
  repeat split; try reflexivity; try assumption.
  unfold partitions. rewrite Eh', Eh, app_nil_r, Eparts, Er. reflexivity.
Qed.

(** *** Nothing but the inputs gets into the lists *)

Section Within.

Variables cands given : list string.

Local Abbreviation within := (TurboBounds.within cands given).

Lemma within_set_hist (h : history) (st : tstate) :
  within st -> within (set_hist h st).
Proof. intros H. exact H. Qed.

Lemma add_new_within (p : string) (l U : list string) :
  In p U -> incl l U -> incl (add_new p l) U.
Proof.
  intros Hp Hl x Hx. apply add_new_In in Hx as [Hx | ->]; auto.
Qed.

Lemma within_mark_safe (p : string) (st : tstate) :
  In p cands -> within st -> within (mark_safe p st).
Proof.
  intros Hp (A & B & C & D). unfold TurboBounds.within. cbn.
  repeat split; try assumption;
    apply add_new_within; try assumption; apply in_or_app; now right.
Qed.

Lemma within_mark_failed (p : string) (st : tstate) :
  In p cands -> within st -> within (mark_failed p st).
Proof.
  intros Hp (A & B & C & D). unfold TurboBounds.within. cbn.
  repeat split; try assumption.
  - now apply add_new_within.
  - apply add_new_within; try assumption. apply in_or_app; now right.
Qed.

Lemma within_commit (part : list string) (st : tstate) :
  incl part cands -> within st -> within (commit part st).
Proof.
  revert st. induction part as [|p part IH]; intros st Hi H; [exact H|].
  rewrite commit_cons. apply IH.
  - intros x Hx. apply Hi. now right.
  - apply within_mark_safe; [apply Hi; now left | exact H].
Qed.

Lemma within_set_remaining (r : list string) (st : tstate) :
  incl r (remaining st) -> within st -> within (set_remaining r st).
Proof.
  intros Hr (A & B & C & D). unfold TurboBounds.within. cbn.
  repeat split; try assumption. eapply incl_tran; eassumption.
Qed.

Lemma within_drop_safe (st : tstate) : within st -> within (drop_safe st).
Proof. apply within_set_remaining. apply incl_filter. Qed.

Lemma within_drop_classified (st : tstate) :
  within st -> within (drop_classified st).
Proof. apply within_set_remaining. apply incl_filter. Qed.

Lemma recheck_loop_within (plugins : list string) (st : tstate)
    (refailed : list string) :
  incl plugins cands -> incl refailed cands -> within st ->
  within (fst (flow_state (recheck_loop plugins st refailed)))
  /\ incl (snd (flow_state (recheck_loop plugins st refailed))) cands.
Proof.
  revert st refailed. induction plugins as [|p rest IH];
    intros st refailed Hp Hr H.
  - simpl. auto.
  - assert (Hin : In p cands) by (apply Hp; now left).
    assert (Hrest : incl rest cands) by (intros x Hx; apply Hp; now right).
    assert (Hr' : incl (refailed ++ [p]) cands).
    { apply incl_app; [exact Hr|]. intros x [<- | []]. exact Hin. }
    cbn [Turbo.recheck_loop].
    pose proof (recheck_step_cases cfg w p st refailed) as Hs. cbv zeta in Hs.
    destruct (t_event (next_attempt [p] (recheck_order cfg w st p) st));
      rewrite Hs; try (apply IH; assumption); try (simpl; auto; fail).
    apply IH; try assumption.
    destruct H as (A & B & C & D). unfold TurboBounds.within. cbn.
    repeat split; try assumption.
    apply incl_app; [exact C|]. intros x [<- | []]. apply in_or_app. now right.
Qed.

Lemma recheck_within (st : tstate) :
  within st -> within (flow_state (recheck st)).
Proof.
  intros H. unfold Turbo.recheck. destruct (failed st) as [|f fs] eqn:Ef;
    [exact H|].
  destruct (wants_retest (answer w)); [|exact H].
  destruct (recheck_loop_within (f :: fs) st []) as [A B];
    [rewrite <- Ef; apply H | intros x [] | exact H |].
  destruct (recheck_loop (f :: fs) st []) as [[st1 r] | [st1 r]];
    cbn [flow_state fst snd] in *; [|exact A].
  destruct A as (A1 & A2 & A3 & A4). unfold TurboBounds.within. cbn.
  auto.
Qed.

Lemma after_failure_within (rest : list string) (st2 : tstate) :
  (forall st, within st -> within (result_state (turbo_singles rest st))) ->
  within st2 -> within (result_state (after_failure rest st2)).
Proof.
  intros IH H. unfold Turbo.after_failure.
  destruct (unclassified st2) as [|x xs] eqn:Eu; [now apply IH|].
  destruct (oracle w (hist st2) (turbo_order (safe st2) (x :: xs)));
    try (apply IH; exact H); try exact H.
  rewrite of_recheck_state. apply recheck_within.
  apply within_set_remaining; [intros y []|].
  apply within_commit; [|exact H].
  rewrite <- Eu. unfold unclassified.
  eapply incl_tran; [apply incl_filter | apply H].
Qed.

Lemma turbo_singles_within (sub : list string) (st : tstate) :
  incl sub cands -> within st -> within (result_state (turbo_singles sub st)).
Proof.
  revert st. induction sub as [|p rest IH]; intros st Hi H; [exact H|].
  assert (Hp : In p cands) by (apply Hi; now left).
  assert (Hr : incl rest cands) by (intros x Hx; apply Hi; now right).
  rewrite turbo_singles_cons.
  destruct (oracle w (hist st) (turbo_order (safe st) [p]));
    try (apply IH; [exact Hr | exact H]); try exact H.
  - apply IH; [exact Hr|]. now apply within_mark_safe.
  - apply after_failure_within; [intros s; now apply IH|].
    now apply within_mark_failed.
  - apply after_failure_within; [intros s; now apply IH|].
    now apply within_mark_failed.
Qed.

Lemma turbo_subs_within (subs : list (list string)) (st : tstate) :
  (forall sub, In sub subs -> incl sub cands) ->
  within st -> within (result_state (turbo_subs subs st)).
Proof.
  revert st. induction subs as [|sub rest IH]; intros st Hi H; [exact H|].
  assert (Hs : incl sub cands) by (apply Hi; now left).
  assert (Hr : forall s, In s rest -> incl s cands)
    by (intros s Hx; apply Hi; now right).
  rewrite turbo_subs_cons.
  set (st1 := set_hist _ st).
  assert (Hc : within (result_state
                         match turbo_singles sub st1 with
                         | Next st2 => turbo_subs rest (drop_classified st2)
                         | other => other
                         end)).
  { pose proof (turbo_singles_within sub st1 Hs H) as H1.
    destruct (turbo_singles sub st1) as [st2 | st2 | st2];
      cbn [result_state] in H1 |- *; try exact H1.
    apply IH; [exact Hr|]. now apply within_drop_classified. }
  destruct (oracle w (hist st) (turbo_order (safe st) sub));
    try exact Hc; try (apply IH; [exact Hr | exact H]); try exact H.
  apply IH; [exact Hr|]. apply within_drop_safe.
  apply within_commit; [exact Hs | exact H].
Qed.

Lemma turbo_while_within (fuel : nat) (st : tstate) (r : tflow) :
  within st -> turbo_while fuel st = Some r -> within (result_state r).
Proof.
  revert st. induction fuel as [|fuel IH]; intros st H.
  - simpl. destruct (remaining st); [|discriminate]. now intros [= <-].
  - destruct (remaining st) as [|x xs] eqn:Er.
    { cbn [Turbo.turbo_while]. rewrite Er. now intros [= <-]. }
    rewrite turbo_while_step by (rewrite Er; discriminate).
    set (batch := py_prefix (BATCH_SIZE cfg) (remaining st)).
    set (st1 := set_hist _ st).
    assert (Hb : incl batch cands).
    { eapply incl_tran; [apply py_prefix_incl | apply H]. }
    destruct (oracle w (hist st) (turbo_order (safe st) batch)).
    + now intros [= <-].
    + now intros [= <-].
    + apply IH. apply within_drop_safe. apply within_commit; assumption.
    + pose proof (turbo_subs_within (sub_batches (sub_size_of batch) batch) st1)
        as Hs.
      destruct (turbo_subs (sub_batches (sub_size_of batch) batch) st1)
        as [st2 | st2 | st2]; cbn [result_state] in Hs.
      * apply IH. apply Hs; [|exact H].
        intros sub Hsub. eapply incl_tran; [|exact Hb].
        exact (EngineMore.sub_batches_incl _ _ _ Hsub).
      * intros [= <-]. apply Hs; [|exact H].
        intros sub Hsub. eapply incl_tran; [|exact Hb].
        exact (EngineMore.sub_batches_incl _ _ _ Hsub).
      * intros [= <-]. apply Hs; [|exact H].
        intros sub Hsub. eapply incl_tran; [|exact Hb].
        exact (EngineMore.sub_batches_incl _ _ _ Hsub).
    + now apply IH.
    + now intros [= <-].
Qed.

End Within.

(** X29.  Turbo mode never books a plugin it was not given.  Whatever
    the game and the operator do, whatever the batch size, and however
    the run ends, Failed holds candidates only, and Safe and Tested hold
    only candidates, required and optional plugins and what Safe held at
    the start. *)
Theorem turbo_books_only_inputs (fuel : nat)
    (to_test patch_plugins safe0 : list string) (r : flow tstate) :
  turbo_batch_mode fuel to_test patch_plugins safe0 = Some r ->
  within (to_test ++ patch_plugins)
         (safe0 ++ REQUIRED_PLUGINS cfg ++ OPTIONAL_PATCHES cfg)
         (flow_state r).
Proof.
  unfold Turbo.turbo_batch_mode.
  set (C := to_test ++ patch_plugins).
  set (G := safe0 ++ REQUIRED_PLUGINS cfg ++ OPTIONAL_PATCHES cfg).
  assert (H0 : within C G (seed (turbo_init to_test patch_plugins safe0))).
  { destruct (seed_fields to_test patch_plugins safe0) as (Ef & Er & _ & Hs & Ht).
    unfold within. rewrite Ef, Er. split; [intros x []|].
    split; [apply incl_refl|]. split.
    - intros x Hx. apply Hs in Hx. unfold G. rewrite !in_app_iff in *. tauto.
    - intros x Hx. apply Ht in Hx. unfold G. rewrite !in_app_iff in *. tauto. }
  destruct (turbo_while fuel (seed (turbo_init to_test patch_plugins safe0)))
    as [t|] eqn:E; [|discriminate].
  pose proof (turbo_while_within C G fuel _ t H0 E) as H1.
  destruct t as [st | st | st]; cbn [result_state] in H1; intros [= <-].
  - now apply recheck_within.
  - exact H1.
  - exact H1.
Qed.

End WithWorld.

Local Open Scope string_scope.
Local Open Scope list_scope.

Lemma turbo_empty_batch_never_ends_witness :
  turbo_batch_mode cfg_zero (culprit "c.esp") 50 ["a.esp"] ["c.esp"] [] = None.
Proof.
  refine (turbo_empty_batch_never_ends cfg_zero (culprit "c.esp")
            ["a.esp"] ["c.esp"] [] _ _ _ _ 50).
  - apply EngineMore.culprit_classifying.
  - reflexivity.
  - discriminate.
  - intros p Hp. simpl in Hp. simpl.
    destruct Hp as [<- | [<- | []]]; intros [H | []]; discriminate H.
Defined.

Lemma turbo_all_pass_witness :
  exists st,
    turbo_batch_mode cfg_small all_pass 6 batch5 [] [] = Some (Finished st)
    /\ safe st = safe (seed cfg_small (turbo_init batch5 [] [])) ++ batch5 ++ []
    /\ tested st = safe (seed cfg_small (turbo_init batch5 [] [])) ++ batch5 ++ []
    /\ failed st = []
    /\ remaining st = []
    /\ partitions (hist st)
       = sub_batches (Z.to_nat (BATCH_SIZE cfg_small)) (batch5 ++ []).
Proof.
  apply (turbo_all_pass cfg_small all_pass 6 batch5 []).
  - intros h order. reflexivity.
  - simpl. lia.
  - simpl. repeat (constructor; [simpl; intuition discriminate|]). constructor.
  - intros p Hp. simpl in Hp. simpl.
    repeat (destruct Hp as [<- | Hp]; [intros [H | []]; discriminate H|]).
    destruct Hp.
  - simpl. lia.
Defined.

Lemma turbo_books_only_inputs_witness :
  exists r,
    turbo_batch_mode cfg_small (culprit "c.esp") 10 batch5 [] [] = Some r
    /\ within (batch5 ++ [])
              ([] ++ REQUIRED_PLUGINS cfg_small ++ OPTIONAL_PATCHES cfg_small)
              (flow_state r).
Proof.
  eexists. split; [reflexivity|].
  apply (turbo_books_only_inputs cfg_small (culprit "c.esp") 10 batch5 [] []).
  reflexivity.
Defined.

End TurboMore.

(** ** One bad plugin *)

Module CulpritFacts.

Import PyStr PyStrFacts Engine ChunkFacts EngineFacts Scenarios Keys Growth
       LoadOrderFacts EngineMore.
Local Open Scope nat_scope.
Local Open Scope string_scope.
Local Open Scope list_scope.

Section OneCulprit.

Variable cfg : config.
Variable bad : string.
Variable batch : list string.
Variable st0 : state.

Local Abbreviation w := (culprit bad).
Local Abbreviation load_order := (load_order cfg).
Local Abbreviation single_loop := (single_loop cfg w).
Local Abbreviation sub_loop := (sub_loop cfg w).
Local Abbreviation run_batch := (run_batch cfg w).
Local Abbreviation universe :=
  (REQUIRED_PLUGINS cfg ++ OPTIONAL_PATCHES cfg ++ safe st0 ++ batch).

(** The bad plugin has a name, no other plugin in sight is spelled like
    it up to case and blanks, and it is not part of the baseline. *)
Hypothesis bad_named : blank bad = false.
Hypothesis bad_alone :
  forall q, In q universe -> ci_key q = ci_key bad -> q = bad.
Hypothesis bad_new :
  ~ In bad (REQUIRED_PLUGINS cfg ++ OPTIONAL_PATCHES cfg ++ safe st0).

(** Safe has not taken the bad plugin in and holds nothing from outside. *)
Local Abbreviation sound :=
  (fun s : state => ~ In bad (safe s) /\ incl (safe s) universe).

Lemma dedupe_keeps (seen l : list string) :
  ~ In (ci_key bad) seen ->
  (forall q, In q l -> ci_key q = ci_key bad -> q = bad) ->
  In bad l -> In bad (dedupe seen l).
Proof.
  revert seen. induction l as [|x l IH]; intros seen Hs Hk Hin; [destruct Hin|].
  simpl. fold (ci_key x). destruct (string_dec x bad) as [-> | Hx].
  - rewrite ci_key_blank, bad_named. apply mem_false in Hs. rewrite Hs.
    now left.
  - destruct Hin as [E | Hin]; [contradiction|].
    assert (Hkx : ci_key x <> ci_key bad).
    { intros E. apply Hx. apply Hk; [now left | exact E]. }
    assert (Hk' : forall q, In q l -> ci_key q = ci_key bad -> q = bad)
      by (intros q Hq; apply Hk; now right).
    destruct (truthy (ci_key x) && negb (mem (ci_key x) seen)).
    + right. apply IH; [|exact Hk' | exact Hin].
      intros [E | H]; [now apply Hkx | now apply Hs].
    + now apply IH.
Qed.

(** A trial crashes exactly when the bad plugin is in the partition. *)
Lemma culprit_trial (s : state) (part : list string) (h : history) :
  sound s -> incl part batch ->
  oracle w h (load_order (safe s) part)
  = if mem bad part then Crashed else Passed.
Proof.
  intros [Hb Hu] Hp. cbn [oracle culprit].
  assert (Hbase : ~ In bad (base_order cfg (safe s))).
  { unfold base_order. rewrite in_app_iff, filter_In. intros [H | [H _]].
    - apply bad_new. rewrite app_assoc. apply in_or_app. now left.
    - now apply Hb. }
  destruct (mem bad part) eqn:Em.
  - apply mem_In in Em.
    assert (Hin : In bad (load_order (safe s) part)).
    { apply dedupe_keeps; [intros [] | | apply in_or_app; now right].
      intros q Hq. apply bad_alone.
      unfold base_order in Hq. rewrite !in_app_iff, filter_In in Hq.
      rewrite !in_app_iff.
      destruct Hq as [[[H | H] | [H _]] | H]; auto;
        try (apply Hu in H; rewrite !in_app_iff in H; exact H);
        try (right; right; right; now apply Hp). }
    apply mem_In in Hin. now rewrite Hin.
  - apply mem_false in Em.
    assert (Hout : ~ In bad (load_order (safe s) part)).
    { intros H. apply dedupe_incl, in_app_or in H as [H | H]; contradiction. }
    apply mem_false in Hout. now rewrite Hout.
Qed.

Lemma sound_set_hist (h : history) (s : state) :
  sound s -> sound (set_hist h s).
Proof. intros H. exact H. Qed.

Lemma single_loop_culprit (plugins : list string) (s : state) :
  sound s -> incl plugins batch ->
  exists s',
    single_loop plugins s = Finished s'
    /\ sound s'
    /\ (forall q, In q (failed s') -> q = bad \/ In q (failed s))
    /\ incl (failed s) (failed s')
    /\ (In bad plugins -> In bad (failed s')).
Proof.
  revert s. induction plugins as [|p rest IH]; intros s Hs Hi.
  - exists s. simpl. repeat split; auto using incl_refl; try apply Hs. tauto.
  - assert (Hp : In p batch) by (apply Hi; now left).
    assert (Hr : incl rest batch) by (intros x Hx; apply Hi; now right).
    cbn [Engine.single_loop]. unfold attempt.
    rewrite (culprit_trial s [p] (hist s) Hs) by (now apply incl_single).
    set (t := {| t_part := [p]; t_order := _; t_event := _ |}).
    cbn [mem existsb]. rewrite orb_false_r.
    destruct (String.eqb_spec bad p) as [<- | Hne].
    + destruct (IH (mark_failed bad (set_hist (t :: hist s) s)))
        as (s' & E & Hs' & Hf & Hg & _); [exact Hs | exact Hr|].
      exists s'. split; [exact E|]. split; [exact Hs'|]. split; [|split].
      * intros q Hq. apply Hf in Hq as [Hq | Hq]; [now left|].
        simpl in Hq. apply add_new_In in Hq as [Hq | ->]; auto.
      * intros q Hq. apply Hg. simpl. apply add_new_In. now left.
      * intros _. apply Hg. simpl. apply add_new_In. now right.
    + destruct (IH (mark_safe p (set_hist (t :: hist s) s)))
        as (s' & E & Hs' & Hf & Hg & Hb); [|exact Hr|].
      { destruct Hs as [A B]. split; simpl.
        - rewrite add_new_In. intros [H | H]; [now apply A | now apply Hne].
        - intros x Hx. apply add_new_In in Hx as [Hx | ->]; [now apply B|].
          rewrite !in_app_iff. auto. }
      exists s'. split; [exact E|]. split; [exact Hs'|]. split; [|split].
      * exact Hf.
      * exact Hg.
      * intros [H | H]; [now subst | now apply Hb].
Qed.

Lemma sub_loop_culprit (subs : list (list string)) (s : state) :
  sound s -> (forall sub, In sub subs -> incl sub batch) ->
  exists s',
    sub_loop subs s = Finished s'
    /\ sound s'
    /\ (forall q, In q (failed s') -> q = bad \/ In q (failed s))
    /\ incl (failed s) (failed s')
    /\ (In bad (List.concat subs) -> In bad (failed s')).
Proof.
  revert s. induction subs as [|sub rest IH]; intros s Hs Hi.
  - exists s. simpl. repeat split; auto using incl_refl; try apply Hs. tauto.
  - assert (Hsub : incl sub batch) by (apply Hi; now left).
    assert (Hr : forall x, In x rest -> incl x batch)
      by (intros x Hx; apply Hi; now right).
    cbn [Engine.sub_loop]. unfold attempt.
    rewrite (culprit_trial s sub (hist s) Hs Hsub).
    set (t := {| t_part := sub; t_order := _; t_event := _ |}).
    set (s1 := set_hist (t :: hist s) s).
    destruct (mem bad sub) eqn:Em.
    + apply mem_In in Em.
      assert (Hgen :
                exists s',
                  match single_loop sub s1 with
                  | Finished st2 => sub_loop rest st2
                  | Quit st2 => Quit st2
                  end = Finished s'
                  /\ sound s'
                  /\ (forall q, In q (failed s') -> q = bad \/ In q (failed s))
                  /\ incl (failed s) (failed s')
                  /\ (In bad (List.concat (sub :: rest)) -> In bad (failed s'))).
      { destruct (single_loop_culprit sub s1 Hs Hsub)
          as (s2 & E2 & Hs2 & Hf2 & Hg2 & Hb2).
        rewrite E2. destruct (IH s2 Hs2 Hr) as (s' & E & Hs' & Hf & Hg & Hb).
        exists s'. split; [exact E|]. split; [exact Hs'|]. split; [|split].
        - intros q Hq. apply Hf in Hq as [Hq | Hq]; [now left|].
          now apply Hf2 in Hq.
        - eapply incl_tran; [exact Hg2 | exact Hg].
        - intros _. apply Hg, Hb2, Em. }
      destruct sub as [|p [|q tl]]; try exact Hgen.
      destruct Em as [<- | []].
      destruct (IH (mark_failed p s1) Hs Hr) as (s' & E & Hs' & Hf & Hg & Hb).
      exists s'. split; [exact E|]. split; [exact Hs'|]. split; [|split].
      * intros q Hq. apply Hf in Hq as [Hq | Hq]; [now left|].
        simpl in Hq. apply add_new_In in Hq as [Hq | ->]; auto.
      * intros q Hq. apply Hg. simpl. apply add_new_In. now left.
      * intros _. apply Hg. simpl. apply add_new_In. now right.
    + apply mem_false in Em.
      destruct (IH (extend_safe sub s1)) as (s' & E & Hs' & Hf & Hg & Hb);
        [|exact Hr|].
      { destruct Hs as [A B]. split; simpl.
        - rewrite in_app_iff. tauto.
        - apply incl_app; [exact B|]. intros x Hx.
          rewrite !in_app_iff. right. right. right. now apply Hsub. }
      exists s'. split; [exact E|]. split; [exact Hs'|]. split; [|split].
      * exact Hf.
      * exact Hg.
      * cbn [List.concat]. rewrite in_app_iff. intros [H | H];
          [contradiction | now apply Hb].
Qed.

(** X30.  One bad plugin is found.  When the game crashes exactly when
    one plugin of the batch is loaded, that plugin is not part of the
    baseline and no other name in sight is spelled like it up to case and
    blanks, a single call of [run_batch] returns with the bad plugin in
    Failed and not in Safe, with nothing else added to Failed, and with
    every other plugin of the batch in Safe. *)
Theorem lone_culprit_found (fuel : nat) :
  In bad batch ->
  exists st',
    run_batch (S fuel) batch st0 = Some (Finished st')
    /\ In bad (failed st')
    /\ ~ In bad (safe st')
    /\ (forall q, In q (failed st') -> q = bad \/ In q (failed st0))
    /\ (forall p, In p batch -> p <> bad -> ~ In p (failed st0) ->
                  In p (safe st')).
Proof.
  intros Hin.
  assert (Hs0 : sound st0).
  { split.
    - intros H. apply bad_new. rewrite !in_app_iff. auto.
    - intros x Hx. rewrite !in_app_iff. auto. }
  assert (Hrun :
            exists st',
              run_batch (S fuel) batch st0 = Some (Finished st')
              /\ In bad (failed st')
              /\ ~ In bad (safe st')
              /\ (forall q, In q (failed st') -> q = bad \/ In q (failed st0))).
  { cbn [Engine.run_batch]. unfold attempt.
    rewrite (culprit_trial st0 batch (hist st0) Hs0 (incl_refl batch)).
    apply mem_In in Hin. rewrite Hin.
    set (t := {| t_part := batch; t_order := _; t_event := _ |}).
    destruct (sub_loop_culprit (sub_batches (sub_size_of batch) batch)
                (set_hist (t :: hist st0) st0) Hs0)
      as (s' & E & Hs' & Hf & _ & Hb).
    { intros sub. apply sub_batches_incl. }
    exists s'. split; [now rewrite E|]. split; [|split].
    - apply Hb. rewrite concat_sub_batches by apply sub_size_of_pos.
      now apply mem_In.
    - apply Hs'.
    - exact Hf. }
  destruct Hrun as (st' & E & Hb & Hn & Hf).
  exists st'. split; [exact E|]. split; [exact Hb|]. split; [exact Hn|].
  split; [exact Hf|].
  intros p Hp Hne Hnf.
  destruct (run_batch_classified cfg w (S fuel) batch st0 (Finished st')
              (culprit_classifying bad) E) as (st'' & [= <-] & _ & _ & Hc).
  destruct (Hc p Hp) as [H | H]; [exact H|].
  apply Hf in H as [H | H]; contradiction.
Qed.

End OneCulprit.

Lemma lone_culprit_found_witness :
  exists st',
    run_batch cfg_small (culprit "c.esp") 1 batch5 state0 = Some (Finished st')
    /\ In "c.esp" (failed st')
    /\ ~ In "c.esp" (safe st')
    /\ (forall q, In q (failed st') -> q = "c.esp" \/ In q (failed state0))
    /\ (forall p, In p batch5 -> p <> "c.esp" -> ~ In p (failed state0) ->
                  In p (safe st')).
Proof.
  apply (lone_culprit_found cfg_small "c.esp" batch5 state0).
  - reflexivity.
  - intros q Hq E. simpl in Hq.
    repeat (destruct Hq as [<- | Hq];
            [first [reflexivity | vm_compute in E; discriminate E]|]).
    destruct Hq.
  - simpl. intros [H | []]. discriminate H.
  - simpl. auto 10.
Defined.

End CulpritFacts.
